(** * qcqp: a shallow embedding of [qcqp/qcqp_problem.py]

    The module registers three solve strategies on a CVXPY problem:
    [relax_sdp], [noncvx_admm] and [qcqp_dccp].  This development embeds
    them, together with [one_qcqp], [split_quadratic], [assign_vars],
    [get_id_map], [check_quadraticity] and [solve_SDP_relaxation].

    Conventions of the embedding.
    - A numpy float is an exact rational ([Q]); [np.inf] and [-np.inf] are
      the constructors of [xfloat].  Of what doubles do to exact
      arithmetic two things are modelled, both in the loops of [one_qcqp],
      where they decide whether a loop ends: a power of two that is
      doubled overflows to an infinity at [2^1024], and the midpoint of
      the bisection is rounded, by the external [fl].
    - A dense column vector is a [list Q], a dense matrix the list of its
      rows, an [N]x[M] working matrix such as [xs] the list of its [M]
      columns.  A scipy sparse matrix is its shape and its stored entries.
    - What the module calls in numpy, scipy, cvxpy and dccp is the class
      [Externals]: the code is embedded over any implementation of it.
    - A Python exception is the outcome [Raise]; a [while] loop that has
      not finished within the given number of rounds is [OutOfFuel].
      [NonFinite] is the outcome of a computation that goes on with
      [inf] or [nan] and raises nothing: in [one_qcqp] the call returns a
      vector whose entries are all [nan], in [noncvx_admm] the run goes
      on with such numbers.  The embedding does not follow it further:
      a statement about [Ok] is about the finite results. *)

From Stdlib Require Import QArith Qminmax Qabs Qpower Qround Lqa Lia ZArith String.
From stdpp Require Import list gmap.

Open Scope Q_scope.

(** ** Outcomes *)

Inductive pyexn : Type :=
| Exception (msg : string)
| TypeError
| ValueError
| IndexError
| ZeroDivisionError
| ImportError.

Inductive result (A : Type) : Type :=
| Ok (a : A)
| Raise (e : pyexn)
| OutOfFuel
| NonFinite.

Arguments Ok {A} a.
Arguments Raise {A} e.
Arguments OutOfFuel {A}.
Arguments NonFinite {A}.

Definition bind {A B : Type} (m : result A) (k : A -> result B) : result B :=
  match m with
  | Ok a => k a
  | Raise e => Raise e
  | OutOfFuel => OutOfFuel
  | NonFinite => NonFinite
  end.

Declare Scope result_scope.
Delimit Scope result_scope with result.
Notation "'let*' x ':=' m 'in' k" := (bind m (fun x => k))
  (at level 10, x pattern, m at level 100, k at level 200) : result_scope.
Open Scope result_scope.

(** [l[i]] on a Python list or a numpy axis. *)
Definition getitem {A : Type} (l : list A) (i : nat) : result A :=
  match l !! i with
  | Some a => Ok a
  | None => Raise IndexError
  end.

(** ** Numbers *)

Definition Qltb (x y : Q) : bool := negb (Qle_bool y x).
Definition Qleb (x y : Q) : bool := Qle_bool x y.

Infix "<?" := Qltb (at level 70, no associativity) : Q_scope.
Infix "<=?" := Qleb (at level 70, no associativity) : Q_scope.

Definition Qnat (n : nat) : Q := inject_Z (Z.of_nat n).

(** A float has one representation for a value; [lowest] puts the
    fraction in lowest terms and keeps its value. *)
Definition lowest (x : Q) : Q := Qred x.

(** The first power of two that is no double: [2.**1024] is [inf]. *)
Definition overflow : Q := inject_Z (2 ^ 1024).

Definition overflows (s : Q) : bool := Qle_bool overflow (Qabs s).

Inductive xfloat : Type :=
| NegInf
| Fin (q : Q)
| PosInf.

(** [x < y] on floats that may be infinite. *)
Definition xltb (x y : xfloat) : bool :=
  match x, y with
  | NegInf, NegInf => false
  | NegInf, _ => true
  | Fin _, NegInf => false
  | Fin a, Fin b => a <? b
  | Fin _, PosInf => true
  | PosInf, _ => false
  end.

Definition xle (x y : xfloat) : Prop :=
  match x, y with
  | NegInf, _ => True
  | Fin _, NegInf => False
  | Fin a, Fin b => a <= b
  | _, PosInf => True
  | PosInf, _ => False
  end.

Definition xlt (x y : xfloat) : Prop :=
  match x, y with
  | NegInf, NegInf => False
  | NegInf, _ => True
  | Fin _, NegInf => False
  | Fin a, Fin b => a < b
  | Fin _, PosInf => True
  | PosInf, _ => False
  end.

Definition xeq (x y : xfloat) : Prop :=
  match x, y with
  | NegInf, NegInf => True
  | Fin a, Fin b => a == b
  | PosInf, PosInf => True
  | _, _ => False
  end.

(** Python's [max(a, b)] is [b] when [b > a] and [a] otherwise; [min(a, b)]
    is [b] when [b < a]. *)
Definition xmax (a b : xfloat) : xfloat := if xltb a b then b else a.
Definition xmin (a b : xfloat) : xfloat := if xltb b a then b else a.

Definition xneg (x : xfloat) : xfloat :=
  match x with
  | NegInf => PosInf
  | Fin q => Fin (- q)
  | PosInf => NegInf
  end.

(** ** Dense vectors and matrices *)

Definition vec : Type := list Q.
Definition matrix : Type := list (list Q).

Definition zeros (n : nat) : vec := replicate n 0.

Fixpoint vzip (f : Q -> Q -> Q) (u v : vec) : vec :=
  match u, v with
  | a :: u', b :: v' => f a b :: vzip f u' v'
  | _, _ => []
  end.

Definition vadd : vec -> vec -> vec := vzip Qplus.
Definition vsub : vec -> vec -> vec := vzip Qminus.
Definition vdiv : vec -> vec -> vec := vzip Qdiv.
Definition vscale (c : Q) (v : vec) : vec := map (Qmult c) v.
Definition vneg (v : vec) : vec := map Qopp v.

Fixpoint dot (u v : vec) : Q :=
  match u, v with
  | a :: u', b :: v' => a * b + dot u' v'
  | _, _ => 0
  end.

(** [A*v] for a matrix [A] and a column [v]. *)
Definition mat_vec (A : matrix) (v : vec) : vec := map (fun row => dot row v) A.

Definition column (A : matrix) (j : nat) : vec := map (fun row => nth j row 0) A.

(** [A.T], for a matrix of [m] columns. *)
Definition transpose (m : nat) (A : matrix) : matrix :=
  map (column A) (seq 0 m).

(** [v.T*A]: the row [v.T] against each column of [A], [m] columns. *)
Definition vec_mat (m : nat) (v : vec) (A : matrix) : vec :=
  map (fun j => dot v (column A j)) (seq 0 m).

(** [np.sum(C, 1)] for a matrix of [n] rows given by its columns. *)
Definition sum_columns (n : nat) (cols : list vec) : vec :=
  fold_left vadd cols (zeros n).

(** [np.min] of a one-dimensional array; the empty array is a ValueError. *)
Definition np_min (l : list Q) : result Q :=
  match l with
  | [] => Raise ValueError
  | a :: l' => Ok (fold_left Qmin l' a)
  end.

(** ** scipy sparse matrices

    The stored entries, in any order; entries stored at one position add
    up, as they do when scipy converts to a dense matrix.  [nnz] counts
    the stored entries. *)

Record sparse : Type := mk_sparse {
  shape : nat * nat;
  data : list (nat * nat * Q)
}.

Definition nnz (P : sparse) : nat := length (data P).

Definition entry (P : sparse) (i j : nat) : Q :=
  fold_right (fun '(i', j', v) acc =>
                if (Nat.eqb i i' && Nat.eqb j j')%bool then v + acc else acc)
             0 (data P).

Definition todense (P : sparse) : matrix :=
  map (fun i => map (fun j => entry P i j) (seq 0 (snd (shape P))))
      (seq 0 (fst (shape P))).

(** [sp.csr_matrix((n, m))]: nothing stored. *)
Definition csr_matrix (sh : nat * nat) : sparse := mk_sparse sh [].

Definition sp_identity (n : nat) : sparse :=
  mk_sparse (n, n) (map (fun i => (i, i, 1)) (seq 0 n)).

Definition sp_scale (c : Q) (P : sparse) : sparse :=
  mk_sparse (shape P) (map (fun '(i, j, v) => (i, j, c * v)) (data P)).

Definition sp_neg (P : sparse) : sparse :=
  mk_sparse (shape P) (map (fun '(i, j, v) => (i, j, - v)) (data P)).

(** [A + B]; every sum in the module adds matrices of one shape. *)
Definition sp_add (A B : sparse) : sparse :=
  mk_sparse (shape A) (data A ++ data B).

(** [z.T*A*z] *)
Definition quad_form (A : sparse) (z : vec) : Q :=
  dot (vec_mat (snd (shape A)) z (todense A)) z.

(** [z.T*A*z + z.T*b + c], the value of a quadratic term at [z]. *)
Definition quad_value (A : sparse) (b : vec) (c : Q) (z : vec) : Q :=
  quad_form A z + dot z b + c.

(** ** The caller's problem

    A CVXPY variable carries its [id], its [size] and its mutable [value].
    An expression carries whether it is quadratic and what
    [QuadCoeffExtractor.get_coeffs] extracts from it: for each of its
    entries [i], the triple [(Ps[i], Q[i, :].T, R[i])]; the number of
    triples is [size[0]*size[1]] of the expression. *)

Record variable : Type := mk_variable {
  var_id : nat;
  var_size : nat * nat;
  var_value : option matrix
}.

Record expression : Type := mk_expression {
  is_quadratic : bool;
  get_coeffs : list (sparse * vec * Q)
}.

Record constraint : Type := mk_constraint {
  constr_expr : expression;
  OP_NAME : string
}.

Record Problem : Type := mk_Problem {
  objective_NAME : string;
  objective_arg : expression;
  constraints : list constraint;
  variables : list variable
}.

(** ** What the module calls outside itself *)

(** The relaxation handed to the SDP solver: the sense and the matrix [M]
    of the objective [sum_entries(mul_elemwise(M, X))] over
    [X = Semidef(dim)], and the constraints on [X]. *)
Inductive rel_constraint : Type :=
| entry_eq_one (i j : nat)
| linear_eq_zero (M : matrix)
| linear_le_zero (M : matrix).

Record sdp_problem : Type := mk_sdp_problem {
  sdp_sense : string;
  sdp_dim : nat;
  sdp_objective : matrix;
  sdp_constraints : list rel_constraint
}.

Record sdp_answer : Type := mk_sdp_answer {
  sdp_status : string;
  sdp_value : option xfloat;
  sdp_X_value : option matrix
}.

(** One DCCP constraint
    [quad_form(X, Pp) + X.T*q + r <= quad_form(X, Pm) (+ T)]. *)
Record dccp_constraint : Type := mk_dccp_constraint {
  dc_Pp : sparse;
  dc_q : vec;
  dc_r : Q;
  dc_Pm : sparse;
  dc_plus_T : bool
}.

Class Externals : Type := {
  (** [numpy.linalg.eigh]: eigenvalues and the matrix of eigenvectors *)
  eigh : matrix -> list Q * matrix;
  (** [scipy.sparse.linalg.spsolve] *)
  spsolve : sparse -> vec -> vec;
  (** the state of numpy's random generator and [np.random.randn(n, m)] *)
  rng : Type;
  randn : rng -> nat -> nat -> matrix * rng;
  (** [rel_prob.solve] on the relaxation, with the caller's solver options *)
  sdp_solve : sdp_problem -> sdp_answer;
  (** [import dccp] succeeds *)
  dccp_installed : bool;
  (** [prob.solve(method='dccp')[0]] for [Minimize(T)] over [Variable(N)],
      and [X.value] afterwards *)
  dccp_solve : nat -> list dccp_constraint -> xfloat * option vec;
  (** the double that a float operation returns for the exact value of its
      result: the rounding of [(s+e)/2.] *)
  fl : Q -> Q
}.

Definition OPTIMAL : string := "optimal".
Definition OPTIMAL_INACCURATE : string := "optimal_inaccurate".

(** ** [get_id_map] and [check_quadraticity] *)

Fixpoint get_id_map_from (id_map : gmap nat nat) (N : nat) (vars : list variable)
  : gmap nat nat * nat :=
  match vars with
  | [] => (id_map, N)
  | x :: vars' =>
      get_id_map_from (<[var_id x := N]> id_map)
                      (N + fst (var_size x) * snd (var_size x)) vars'
  end.

Definition get_id_map (vars : list variable) : gmap nat nat * nat :=
  get_id_map_from ∅ 0%nat vars.

(** The warning for a problem that is already convex is not modelled. *)
Definition check_quadraticity (prob : Problem) : result unit :=
  if negb (is_quadratic (objective_arg prob))
  then Raise (Exception "Objective is not quadratic.")
  else if negb (forallb (fun constr => is_quadratic (constr_expr constr))
                        (constraints prob))
  then Raise (Exception "Not all constraints are quadratic.")
  else Ok tt.

(** ** [assign_vars] *)

(** [vals[lo:hi]]; [None] is not subscriptable. *)
Definition getslice (vals : option vec) (lo hi : nat) : result vec :=
  match vals with
  | None => Raise TypeError
  | Some v => Ok (take (hi - lo) (drop lo v))
  end.

(** [np.reshape(v, (r, c), order='F')]: entry [(i, j)] is [v[i + r*j]]. *)
Definition reshape_F (v : vec) (size : nat * nat) : result matrix :=
  let '(r, c) := size in
  if Nat.eqb (length v) (r * c)
  then Ok (map (fun i => map (fun j => nth (i + r * j) v 0) (seq 0 c)) (seq 0 r))
  else Raise ValueError.

(** The column-major flattening that [reshape_F] inverts. *)
Definition flatten_F (size : nat * nat) (m : matrix) : vec :=
  let '(r, c) := size in
  flat_map (fun j => map (fun i => nth j (nth i m []) 0) (seq 0 r)) (seq 0 c).

(** The loop of [assign_vars] from the offset [ind]: the variables as the
    loop leaves them, and how it ends.  An exception at some variable
    leaves that variable and the ones after it as they were; the ones
    before it have their new values. *)
Fixpoint assign_vars_loop (ind : nat) (xs : list variable) (vals : option vec)
  : list variable * result unit :=
  match xs with
  | [] => ([], Ok tt)
  | x :: xs' =>
      let size := (fst (var_size x) * snd (var_size x))%nat in
      match (let* slice := getslice vals ind (ind + size) in
             reshape_F slice (var_size x)) with
      | Ok value =>
          let '(rest, r) := assign_vars_loop (ind + size) xs' vals in
          (mk_variable (var_id x) (var_size x) (Some value) :: rest, r)
      | Raise e => (x :: xs', Raise e)
      | OutOfFuel => (x :: xs', OutOfFuel)
      | NonFinite => (x :: xs', NonFinite)
      end
  end.

(** What the variables hold when [assign_vars] has ended, in either way. *)
Definition assign_vars_state (xs : list variable) (vals : option vec)
  : list variable :=
  fst (assign_vars_loop 0 xs vals).

(** The variables after a loop that ends without an exception. *)
Definition assign_vars_from (ind : nat) (xs : list variable) (vals : option vec)
  : result (list variable) :=
  let '(vars, r) := assign_vars_loop ind xs vals in
  let* _ := r in
  Ok vars.

Definition assign_vars (xs : list variable) (vals : option vec)
  : result (list variable) :=
  assign_vars_from 0 xs vals.

(** [assign_vars] on a value that is a numpy scalar: [vals[ind:ind+size]]
    raises IndexError at the first variable. *)
Definition assign_vars_scalar (xs : list variable) : result (list variable) :=
  match xs with
  | [] => Ok []
  | _ :: _ => Raise IndexError
  end.

Section Core.

Context {E : Externals}.

(** ** [split_quadratic] *)

Definition split_quadratic (P : sparse) : result (sparse * sparse) :=
  let n := fst (shape P) in
  if Nat.eqb (nnz P) 0 then Ok (csr_matrix (n, n), csr_matrix (n, n))
  else
    let* lmb_min := np_min (fst (eigh (todense P))) in
    if lmb_min <? 0
    then Ok (sp_add P (sp_scale (1 - lmb_min) (sp_identity n)),
             sp_scale (1 - lmb_min) (sp_identity n))
    else Ok (P, csr_matrix (n, n)).

(** ** [one_qcqp] *)

(** [-np.divide(nu*bhat-2*zhat, 2*(1+nu*lmb.T))] *)
Definition xhat_of (lmb bhat zhat : vec) (nu : Q) : vec :=
  vneg (vdiv (vsub (vscale nu bhat) (vscale 2 zhat))
             (map (fun l => 2 * (1 + nu * l)) lmb)).

(** [(lmb*np.power(xhat, 2) + bhat.T*xhat + c)[0, 0]] *)
Definition phi (lmb bhat zhat : vec) (c : Q) (nu : Q) : Q :=
  let xhat := xhat_of lmb bhat zhat nu in
  dot lmb (map (fun x => x * x) xhat) + dot bhat xhat + c.

(** The scan of the eigenvalues: [s] and [e] after the [for] loop. *)
Definition bracket_step (se : xfloat * xfloat) (l : Q) : xfloat * xfloat :=
  let '(s, e) := se in
  let s := if 0 <? l then xmax s (Fin (-1 / l)) else s in
  let e := if l <? 0 then xmin e (Fin (-1 / l)) else e in
  (s, e).

Definition bracket_scan (lmb : vec) : xfloat * xfloat :=
  fold_left bracket_step lmb (NegInf, PosInf).

(** [while cond(s): s *= 2.] from [s = -1.] or [s = 1.].  A power of two
    doubles exactly until it overflows to an infinity.  There every entry
    of [xhat] is [nan] and so is [phi]: the comparison is false and the
    loop ends with [s] infinite, after which the call returns [nan] in
    every entry ([NonFinite]).  Without any eigenvalue ([spins]) [phi] is
    the constant [c] also at infinity, and the loop does not end. *)
Fixpoint double_while (fuel : nat) (cond : Q -> bool) (spins : bool) (s : Q)
  : result Q :=
  if cond s then
    match fuel with
    | O => OutOfFuel
    | S fuel' =>
        let s' := lowest (s * 2) in
        if overflows s' then (if spins then OutOfFuel else NonFinite)
        else double_while fuel' cond spins s'
    end
  else Ok s.

(** The bisection loop; the result is [(s, e)] when it ends.  The midpoint
    is the double [fl ((s+e)/2)]: where the doubles next to [s] and [e]
    are further apart than [tol] it is one of the ends, and the loop need
    not end. *)
Fixpoint bisect (fuel : nat) (f : Q -> Q) (tol s e : Q) : result (Q * Q) :=
  if tol <? e - s then
    match fuel with
    | O => OutOfFuel
    | S fuel' =>
        let m := fl ((s + e) / 2) in
        let p := f m in
        if 0 <? p then bisect fuel' f tol m e
        else if p <? 0 then bisect fuel' f tol s m
        else Ok (m, m)
    end
  else Ok (s, e).

Definition default_tol : Q := 1 # 1000000.

(** The bracket [(s, e)] that the bisection starts from. *)
Definition initial_bracket (fuel : nat) (f : Q -> Q) (lmb : vec) : result (Q * Q) :=
  let '(s, e) := bracket_scan lmb in
  let spins := Nat.eqb (length lmb) 0 in
  let* s := match s with
            | NegInf => double_while fuel (fun s => f s <=? 0) spins (-1)
            | Fin s => Ok s
            | PosInf => NonFinite
            end in
  let* e := match e with
            | PosInf => double_while fuel (fun e => 0 <=? f e) spins 1
            | Fin e => Ok e
            | NegInf => NonFinite
            end in
  Ok (s, e).

(** [one_qcqp].  Its outcomes: [Ok x], the call returns the finite point
    [x]; [NonFinite], a doubling loop has overflowed, the bisection
    leaves at once with [nu] infinite or [nan], and the call returns
    [nan] in every entry; [OutOfFuel], a loop has not ended within
    [fuel] rounds.  [phi] is evaluated exactly. *)
Definition one_qcqp (fuel : nat) (z : vec) (A : sparse) (b : vec) (c : Q)
           (equality_cons : bool) (tol : Q) : result vec :=
  if (negb equality_cons && (quad_value A b c z <=? 0))%bool then Ok z
  else
    let '(lmb, Qm) := eigh (todense A) in
    let n := length lmb in
    let zhat := mat_vec (transpose n Qm) z in
    let bhat := mat_vec (transpose n Qm) b in
    let* (s, e) := initial_bracket fuel (phi lmb bhat zhat c) lmb in
    let* (s, e) := bisect fuel (phi lmb bhat zhat c) tol s e in
    let nu := (s + e) / 2 in
    let xhat := xhat_of lmb bhat zhat nu in
    Ok (mat_vec Qm xhat).

(** ** [solve_SDP_relaxation] and [relax_sdp] *)

(** [sp.bmat([[P, q/2], [q.T/2, r]])] *)
Definition bmat (P : sparse) (q : vec) (r : Q) : matrix :=
  zip_with (fun row qi => row ++ [qi / 2]) (todense P) q
  ++ [map (fun qi => qi / 2) q ++ [r]].

Definition relaxed_constraint (OP : string) (t : sparse * vec * Q) : rel_constraint :=
  let '(P, q, r) := t in
  if String.eqb OP "==" then linear_eq_zero (bmat P q r)
  else linear_le_zero (bmat P q r).

(** [rel_prob]: the relaxed objective under the caller's sense, the
    constraint [X[N, N] == 1] and one constraint per entry of every
    constraint of the caller. *)
Definition relaxation (prob : Problem) (N : nat) (objective : sparse * vec * Q)
  : sdp_problem :=
  let '(P, q, r) := objective in
  let rel_obj := bmat P q r in
  let rel_constr :=
    entry_eq_one N N ::
    flat_map (fun constr =>
                map (relaxed_constraint (OP_NAME constr))
                    (get_coeffs (constr_expr constr)))
             (constraints prob) in
  mk_sdp_problem (objective_NAME prob) (N + 1) rel_obj rel_constr.

Definition solve_SDP_relaxation (prob : Problem)
  : result (option matrix * option xfloat * gmap nat nat * nat) :=
  let '(id_map, N) := get_id_map (variables prob) in
  let* objective := getitem (get_coeffs (objective_arg prob)) 0 in
  let rel_prob := sdp_solve (relaxation prob N objective) in
  if negb (String.eqb (sdp_status rel_prob) OPTIMAL
           || String.eqb (sdp_status rel_prob) OPTIMAL_INACCURATE)
  then Ok (None, sdp_value rel_prob, id_map, N)
  else Ok (sdp_X_value rel_prob, sdp_value rel_prob, id_map, N).

(** [X[:, -1]]; [None] is not subscriptable. *)
Fixpoint last_entries (rows : matrix) : result vec :=
  match rows with
  | [] => Ok []
  | row :: rows' =>
      match last row with
      | None => Raise IndexError
      | Some a => let* rest := last_entries rows' in Ok (a :: rest)
      end
  end.

Definition last_column (X : option matrix) : result vec :=
  match X with
  | None => Raise TypeError
  | Some rows => last_entries rows
  end.

Definition relax_sdp (prob : Problem) : result (list variable * option xfloat) :=
  let* _ := check_quadraticity prob in
  let* (X, sdp_bound, id_map, N) := solve_SDP_relaxation prob in
  let* col := last_column X in
  let* vars := assign_vars (variables prob) (Some col) in
  Ok (vars, sdp_bound).

(** ** The coefficients both heuristics start from

    [(P0, Q0, R0)] of the objective, negated for ["maximize"], and the
    lists [PP], [QQ], [RR], [rel] over the entries of the constraints. *)

Record coefficients : Type := mk_coefficients {
  P0 : sparse;
  Q0 : vec;
  R0 : Q;
  PP : list sparse;
  QQ : list vec;
  RR : list Q;
  rel : list bool
}.

Definition constraint_entries (prob : Problem) : list (sparse * vec * Q * bool) :=
  flat_map (fun constr =>
              map (fun t => (t, String.eqb (OP_NAME constr) "=="))
                  (get_coeffs (constr_expr constr)))
           (constraints prob).

Definition extract (prob : Problem) : result coefficients :=
  let* (P0, Q0, R0) := getitem (get_coeffs (objective_arg prob)) 0 in
  let '(P0, Q0, R0) :=
    if String.eqb (objective_NAME prob) "maximize"
    then (sp_neg P0, vneg Q0, - R0)
    else (P0, Q0, R0) in
  let entries := constraint_entries prob in
  Ok (mk_coefficients P0 Q0 R0
        (map (fun t => t.1.1.1) entries)
        (map (fun t => t.1.1.2) entries)
        (map (fun t => t.1.2) entries)
        (map (fun t => t.2) entries)).

(** ** [noncvx_admm] *)

(** What lives across trials: the penalty, the best point found and its
    objective, and the random generator. *)
Record admm_state : Type := mk_admm_state {
  rho : Q;
  bestx : option vec;
  bestf : xfloat;
  gen : rng
}.

(** [bestx = None], [bestf = np.inf] *)
Definition initial_state (rho : Q) (g : rng) : admm_state :=
  mk_admm_state rho None PosInf g.

(** How one pass through the body of [for t in range(num_iters)] ends:
    at the bottom of the body, or at [break]. *)
Inductive iteration_end : Type :=
| Continue (st : admm_state) (z : vec) (xs ys : list vec)
| Break (st : admm_state).

(** [rho = 2*(1-lmb_min)/M] or [rho = 1./M], then [rho *= 5].  With
    [M = 0] the second is a division of Python floats and raises; the
    first is a division of a numpy scalar, which warns and yields [inf]:
    the run goes on with [rho = inf] ([NonFinite]). *)
Definition initial_rho (lmb_min : Q) (M : nat) : result Q :=
  let* rho :=
    if lmb_min <? 0
    then (if Nat.eqb M 0 then NonFinite else Ok (2 * (1 - lmb_min) / Qnat M))
    else (if Nat.eqb M 0 then Raise ZeroDivisionError else Ok (1 / Qnat M)) in
  Ok (rho * 5).

(** [M = len(PP)] *)
Definition M (co : coefficients) : nat := length (PP co).

(** [zlhs = 2*P0 + rho*M*sp.identity(N)] *)
Definition consensus_matrix (co : coefficients) (N : nat) (rho : Q) : sparse :=
  sp_add (sp_scale 2 (P0 co)) (sp_scale (rho * Qnat (M co)) (sp_identity N)).

Section Admm.

Variable co : coefficients.
Variable N : nat.
Variables (num_iters : nat) (viollim eps : Q) (fuel : nat).

(** [for i in range(M)]: the local copies and the duals. *)
Fixpoint update_locals (rho : Q) (z : vec) (range : list nat) (xs ys : list vec)
  : result (list vec * list vec) :=
  match range with
  | [] => Ok (xs, ys)
  | i :: range' =>
      let* yi := getitem ys i in
      let zz := vadd z (vscale (1 / rho) yi) in
      let* Pi := getitem (PP co) i in
      let* qi := getitem (QQ co) i in
      let* ri := getitem (RR co) i in
      let* reli := getitem (rel co) i in
      let* x := one_qcqp fuel zz Pi qi ri reli default_tol in
      let xs := <[i := x]> xs in
      let* xi := getitem xs i in
      let ys := <[i := vadd yi (vscale rho (vsub z xi))]> ys in
      update_locals rho z range' xs ys
  end.

(** [for i in range(M)]: the largest violation at [za]. *)
Fixpoint max_violation (za : vec) (range : list nat) (maxviol : Q) : result Q :=
  match range with
  | [] => Ok maxviol
  | i :: range' =>
      let* Pi := getitem (PP co) i in
      let* qi := getitem (QQ co) i in
      let* ri := getitem (RR co) i in
      let viol := quad_value Pi qi ri za in
      let* reli := getitem (rel co) i in
      let viol := if reli then Qabs viol else Qmax 0 viol in
      max_violation za range' (Qmax maxviol viol)
  end.

(** The step that updates [z], the [xs] and the [ys]. *)
Definition admm_update (zlhs : sparse) (rho : Q) (xs ys : list vec)
  : result (vec * list vec * list vec) :=
  let rhs :=
    vsub (sum_columns N (zip_with (fun x y => vsub (vscale rho x) y) xs ys))
         (Q0 co) in
  let z := spsolve zlhs rhs in
  let* (xs, ys) := update_locals rho z (seq 0 (M co)) xs ys in
  Ok (z, xs, ys).

(** [(np.sum(xs, 1)+z)/(M+1)] *)
Definition average (xs : list vec) (z : vec) : vec :=
  map (fun a => a / Qnat (M co + 1)) (vadd (sum_columns N xs) z).

(** What the body does to the best point: it is replaced when the
    candidate is feasible within [eps] and has a smaller objective. *)
Definition update_best (maxviol objt : Q) (za : vec) (st : admm_state) : admm_state :=
  if ((maxviol <? eps) && xltb (Fin objt) (bestf st))%bool
  then mk_admm_state (rho st) (Some za) (Fin objt) (gen st)
  else st.

(** The body of [for t in range(num_iters)]. *)
Definition admm_iteration (zlhs : sparse) (st : admm_state) (xs ys : list vec)
  : result iteration_end :=
  let* (z, xs, ys) := admm_update zlhs (rho st) xs ys in
  let za := average xs z in
  let* maxviol := max_violation za (seq 0 (M co)) 0 in
  let objt := quad_value (P0 co) (Q0 co) (R0 co) za in
  if viollim <? maxviol
  then Ok (Break (mk_admm_state (rho st * 2) (bestx st) (bestf st) (gen st)))
  else Ok (Continue (update_best maxviol objt za st) z xs ys).

Fixpoint admm_iterations (t : nat) (zlhs : sparse) (st : admm_state)
         (z : vec) (xs ys : list vec) : result admm_state :=
  match t with
  | O => Ok st
  | S t' =>
      let* ending := admm_iteration zlhs st xs ys in
      match ending with
      | Break st => Ok st
      | Continue st z xs ys => admm_iterations t' zlhs st z xs ys
      end
  end.

(** The body of [for sample in range(num_samples)]. *)
Definition admm_trial (st : admm_state) : result admm_state :=
  let '(zm, g) := randn (gen st) N 1 in
  let z := column zm 0 in
  let '(xm, g) := randn g N (M co) in
  let xs := foldl (fun xs i => <[i := z]> xs)
                  (map (column xm) (seq 0 (M co))) (seq 0 (M co)) in
  let ys := replicate (M co) (zeros N) in
  let zlhs := consensus_matrix co N (rho st) in
  admm_iterations num_iters zlhs
                  (mk_admm_state (rho st) (bestx st) (bestf st) g) z xs ys.

Fixpoint admm_trials (num_samples : nat) (st : admm_state) : result admm_state :=
  match num_samples with
  | O => Ok st
  | S n =>
      let* st := admm_trial st in
      admm_trials n st
  end.

End Admm.

(** [noncvx_admm] up to the end of its loops: the state that the last
    trial leaves. *)
Definition admm_run (prob : Problem) (g : rng) (num_samples num_iters : nat)
           (viollim eps : Q) (fuel : nat) : result admm_state :=
  let* _ := check_quadraticity prob in
  let '(id_map, N) := get_id_map (variables prob) in
  let* co := extract prob in
  let '(lmb0, P0Q) := eigh (todense (P0 co)) in
  let* lmb_min := np_min lmb0 in
  let* rho := initial_rho lmb_min (M co) in
  admm_trials co N num_iters viollim eps fuel num_samples (initial_state rho g).

(** The variables after [assign_vars], and the returned [bestf]. *)
Definition noncvx_admm (prob : Problem) (g : rng) (num_samples num_iters : nat)
           (viollim eps : Q) (fuel : nat) : result (list variable * xfloat) :=
  let* st := admm_run prob g num_samples num_iters viollim eps fuel in
  let* vars := assign_vars (variables prob) (bestx st) in
  Ok (vars, bestf st).

(** ** [qcqp_dccp] *)

Fixpoint dccp_constraints (co : coefficients) (range : list nat)
  : result (list dccp_constraint) :=
  match range with
  | [] => Ok []
  | i :: range' =>
      let* Pi := getitem (PP co) i in
      let* (Pp, Pm) := split_quadratic Pi in
      let* qi := getitem (QQ co) i in
      let* ri := getitem (RR co) i in
      let* rest := dccp_constraints co range' in
      Ok (mk_dccp_constraint Pp qi ri Pm false :: rest)
  end.

(** [X.value] of [Variable(N)] is a column for [N > 1]; for [N = 1] CVXPY
    hands out a numpy scalar, which [assign_vars] cannot slice. *)
Definition qcqp_dccp (prob : Problem) : result (list variable * xfloat) :=
  let* _ := check_quadraticity prob in
  if negb dccp_installed then Raise ImportError
  else
    let '(id_map, N) := get_id_map (variables prob) in
    let* co := extract prob in
    let* (P0p, P0m) := split_quadratic (P0 co) in
    let cons0 := mk_dccp_constraint P0p (Q0 co) (R0 co) P0m true in
    let* rest := dccp_constraints co (seq 0 (M co)) in
    let '(result, X_value) := dccp_solve N (cons0 :: rest) in
    let result :=
      if String.eqb (objective_NAME prob) "maximize" then xneg result else result in
    let* vars :=
      match X_value with
      | Some v =>
          if Nat.eqb N 1 then assign_vars_scalar (variables prob)
          else assign_vars (variables prob) (Some v)
      | None => assign_vars (variables prob) None
      end in
    Ok (vars, result).

End Core.

(** ** Vocabulary of the statements *)

(** [P] is positive semidefinite: [x.T*P*x >= 0] at every [x]. *)
Definition PSD (P : sparse) : Prop :=
  forall x : vec, length x = fst (shape P) -> 0 <= quad_form P x.

(** Every entry of [P] is zero. *)
Definition is_zero (P : sparse) : Prop :=
  forall i j : nat, entry P i j == 0.

(** [lam] is the minimum eigenvalue of the [n]x[n] matrix [P], by its
    variational characterisation: the Rayleigh quotient is at least [lam]
    everywhere and is [lam] somewhere. *)
Definition min_eigenvalue (n : nat) (P : sparse) (lam : Q) : Prop :=
  (forall x : vec, length x = n -> lam * dot x x <= quad_form P x) /\
  (exists x : vec, length x = n /\ 0 < dot x x /\ quad_form P x == lam * dot x x).

(** [lam] reports the minimum eigenvalue of the [n]x[n] matrix [P] with
    its sign and less than 1 above it: [lam] is not negative exactly
    when [P] is positive semidefinite, and the Rayleigh quotient is at
    least [lam - 1] everywhere.  Every symmetric matrix has such reports
    among the rationals, whether its eigenvalues are rational or not,
    and its minimum eigenvalue is one where it is rational. *)
Definition reports_min_eigenvalue (n : nat) (P : sparse) (lam : Q) : Prop :=
  (0 <= lam <-> PSD P) /\
  (forall x : vec, length x = n -> (lam - 1) * dot x x <= quad_form P x).

(** The secular function [phi] of [one_qcqp] at [(z, A, b, c)], and the
    point [Q*xhat] that [one_qcqp] builds from a dual value [nu]. *)
Definition secular {E : Externals} (z : vec) (A : sparse) (b : vec) (c : Q)
  : Q -> Q :=
  let '(lmb, Qm) := eigh (todense A) in
  let n := length lmb in
  phi lmb (mat_vec (transpose n Qm) b) (mat_vec (transpose n Qm) z) c.

Definition dual_point {E : Externals} (z : vec) (A : sparse) (b : vec) (nu : Q)
  : vec :=
  let '(lmb, Qm) := eigh (todense A) in
  let n := length lmb in
  mat_vec Qm (xhat_of lmb (mat_vec (transpose n Qm) b)
                      (mat_vec (transpose n Qm) z) nu).

(** The coordinates [xhat] of that point in the basis that [eigh]
    returns. *)
Definition dual_coordinates {E : Externals} (z : vec) (A : sparse) (b : vec)
           (nu : Q) : vec :=
  let '(lmb, Qm) := eigh (todense A) in
  let n := length lmb in
  xhat_of lmb (mat_vec (transpose n Qm) b) (mat_vec (transpose n Qm) z) nu.

(** How far the answer of [eigh] for [A] is from diagonalising it, at the
    point [Q*xhat]: [x.T*A*x - sum_i lmb_i*xhat_i^2].  It is zero where
    [Q.T*A*Q] is the diagonal matrix of [lmb]. *)
Definition eigh_defect {E : Externals} (A : sparse) (xhat : vec) : Q :=
  let '(lmb, Qm) := eigh (todense A) in
  quad_form A (mat_vec Qm xhat) - dot lmb (map (fun x => x * x) xhat).

(** [f] is [L]-Lipschitz between [s] and [e]. *)
Definition lipschitz (f : Q -> Q) (L s e : Q) : Prop :=
  forall u v, s <= u -> u <= v -> v <= e ->
              f u - f v <= L * (v - u) /\ f v - f u <= L * (v - u).

(** What a doubling loop that starts at [s] visits in round [k]:
    [s * 2^k]. *)
Fixpoint doubled (k : nat) (s : Q) : Q :=
  match k with
  | O => s
  | S k' => lowest (doubled k' s * 2)
  end.

(** A float that is negative or [-inf]; positive or [+inf]. *)
Definition xnegative (s : xfloat) : Prop :=
  match s with
  | NegInf => True
  | Fin q => q < 0
  | PosInf => False
  end.

Definition xpositive (e : xfloat) : Prop :=
  match e with
  | NegInf => False
  | Fin q => 0 < q
  | PosInf => True
  end.

(** The double sum behind [x.T*P*x], over an [n]x[m] table of entries. *)
Definition entries_form (n m : nat) (f : nat -> nat -> Q) (x : vec) : Q :=
  dot (map (fun j => dot x (map (fun i => f i j) (seq 0 n))) (seq 0 m)) x.

(** The entries of the identity. *)
Definition delta (i j : nat) : Q := if Nat.eqb i j then 1 else 0.

(** The invariant of the scan: [s] stays negative and [e] positive, [s]
    is at least every pole [-1/l] of a positive eigenvalue and [e] at most
    every pole of a negative one, and a bound that is still infinite has
    met no eigenvalue of its sign. *)
Definition scanned (lmb : list Q) (s e : xfloat) : Prop :=
  xnegative s /\ xpositive e /\
  (forall l, In l lmb -> 0 < l -> xle (Fin (-1 / l)) s) /\
  (forall l, In l lmb -> l < 0 -> xle e (Fin (-1 / l))).

(** What the solver answers on the relaxation of [prob]. *)
Definition relaxation_answer {E : Externals} (prob : Problem)
           (objective : sparse * vec * Q) : sdp_answer :=
  sdp_solve (relaxation prob (snd (get_id_map (variables prob))) objective).

(** The number of scalar entries of a list of variables. *)
Definition total_size (xs : list variable) : nat :=
  foldr (fun x n => (fst (var_size x) * snd (var_size x) + n)%nat) 0%nat xs.

(** The value of a variable as the flat vector it was sliced from. *)
Definition flat_value (x : variable) : vec :=
  match var_value x with
  | Some m => flatten_F (var_size x) m
  | None => []
  end.

(** The best point and its objective belong together. *)
Definition best_consistent {E : Externals} (co : coefficients) (st : admm_state) : Prop :=
  match bestx st with
  | None => bestf st = PosInf
  | Some x => bestf st = Fin (quad_value (P0 co) (Q0 co) (R0 co) x)
  end.

(** What holds between the state before and after any part of a run. *)
Definition run_step {E : Externals} (co : coefficients) (st st' : admm_state)
  : Prop :=
  xle (bestf st') (bestf st) /\
  (best_consistent co st -> best_consistent co st').

(** The inner loop as its description words it: every pass builds the
    consensus system from the penalty it finds.  (The code builds it once
    per trial, before the loop.) *)
Fixpoint admm_iterations_by_pass {E : Externals} (co : coefficients) (N : nat)
         (viollim eps : Q) (fuel : nat) (t : nat) (st : admm_state)
         (z : vec) (xs ys : list vec) : result admm_state :=
  match t with
  | O => Ok st
  | S t' =>
      let* ending :=
        admm_iteration co N viollim eps fuel (consensus_matrix co N (rho st))
                       st xs ys in
      match ending with
      | Break st => Ok st
      | Continue st z xs ys =>
          admm_iterations_by_pass co N viollim eps fuel t' st z xs ys
      end
  end.

(** No point is feasible within [eps]: the largest violation is at least
    [eps] everywhere. *)
Definition nothing_feasible (co : coefficients) (eps : Q) : Prop :=
  forall (za : vec) (maxviol : Q),
    max_violation co za (seq 0 (M co)) 0 = Ok maxviol -> eps <= maxviol.

(** ** Vocabulary of the further statements *)

(** The number of scalar entries of one variable, [size[0]*size[1]]. *)
Definition entries_of (x : variable) : nat :=
  (fst (var_size x) * snd (var_size x))%nat.

(** [prob] with the relation of every constraint replaced by [op]. *)
Definition with_OP_NAME (op : string) (prob : Problem) : Problem :=
  mk_Problem (objective_NAME prob) (objective_arg prob)
             (map (fun constr => mk_constraint (constr_expr constr) op)
                  (constraints prob))
             (variables prob).

(** How far the quadratic term [(P, q, r)] is from its relation at [x]:
    the body of the violation loop of [noncvx_admm]. *)
Definition violation (t : sparse * vec * Q * bool) (x : vec) : Q :=
  let '(P, q, r, is_eq) := t in
  if is_eq then Qabs (quad_value P q r x) else Qmax 0 (quad_value P q r x).

(** The entry [(P, q, r)] of a constraint holds at [x]: it is zero for
    ['=='] and not positive otherwise. *)
Definition entry_holds (t : sparse * vec * Q * bool) (x : vec) : Prop :=
  let '(P, q, r, is_eq) := t in
  if is_eq then quad_value P q r x == 0 else quad_value P q r x <= 0.

(** [x] satisfies every constraint of [prob]. *)
Definition satisfies (prob : Problem) (x : vec) : Prop :=
  Forall (fun t => entry_holds t x) (constraint_entries prob).

(** [x] satisfies every constraint of [prob] within [eps]. *)
Definition satisfies_within (eps : Q) (prob : Problem) (x : vec) : Prop :=
  Forall (fun t => violation t x < eps) (constraint_entries prob).

(** The lifted point [[x; 1] * [x; 1].T]. *)
Definition lifted (x : vec) : matrix :=
  map (fun a => map (Qmult a) (x ++ [1])) (x ++ [1]).

(** The value of [sum_entries(mul_elemwise(M, X))]. *)
Definition sum_entries_mul (M X : matrix) : Q :=
  foldr Qplus 0 (zip_with dot M X).

(** What a constraint of the relaxation says of [X]. *)
Definition rel_holds (c : rel_constraint) (X : matrix) : Prop :=
  match c with
  | entry_eq_one i j => nth j (nth i X []) 0 == 1
  | linear_eq_zero M => sum_entries_mul M X == 0
  | linear_le_zero M => sum_entries_mul M X <= 0
  end.

(** The coefficients [(P, q, r)] are those of a term in [N] unknowns. *)
Definition term_shaped (N : nat) (t : sparse * vec * Q) : Prop :=
  shape t.1.1 = (N, N) /\ length t.1.2 = N.

(** Every point that is in Best-found is feasible within [eps]. *)
Definition best_feasible {E : Externals} (co : coefficients) (eps : Q)
           (st : admm_state) : Prop :=
  match bestx st with
  | None => True
  | Some x => exists maxviol,
      max_violation co x (seq 0 (M co)) 0 = Ok maxviol /\ maxviol < eps
  end.

(** What a DCCP constraint says of the point [x] and the epigraph
    variable [T]. *)
Definition dc_holds (c : dccp_constraint) (x : vec) (T : Q) : Prop :=
  quad_form (dc_Pp c) x + dot x (dc_q c) + dc_r c <=
  quad_form (dc_Pm c) x + (if dc_plus_T c then T else 0).

(** ** Problems in one variable

    For a 1x1 matrix [[a]], [eigh] returns the eigenvalue [a] and the
    eigenvector [[1]], and [spsolve] divides.  The random draws are read
    from a list that is fixed in advance. *)

Module Scalar.

Definition draw (g : list Q) (n m : nat) : matrix * list Q :=
  (map (fun i => map (fun j => nth (i * m + j) g 0) (seq 0 m)) (seq 0 n),
   drop (n * m) g).

Definition externals (sdp : sdp_problem -> sdp_answer)
           (dccp : nat -> list dccp_constraint -> xfloat * option vec) : Externals :=
  {| eigh A := ([nth 0 (nth 0 A []) 0], [[1]]);
     spsolve A b := [nth 0 b 0 / entry A 0 0];
     rng := list Q;
     randn := draw;
     sdp_solve := sdp;
     dccp_installed := true;
     dccp_solve := dccp;
     fl := lowest |}.

Definition infeasible (p : sdp_problem) : sdp_answer :=
  mk_sdp_answer "infeasible" (Some PosInf) None.

(** A solver that reports the lifted matrix [[4, 2], [2, 1]]. *)
Definition optimal (p : sdp_problem) : sdp_answer :=
  mk_sdp_answer "optimal" (Some (Fin 0)) (Some [[4; 2]; [2; 1]]).

Definition no_dccp (n : nat) (cons : list dccp_constraint) : xfloat * option vec :=
  (PosInf, None).

Definition E0 : Externals := externals infeasible no_dccp.
Definition E1 : Externals := externals optimal no_dccp.

(** Doubles that are 1 apart, as they are from [2^52] on: [fl] rounds to
    the nearest whole number. *)
Definition coarse : Externals :=
  {| eigh := @eigh E0;
     spsolve := @spsolve E0;
     rng := list Q;
     randn := draw;
     sdp_solve := infeasible;
     dccp_installed := true;
     dccp_solve := no_dccp;
     fl x := inject_Z (Qfloor (x + (1 # 2))) |}.

Definition scalar (a : Q) : sparse := mk_sparse (1, 1)%nat [(0, 0, a)%nat].

Definition x : variable := mk_variable 0 (1, 1)%nat None.

(** maximize [1 - x^2] subject to [x^2 - 4 <= 0] *)
Definition max_problem : Problem :=
  mk_Problem "maximize" (mk_expression true [(scalar (-1), [0], 1)])
             [mk_constraint (mk_expression true [(scalar 1, [0], -4)]) "<="]
             [x].

(** minimize [(x - 3)^2] subject to [x^2 - 1 == 0] *)
Definition eq_problem : Problem :=
  mk_Problem "minimize" (mk_expression true [(scalar 1, [-6], 9)])
             [mk_constraint (mk_expression true [(scalar 1, [0], -1)]) "=="]
             [x].

(** minimize [x^2] subject to [x - 1 == 0] and [x + 1 == 0] *)
Definition contradictory_problem : Problem :=
  mk_Problem "minimize" (mk_expression true [(scalar 1, [0], 0)])
             [mk_constraint (mk_expression true [(csr_matrix (1, 1)%nat, [1], -1)]) "==";
              mk_constraint (mk_expression true [(csr_matrix (1, 1)%nat, [1], 1)]) "=="]
             [x].

(** minimize [x^2] subject to [x^2 - 4 <= 0] *)
Definition min_problem : Problem :=
  mk_Problem "minimize" (mk_expression true [(scalar 1, [0], 0)])
             [mk_constraint (mk_expression true [(scalar 1, [0], -4)]) "<="]
             [x].

(** minimize [x^2] with no constraint *)
Definition free_problem : Problem :=
  mk_Problem "minimize" (mk_expression true [(scalar 1, [0], 0)]) [] [x].

(** A 2x3 variable of id 5 followed by a scalar of id 9, and the flat
    vector [1, ..., 7] for them. *)
Definition two_variables : list variable :=
  [mk_variable 5 (2, 3)%nat None; mk_variable 9 (1, 1)%nat None].

Definition seven : vec := [1; 2; 3; 4; 5; 6; 7].

Definition viollim : Q := 10000000000.
Definition eps : Q := 1 # 1000.

(** What [extract] gives for the two problems. *)
Definition max_coefficients : coefficients :=
  mk_coefficients (sp_neg (scalar (-1))) (vneg [0]) (- 1)
                  [scalar 1] [[0]] [-4] [false].

Definition eq_coefficients : coefficients :=
  mk_coefficients (scalar 1) [-6] 9 [scalar 1] [[0]] [-1] [true].

Definition contradictory_coefficients : coefficients :=
  mk_coefficients (scalar 1) [0] 0
                  [csr_matrix (1, 1)%nat; csr_matrix (1, 1)%nat]
                  [[1]; [1]] [-1; 1] [true; true].

(** minimize [x^2] subject to a constraint that is not quadratic *)
Definition cubic_problem : Problem :=
  mk_Problem "minimize" (mk_expression true [(scalar 1, [0], 0)])
             [mk_constraint (mk_expression false []) "<="]
             [x].

(** A DCCP solver that reports the origin, with value 0. *)
Definition at_origin (n : nat) (cons : list dccp_constraint) : xfloat * option vec :=
  (Fin 0, Some (zeros n)).

Definition E2 : Externals := externals infeasible at_origin.

End Scalar.

(** ** A problem in two unknowns

    The matrix [[1, 1], [1, -1]] has the eigenvalues [-sqrt 2] and
    [sqrt 2].  [eigh] reports them to four digits, with the matrix of
    the eigenvectors; what else the module calls is as in [Scalar]. *)

Module Plane.

Definition A : sparse :=
  mk_sparse (2, 2)%nat
            [(0%nat, 0%nat, 1); (0%nat, 1%nat, 1); (1%nat, 0%nat, 1);
             (1%nat, 1%nat, -1)].

Definition externals : Externals :=
  {| eigh M := ([-14142 # 10000; 14142 # 10000],
                [[3827 # 10000; 9239 # 10000]; [-9239 # 10000; 3827 # 10000]]);
     spsolve := @spsolve Scalar.E2;
     rng := list Q;
     randn := Scalar.draw;
     sdp_solve := Scalar.infeasible;
     dccp_installed := true;
     dccp_solve := Scalar.at_origin;
     fl := lowest |}.

Definition x : variable := mk_variable 0 (2, 1)%nat None.

(** minimize [x1^2 + 2*x1*x2 - x2^2] subject to [x1 + x2 - 1 <= 0] *)
Definition problem : Problem :=
  mk_Problem "minimize" (mk_expression true [(A, [0; 0], 0)])
             [mk_constraint
                (mk_expression true [(csr_matrix (2, 2)%nat, [1; 1], -1)]) "<="]
             [x].

End Plane.

(** * Properties *)

(** ** Comparisons *)

Lemma Qltb_lt (x y : Q) : (x <? y) = true <-> x < y.
Proof.
  unfold Qltb. rewrite negb_true_iff, <- not_true_iff_false, Qle_bool_iff.
  split; [apply Qnot_le_lt | apply Qlt_not_le].
Qed.

Lemma Qltb_ge (x y : Q) : (x <? y) = false <-> y <= x.
Proof.
  unfold Qltb. rewrite negb_false_iff. apply Qle_bool_iff.
Qed.

Lemma Qleb_le (x y : Q) : (x <=? y) = true <-> x <= y.
Proof. apply Qle_bool_iff. Qed.

Lemma Qleb_gt (x y : Q) : (x <=? y) = false <-> y < x.
Proof.
  unfold Qleb. rewrite <- not_true_iff_false, Qle_bool_iff.
  split; [apply Qnot_le_lt | apply Qlt_not_le].
Qed.

Lemma lowest_eq (x : Q) : lowest x == x.
Proof. apply Qred_correct. Qed.

(** ** [one_qcqp]: the fast path *)

(** C8: for every target [z], matrix [A], vector [b] and scalar [c], if the
    relation is an inequality and [z.T*A*z + b.T*z + c <= 0], [one_qcqp]
    returns [z] itself; it does so for every [eigh] and with no round of
    any loop allowed, so neither the eigendecomposition nor the bisection
    takes part. *)
Theorem one_qcqp_feasible_target (E : Externals) (fuel : nat) (z : vec)
        (A : sparse) (b : vec) (c tol : Q) :
  quad_value A b c z <= 0 ->
  @one_qcqp E fuel z A b c false tol = Ok z.
Proof.
  intros Hz. unfold one_qcqp.
  apply Qleb_le in Hz. rewrite Hz. reflexivity.
Qed.

Lemma one_qcqp_feasible_target_witness :
  quad_value (Scalar.scalar 1) [0] (-4) [1] <= 0 /\
  @one_qcqp Scalar.E0 0 [1] (Scalar.scalar 1) [0] (-4) false default_tol = Ok [1].
Proof.
  assert (H : quad_value (Scalar.scalar 1) [0] (-4) [1] <= 0)
    by (apply Qleb_le; reflexivity).
  split; [exact H | exact (one_qcqp_feasible_target Scalar.E0 0 [1] _ _ _ _ H)].
Defined.

(** ** Outcomes and extended floats *)

Lemma bind_Ok {A B : Type} (m : result A) (k : A -> result B) (b : B) :
  bind m k = Ok b -> exists a, m = Ok a /\ k a = Ok b.
Proof. destruct m; simpl; intros H; try discriminate. eauto. Qed.

Ltac inv_bind H :=
  let a := fresh "a" in
  let Ha := fresh "Ha" in
  apply bind_Ok in H; destruct H as [a [Ha H]].

Lemma getitem_Ok {A : Type} (l : list A) (i : nat) (a : A) :
  getitem l i = Ok a <-> l !! i = Some a.
Proof.
  unfold getitem. destruct (l !! i); split; intros H; congruence.
Qed.

Lemma xle_refl (a : xfloat) : xle a a.
Proof. destruct a; simpl; auto. apply Qle_refl. Qed.

Lemma xle_trans (a b c : xfloat) : xle a b -> xle b c -> xle a c.
Proof.
  destruct a, b, c; simpl; auto; try contradiction. apply Qle_trans.
Qed.

Lemma xltb_xle (a b : xfloat) : xltb a b = true -> xle a b.
Proof.
  destruct a, b; simpl; auto; try discriminate.
  intros H. apply Qltb_lt in H. apply Qlt_le_weak. exact H.
Qed.

Create HintDb admm.
#[local] Hint Resolve xle_refl xltb_xle : admm.

(** ** The body of the iteration *)

Section AdmmFacts.

Context {E : Externals}.
Variables (co : coefficients) (N num_iters : nat) (viollim eps : Q) (fuel : nat).

Lemma admm_iteration_inv (zlhs : sparse) (st : admm_state) (xs ys : list vec)
      (ending : iteration_end) :
  admm_iteration co N viollim eps fuel zlhs st xs ys = Ok ending ->
  exists z' xs' ys' maxviol,
    admm_update co N fuel zlhs (rho st) xs ys = Ok (z', xs', ys') /\
    max_violation co (average co N xs' z') (seq 0 (M co)) 0 = Ok maxviol /\
    ending =
      if viollim <? maxviol
      then Break (mk_admm_state (rho st * 2) (bestx st) (bestf st) (gen st))
      else Continue
             (update_best eps maxviol
                (quad_value (P0 co) (Q0 co) (R0 co) (average co N xs' z'))
                (average co N xs' z') st)
             z' xs' ys'.
Proof.
  unfold admm_iteration. intros H.
  inv_bind H. destruct a as [[z' xs'] ys'].
  inv_bind H. rename a into maxviol.
  exists z', xs', ys', maxviol. repeat split; try assumption.
  destruct (viollim <? maxviol); congruence.
Qed.

Lemma update_locals_spec (r : Q) (z : vec) (range : list nat) :
  forall xs ys xs' ys' : list vec,
    NoDup range ->
    update_locals co fuel r z range xs ys = Ok (xs', ys') ->
    (length xs' = length xs /\ length ys' = length ys) /\
    (forall i, i ∉ range -> xs' !! i = xs !! i /\ ys' !! i = ys !! i) /\
    (forall i, i ∈ range ->
       exists yi Pi qi ri reli xi,
         ys !! i = Some yi /\ PP co !! i = Some Pi /\ QQ co !! i = Some qi /\
         RR co !! i = Some ri /\ rel co !! i = Some reli /\
         one_qcqp fuel (vadd z (vscale (1 / r) yi)) Pi qi ri reli default_tol = Ok xi /\
         xs' !! i = Some xi /\
         ys' !! i = Some (vadd yi (vscale r (vsub z xi)))).
Proof.
  induction range as [|i range IH]; intros xs ys xs' ys' Hnd H.
  - simpl in H. injection H as <- <-.
    split; [auto|]. split; [auto|]. intros i Hi. inversion Hi.
  - apply NoDup_cons in Hnd as [Hi Hnd].
    simpl in H.
    inv_bind H. rename a into yi, Ha into Hyi.
    inv_bind H. rename a into Pi, Ha into HPi.
    inv_bind H. rename a into qi, Ha into Hqi.
    inv_bind H. rename a into ri, Ha into Hri.
    inv_bind H. rename a into reli, Ha into Hreli.
    inv_bind H. rename a into x, Ha into Hx.
    inv_bind H. rename a into xi, Ha into Hxi.
    apply getitem_Ok in Hyi, HPi, Hqi, Hri, Hreli, Hxi.
    assert (Hlt : (i < length xs)%nat).
    { apply lookup_lt_Some in Hxi. rewrite length_insert in Hxi. exact Hxi. }
    rewrite list_lookup_insert_eq in Hxi by exact Hlt.
    injection Hxi as <-.
    apply IH in H as [[Hlx Hly] [Hout Hin]]; [|exact Hnd].
    rewrite length_insert in Hlx, Hly.
    split; [auto|]. split.
    + intros j Hj. apply not_elem_of_cons in Hj as [Hji Hj].
      destruct (Hout j Hj) as [-> ->].
      rewrite !list_lookup_insert_ne by congruence. auto.
    + intros j Hj. apply elem_of_cons in Hj as [-> | Hj].
      * destruct (Hout i Hi) as [Hxo Hyo].
        exists yi, Pi, qi, ri, reli, x. repeat split; try assumption.
        -- rewrite Hxo. apply list_lookup_insert_eq. exact Hlt.
        -- rewrite Hyo. apply list_lookup_insert_eq.
           apply lookup_lt_Some in Hyi. exact Hyi.
      * assert (Hne : i <> j) by (intros ->; contradiction).
        destruct (Hin j Hj) as (yj & Pj & qj & rj & relj & xj & H1 & H2).
        rewrite list_lookup_insert_ne in H1 by exact Hne.
        exists yj, Pj, qj, rj, relj, xj. split; assumption.
Qed.

(** The best value never goes up, and the penalty only doubles. *)

Lemma update_best_le (maxviol objt : Q) (za : vec) (st : admm_state) :
  xle (bestf (update_best eps maxviol objt za st)) (bestf st).
Proof.
  unfold update_best.
  destruct (maxviol <? eps), (xltb (Fin objt) (bestf st)) eqn:Hlt;
    first [apply xle_refl | apply xltb_xle; exact Hlt].
Qed.

Lemma update_best_rho (maxviol objt : Q) (za : vec) (st : admm_state) :
  rho (update_best eps maxviol objt za st) = rho st /\
  gen (update_best eps maxviol objt za st) = gen st.
Proof.
  unfold update_best.
  destruct ((maxviol <? eps) && xltb (Fin objt) (bestf st))%bool; auto.
Qed.

Lemma update_best_cases (maxviol objt : Q) (za : vec) (st : admm_state) :
  update_best eps maxviol objt za st = st \/
  (maxviol < eps /\ xltb (Fin objt) (bestf st) = true /\
   bestx (update_best eps maxviol objt za st) = Some za /\
   bestf (update_best eps maxviol objt za st) = Fin objt).
Proof.
  unfold update_best.
  destruct (maxviol <? eps) eqn:Hv, (xltb (Fin objt) (bestf st)) eqn:Hf;
    simpl; auto.
  right. apply Qltb_lt in Hv. auto.
Qed.

Lemma update_best_consistent (maxviol : Q) (za : vec) (st : admm_state) :
  best_consistent co st ->
  best_consistent co
    (update_best eps maxviol (quad_value (P0 co) (Q0 co) (R0 co) za) za st).
Proof.
  unfold update_best, best_consistent.
  destruct ((maxviol <? eps) && _)%bool; simpl; auto.
Qed.

Lemma run_step_refl (st : admm_state) : run_step co st st.
Proof. split; auto with admm. Qed.

Lemma run_step_trans (a b c : admm_state) :
  run_step co a b -> run_step co b c -> run_step co a c.
Proof.
  intros [H1 H2] [H3 H4]. split; [eapply xle_trans; eassumption | auto].
Qed.

Lemma run_step_gen (st : admm_state) (g : rng) :
  run_step co st (mk_admm_state (rho st) (bestx st) (bestf st) g).
Proof. split; simpl; auto with admm. Qed.

Lemma admm_iteration_step (zlhs : sparse) (st : admm_state) (xs ys : list vec)
      (ending : iteration_end) :
  admm_iteration co N viollim eps fuel zlhs st xs ys = Ok ending ->
  match ending with
  | Break st' => run_step co st st' /\ rho st' = rho st * 2
  | Continue st' _ _ _ => run_step co st st' /\ rho st' = rho st
  end.
Proof.
  intros H. apply admm_iteration_inv in H as (z' & xs' & ys' & maxviol & _ & _ & ->).
  destruct (viollim <? maxviol).
  - split; [|reflexivity]. split; simpl; auto with admm.
  - split; [|apply update_best_rho].
    split; [apply update_best_le | apply update_best_consistent].
Qed.

Lemma admm_iterations_step (t : nat) (zlhs : sparse) :
  forall (st : admm_state) (z : vec) (xs ys : list vec) (st' : admm_state),
    admm_iterations co N viollim eps fuel t zlhs st z xs ys = Ok st' ->
    run_step co st st' /\ (rho st' = rho st \/ rho st' = rho st * 2).
Proof.
  induction t as [|t IH]; intros st z xs ys st' H; simpl in H.
  - injection H as <-. split; [apply run_step_refl | auto].
  - inv_bind H. apply admm_iteration_step in Ha.
    destruct a as [st1 z1 xs1 ys1 | st1].
    + destruct Ha as [Hs Hr]. apply IH in H as [Hs' Hr'].
      split; [eapply run_step_trans; eassumption | rewrite <- Hr; exact Hr'].
    + injection H as <-. destruct Ha as [Hs Hr]. auto.
Qed.

Lemma admm_trial_step (st st' : admm_state) :
  admm_trial co N num_iters viollim eps fuel st = Ok st' ->
  run_step co st st' /\ (rho st' = rho st \/ rho st' = rho st * 2).
Proof.
  unfold admm_trial. intros H.
  destruct (randn (gen st) N 1) as [zm g].
  destruct (randn g N (M co)) as [xm g'].
  apply admm_iterations_step in H as [Hs Hr]. simpl in Hr.
  split; [|exact Hr].
  eapply run_step_trans; [apply (run_step_gen st g')|exact Hs].
Qed.

(** Where no point is feasible within [eps], Best-found stays empty. *)
Lemma admm_iterations_stay_empty (t : nat) (zlhs : sparse) :
  nothing_feasible co eps ->
  forall (st : admm_state) (z : vec) (xs ys : list vec) (st' : admm_state),
    bestx st = None ->
    admm_iterations co N viollim eps fuel t zlhs st z xs ys = Ok st' ->
    bestx st' = None.
Proof.
  intros Hinf. induction t as [|t IH]; intros st z xs ys st' Hnone H; simpl in H.
  - injection H as <-. exact Hnone.
  - inv_bind H.
    apply admm_iteration_inv in Ha as (z1 & xs1 & ys1 & maxviol & _ & Hviol & ->).
    destruct (viollim <? maxviol).
    + injection H as <-. exact Hnone.
    + apply IH in H; [exact H|].
      unfold update_best. apply Hinf in Hviol. apply Qltb_ge in Hviol.
      rewrite Hviol. exact Hnone.
Qed.

Lemma admm_trials_stay_empty (n : nat) :
  nothing_feasible co eps ->
  forall st st' : admm_state,
    bestx st = None ->
    admm_trials co N num_iters viollim eps fuel n st = Ok st' ->
    bestx st' = None.
Proof.
  intros Hinf. induction n as [|n IH]; intros st st' Hnone H; simpl in H.
  - injection H as <-. exact Hnone.
  - inv_bind H. apply IH in H; [exact H|].
    unfold admm_trial in Ha.
    destruct (randn (gen st) N 1) as [zm g].
    destruct (randn g N (M co)) as [xm g'].
    apply admm_iterations_stay_empty in Ha; auto.
Qed.

Lemma admm_trials_S (n : nat) (st : admm_state) :
  admm_trials co N num_iters viollim eps fuel (S n) st =
  bind (admm_trial co N num_iters viollim eps fuel st)
       (admm_trials co N num_iters viollim eps fuel n).
Proof. reflexivity. Qed.

Lemma admm_trials_snoc (n : nat) :
  forall st : admm_state,
    admm_trials co N num_iters viollim eps fuel (S n) st =
    bind (admm_trials co N num_iters viollim eps fuel n st)
         (admm_trial co N num_iters viollim eps fuel).
Proof.
  induction n as [|n IH]; intros st.
  - simpl. destruct (admm_trial _ _ _ _ _ _ st); reflexivity.
  - rewrite (admm_trials_S (S n) st), (admm_trials_S n st).
    destruct (admm_trial _ _ _ _ _ _ st) as [st1| | |]; try reflexivity.
    apply IH.
Qed.

Lemma admm_trials_step (n : nat) :
  forall st st' : admm_state,
    admm_trials co N num_iters viollim eps fuel n st = Ok st' ->
    run_step co st st' /\
    exists k : nat, (k <= n)%nat /\ rho st' == rho st * 2 ^ Z.of_nat k.
Proof.
  induction n as [|n IH]; intros st st' H; simpl in H.
  - injection H as <-. split; [apply run_step_refl|].
    exists 0%nat. split; [lia | simpl; ring].
  - inv_bind H. apply admm_trial_step in Ha as [Hs Hr].
    apply IH in H as [Hs' (k & Hk & Hr')].
    split; [eapply run_step_trans; eassumption|].
    destruct Hr as [Hr | Hr]; rewrite Hr in Hr'.
    + exists k. split; [lia | exact Hr'].
    + exists (S k). split; [lia|].
      rewrite Hr'. rewrite Nat2Z.inj_succ, <- Z.add_1_r.
      rewrite Qpower_plus by discriminate. simpl. ring.
Qed.

End AdmmFacts.

(** ** Sums over entries *)

Lemma dot_nonneg (x : vec) : 0 <= dot x x.
Proof.
  induction x as [|a x IH]; simpl; [apply Qle_refl|]. nra.
Qed.

Lemma dot_map_l_add {A : Type} (f g h : A -> Q) (l : list A) :
  (forall a, In a l -> f a == g a + h a) ->
  forall y : vec, dot (map f l) y == dot (map g l) y + dot (map h l) y.
Proof.
  induction l as [|a l IH]; intros Hf y; simpl.
  - ring.
  - destruct y as [|b y]; [ring|].
    rewrite (Hf a) by (left; reflexivity).
    rewrite IH by (intros a' Ha'; apply Hf; right; exact Ha'). ring.
Qed.

Lemma dot_map_r_add {A : Type} (f g h : A -> Q) (l : list A) :
  (forall a, In a l -> f a == g a + h a) ->
  forall y : vec, dot y (map f l) == dot y (map g l) + dot y (map h l).
Proof.
  induction l as [|a l IH]; intros Hf y; simpl.
  - destruct y; simpl; ring.
  - destruct y as [|b y]; simpl; [ring|].
    rewrite (Hf a) by (left; reflexivity).
    rewrite IH by (intros a' Ha'; apply Hf; right; exact Ha'). ring.
Qed.

Lemma dot_map_l_scale {A : Type} (c : Q) (f g : A -> Q) (l : list A) :
  (forall a, In a l -> f a == c * g a) ->
  forall y : vec, dot (map f l) y == c * dot (map g l) y.
Proof.
  induction l as [|a l IH]; intros Hf y; simpl.
  - ring.
  - destruct y as [|b y]; [ring|].
    rewrite (Hf a) by (left; reflexivity).
    rewrite IH by (intros a' Ha'; apply Hf; right; exact Ha'). ring.
Qed.

Lemma dot_map_r_scale {A : Type} (c : Q) (f g : A -> Q) (l : list A) :
  (forall a, In a l -> f a == c * g a) ->
  forall y : vec, dot y (map f l) == c * dot y (map g l).
Proof.
  induction l as [|a l IH]; intros Hf y; simpl.
  - destruct y; simpl; ring.
  - destruct y as [|b y]; simpl; [ring|].
    rewrite (Hf a) by (left; reflexivity).
    rewrite IH by (intros a' Ha'; apply Hf; right; exact Ha'). ring.
Qed.

Lemma quad_form_entries (P : sparse) (x : vec) :
  quad_form P x = entries_form (fst (shape P)) (snd (shape P)) (entry P) x.
Proof.
  unfold quad_form, entries_form, vec_mat. f_equal.
  apply map_ext_in. intros j Hj. f_equal.
  unfold column, todense. rewrite map_map.
  apply map_ext. intros i.
  apply in_seq in Hj.
  rewrite (nth_indep _ 0 (entry P i 0)) by (rewrite length_map, length_seq; lia).
  rewrite map_nth, seq_nth by lia. reflexivity.
Qed.

Lemma entries_form_add (n m : nat) (f g h : nat -> nat -> Q) (x : vec) :
  (forall i j, (i < n)%nat -> (j < m)%nat -> f i j == g i j + h i j) ->
  entries_form n m f x == entries_form n m g x + entries_form n m h x.
Proof.
  intros Hf. unfold entries_form. apply dot_map_l_add.
  intros j Hj. apply dot_map_r_add. intros i Hi.
  apply in_seq in Hi, Hj. apply Hf; lia.
Qed.

Lemma entries_form_scale (c : Q) (n m : nat) (f g : nat -> nat -> Q) (x : vec) :
  (forall i j, (i < n)%nat -> (j < m)%nat -> f i j == c * g i j) ->
  entries_form n m f x == c * entries_form n m g x.
Proof.
  intros Hf. unfold entries_form. apply dot_map_l_scale.
  intros j Hj. apply dot_map_r_scale. intros i Hi.
  apply in_seq in Hi, Hj. apply Hf; lia.
Qed.

Lemma entries_form_zero (n m : nat) (f : nat -> nat -> Q) (x : vec) :
  (forall i j, (i < n)%nat -> (j < m)%nat -> f i j == 0) ->
  entries_form n m f x == 0.
Proof.
  intros Hf.
  rewrite (entries_form_scale 0 n m f f).
  - ring.
  - intros i j Hi Hj. rewrite Hf by assumption. ring.
Qed.

Lemma dot_delta (j : nat) (x : vec) :
  forall s : nat,
    dot x (map (fun i => delta i j) (seq s (length x))) ==
    if (s <=? j)%nat then nth (j - s) x 0 else 0.
Proof.
  induction x as [|a x IH]; intros s; simpl.
  - destruct (s <=? j)%nat; [destruct (j - s)%nat|]; reflexivity.
  - rewrite IH. unfold delta.
    destruct (Nat.eqb_spec s j) as [->|Hne].
    + rewrite Nat.leb_refl, Nat.sub_diag.
      destruct (Nat.leb_spec (S j) j); [lia|]. ring.
    + destruct (Nat.leb_spec s j), (Nat.leb_spec (S s) j); try lia.
      * replace (j - s)%nat with (S (j - S s)) by lia. ring.
      * ring.
Qed.

Lemma map_nth_seq (x : vec) :
  forall s : nat, map (fun j => nth (j - s) x 0) (seq s (length x)) = x.
Proof.
  induction x as [|a x IH]; intros s; simpl; [reflexivity|].
  rewrite Nat.sub_diag. f_equal.
  rewrite <- (IH (S s)) at 2.
  apply map_ext_in. intros j Hj. apply in_seq in Hj.
  replace (j - s)%nat with (S (j - S s)) by lia. reflexivity.
Qed.

Lemma entries_form_delta (x : vec) :
  entries_form (length x) (length x) delta x == dot x x.
Proof.
  unfold entries_form.
  transitivity (dot (map (fun j => nth (j - 0) x 0) (seq 0 (length x))) x).
  - rewrite (dot_map_l_scale 1 _ (fun j => nth (j - 0) x 0)); [ring|].
    intros j _. rewrite dot_delta. simpl. ring.
  - rewrite map_nth_seq. reflexivity.
Qed.

(** ** Entries of sparse sums, multiples and the identity *)

Lemma entry_add (A B : sparse) (i j : nat) :
  entry (sp_add A B) i j == entry A i j + entry B i j.
Proof.
  unfold entry, sp_add. simpl.
  induction (data A) as [|[[i' j'] v] l IH]; simpl.
  - ring.
  - destruct (Nat.eqb i i' && Nat.eqb j j')%bool; rewrite IH; ring.
Qed.

Lemma entry_scale (c : Q) (A : sparse) (i j : nat) :
  entry (sp_scale c A) i j == c * entry A i j.
Proof.
  unfold entry, sp_scale. simpl.
  induction (data A) as [|[[i' j'] v] l IH]; simpl.
  - ring.
  - destruct (Nat.eqb i i' && Nat.eqb j j')%bool; rewrite IH; ring.
Qed.

Lemma entry_neg (A : sparse) (i j : nat) :
  entry (sp_neg A) i j == - entry A i j.
Proof.
  unfold entry, sp_neg. simpl.
  induction (data A) as [|[[i' j'] v] l IH]; simpl.
  - ring.
  - destruct (Nat.eqb i i' && Nat.eqb j j')%bool; rewrite IH; ring.
Qed.

Lemma entry_csr_matrix (sh : nat * nat) (i j : nat) : entry (csr_matrix sh) i j = 0.
Proof. reflexivity. Qed.

Ltac nat_cases :=
  repeat match goal with
         | |- context [Nat.eqb ?a ?b] => destruct (Nat.eqb_spec a b)
         | |- context [Nat.leb ?a ?b] => destruct (Nat.leb_spec a b)
         | |- context [Nat.ltb ?a ?b] => destruct (Nat.ltb_spec a b)
         end;
  simpl; try lia; try reflexivity; try ring.

Lemma entry_identity_from (i j n : nat) :
  forall s : nat,
    fold_right (fun '(i', j', v) acc =>
                  if (Nat.eqb i i' && Nat.eqb j j')%bool then v + acc else acc)
               0 (map (fun k => (k, k, 1)) (seq s n)) ==
    if ((s <=? i)%nat && (i <? s + n)%nat)%bool then delta i j else 0.
Proof.
  induction n as [|n IH]; intros s.
  - simpl. nat_cases.
  - specialize (IH (S s)). simpl.
    destruct (Nat.eqb i s && Nat.eqb j s)%bool eqn:Hij; rewrite IH.
    + apply andb_true_iff in Hij as [Hi Hj].
      apply Nat.eqb_eq in Hi, Hj. subst. unfold delta. nat_cases.
    + apply andb_false_iff in Hij. unfold delta.
      destruct Hij as [Hi | Hj].
      * apply Nat.eqb_neq in Hi. nat_cases.
      * apply Nat.eqb_neq in Hj. nat_cases.
Qed.

Lemma entry_identity (n i j : nat) :
  entry (sp_identity n) i j == if (i <? n)%nat then delta i j else 0.
Proof.
  unfold entry, sp_identity. simpl. rewrite entry_identity_from. reflexivity.
Qed.

(** ** [split_quadratic] *)

Lemma quad_form_csr_matrix (sh : nat * nat) (x : vec) :
  quad_form (csr_matrix sh) x == 0.
Proof.
  rewrite quad_form_entries. apply entries_form_zero. reflexivity.
Qed.

Lemma quad_form_zero (P : sparse) (x : vec) :
  is_zero P -> quad_form P x == 0.
Proof.
  intros HP. rewrite quad_form_entries. apply entries_form_zero. auto.
Qed.

Lemma quad_form_scaled_identity (s : Q) (x : vec) :
  quad_form (sp_scale s (sp_identity (length x))) x == s * dot x x.
Proof.
  rewrite quad_form_entries. simpl.
  rewrite <- entries_form_delta. apply entries_form_scale.
  intros i j Hi Hj. rewrite entry_scale, entry_identity.
  destruct (Nat.ltb_spec i (length x)); [reflexivity | lia].
Qed.

Lemma quad_form_shift (P : sparse) (s : Q) (x : vec) :
  shape P = (length x, length x) ->
  quad_form (sp_add P (sp_scale s (sp_identity (length x)))) x ==
  quad_form P x + s * dot x x.
Proof.
  intros Hsh. rewrite <- quad_form_scaled_identity.
  rewrite !quad_form_entries. simpl. rewrite Hsh. simpl.
  apply entries_form_add. intros i j _ _. apply entry_add.
Qed.

Lemma nnz_zero (P : sparse) : nnz P = 0%nat -> P = csr_matrix (shape P).
Proof.
  destruct P as [sh d]. unfold nnz. simpl.
  destruct d; [reflexivity | discriminate].
Qed.

Lemma min_eigenvalue_PSD (n : nat) (P : sparse) (lam : Q) :
  shape P = (n, n) -> min_eigenvalue n P lam -> (PSD P <-> 0 <= lam).
Proof.
  intros Hsh [Hlow (x & Hx & Hpos & Hat)]. split.
  - intros HP. specialize (HP x). rewrite Hsh in HP. specialize (HP Hx).
    rewrite Hat in HP. nra.
  - intros Hlam y Hy. rewrite Hsh in Hy. specialize (Hlow y Hy).
    pose proof (dot_nonneg y). nra.
Qed.

Lemma scalar_min_eigenvalue (a : Q) : min_eigenvalue 1 (Scalar.scalar a) a.
Proof.
  split.
  - intros [|b [|? ?]] Hx; try discriminate.
    unfold quad_form. simpl. unfold entry. simpl. nra.
  - exists [1]. split; [reflexivity|]. split; [reflexivity|].
    unfold quad_form. simpl. unfold entry. simpl. ring.
Qed.

Lemma min_eigenvalue_reports (n : nat) (P : sparse) (lam : Q) :
  shape P = (n, n) -> min_eigenvalue n P lam -> reports_min_eigenvalue n P lam.
Proof.
  intros Hsh Hmin. pose proof (min_eigenvalue_PSD n P lam Hsh Hmin) as HPSD.
  split; [split; apply HPSD|].
  intros x Hx. destruct Hmin as [Hlow _]. specialize (Hlow x Hx).
  pose proof (dot_nonneg x). nra.
Qed.

(** C7: for every [n]x[n] matrix [P] and every [lam] that [eigh] reports
    as its minimum eigenvalue with the right sign and less than 1 above
    it, [split_quadratic P] returns [(Pconvex, Pcorrection)] with
    [Pconvex - Pcorrection = P] entry by entry and both positive
    semidefinite; the zero matrix gives two zero matrices, a [P] that is
    positive semidefinite already gives [(P, 0)], and [lam < 0] gives
    [(P + (1-lam)*I, (1-lam)*I)]. *)
Theorem split_quadratic_spec (E : Externals) (P : sparse) (n : nat) (lam : Q) :
  shape P = (n, n) ->
  np_min (fst (eigh (todense P))) = Ok lam ->
  reports_min_eigenvalue n P lam ->
  exists Pconvex Pcorrection : sparse,
    split_quadratic P = Ok (Pconvex, Pcorrection) /\
    (forall i j, entry Pconvex i j - entry Pcorrection i j == entry P i j) /\
    PSD Pconvex /\ PSD Pcorrection /\
    (is_zero P -> is_zero Pconvex /\ is_zero Pcorrection) /\
    (PSD P -> Pconvex = P /\ Pcorrection = csr_matrix (n, n)) /\
    (lam < 0 ->
     Pconvex = sp_add P (sp_scale (1 - lam) (sp_identity n)) /\
     Pcorrection = sp_scale (1 - lam) (sp_identity n)).
Proof.
  intros Hsh Heig [Hsign Hlow].
  assert (HPSD : PSD P <-> 0 <= lam) by (split; apply Hsign).
  assert (Hzero : is_zero P -> 0 <= lam).
  { intros HP. apply HPSD. intros x _. rewrite quad_form_zero by exact HP.
    apply Qle_refl. }
  assert (Hcsr : PSD (csr_matrix (n, n))).
  { intros x _. rewrite quad_form_csr_matrix. apply Qle_refl. }
  unfold split_quadratic. rewrite Hsh. simpl fst.
  destruct (Nat.eqb_spec (nnz P) 0) as [Hnnz | Hnnz].
  - apply nnz_zero in Hnnz. rewrite Hsh in Hnnz.
    assert (HP : is_zero P) by (rewrite Hnnz; intros i j; reflexivity).
    exists (csr_matrix (n, n)), (csr_matrix (n, n)).
    split; [reflexivity|]. split.
    { intros i j. rewrite (HP i j), entry_csr_matrix. ring. }
    split; [exact Hcsr|]. split; [exact Hcsr|]. split.
    { intros _. split; intros i j; reflexivity. }
    split; [intros _; auto|].
    intros Hneg. apply Hzero in HP. lra.
  - rewrite Heig. simpl.
    destruct (lam <? 0) eqn:Hlam.
    + apply Qltb_lt in Hlam.
      exists (sp_add P (sp_scale (1 - lam) (sp_identity n))),
             (sp_scale (1 - lam) (sp_identity n)).
      split; [reflexivity|]. split.
      { intros i j. rewrite entry_add. ring. }
      split.
      { intros x Hx. simpl in Hx. rewrite Hsh in Hx. simpl in Hx. subst n.
        rewrite quad_form_shift by exact Hsh.
        specialize (Hlow x eq_refl). nra. }
      split.
      { intros x Hx. simpl in Hx. subst n.
        rewrite quad_form_scaled_identity.
        pose proof (dot_nonneg x). nra. }
      split; [intros HP; apply Hzero in HP; lra|].
      split; [intros HP; apply HPSD in HP; lra|].
      intros _. auto.
    + apply Qltb_ge in Hlam.
      exists P, (csr_matrix (n, n)).
      split; [reflexivity|]. split.
      { intros i j. rewrite entry_csr_matrix. ring. }
      split; [apply HPSD; exact Hlam|]. split; [exact Hcsr|]. split.
      { intros HP. split; [exact HP | intros i j; reflexivity]. }
      split; [intros _; auto|].
      intros Hneg. lra.
Qed.

Lemma Qsquare_nonneg (x : Q) : 0 <= x * x.
Proof. destruct (Qlt_le_dec x 0); nra. Qed.

(** The matrix [[1, 1], [1, -1]], whose eigenvalues are irrational:
    [-1.4142] is a report of the smaller one. *)
Lemma split_quadratic_spec_witness :
  reports_min_eigenvalue 2 Plane.A (-14142 # 10000) /\
  exists Pconvex Pcorrection : sparse,
    @split_quadratic Plane.externals Plane.A = Ok (Pconvex, Pcorrection) /\
    (forall i j, entry Pconvex i j - entry Pcorrection i j == entry Plane.A i j) /\
    PSD Pconvex /\ PSD Pcorrection /\
    (is_zero Plane.A -> is_zero Pconvex /\ is_zero Pcorrection) /\
    (PSD Plane.A -> Pconvex = Plane.A /\ Pcorrection = csr_matrix (2, 2)%nat) /\
    ((-14142 # 10000) < 0 ->
     Pconvex = sp_add Plane.A (sp_scale (1 - (-14142 # 10000)) (sp_identity 2)) /\
     Pcorrection = sp_scale (1 - (-14142 # 10000)) (sp_identity 2)).
Proof.
  assert (Hform : forall a b : Q,
             quad_form Plane.A [a; b] == a * a + 2 * a * b - b * b).
  { intros a b. unfold quad_form. simpl. unfold entry. simpl. ring. }
  assert (H : reports_min_eigenvalue 2 Plane.A (-14142 # 10000)).
  { split.
    - split; [intros Hle; exfalso; revert Hle; apply Qlt_not_le; reflexivity|].
      intros HP. specialize (HP [0; 1] eq_refl). rewrite Hform in HP. lra.
    - intros [|a [|b [|? ?]]] Hx; try discriminate.
      rewrite Hform. cbn [dot].
      pose proof (Qsquare_nonneg (a + b)). pose proof (Qsquare_nonneg a).
      pose proof (Qsquare_nonneg b). lra. }
  split; [exact H|].
  apply (split_quadratic_spec Plane.externals Plane.A 2 (-14142 # 10000)).
  - reflexivity.
  - reflexivity.
  - exact H.
Defined.

(** ** The sign of a quadratic term *)

Lemma dot_vneg_r (x q : vec) : dot x (vneg q) == - dot x q.
Proof.
  revert q. induction x as [|a x IH]; intros [|b q]; simpl; try ring.
  rewrite IH. ring.
Qed.

Lemma quad_form_neg (P : sparse) (x : vec) :
  quad_form (sp_neg P) x == - quad_form P x.
Proof.
  rewrite !quad_form_entries. simpl.
  rewrite (entries_form_scale (-1) _ _ _ (entry P)); [ring|].
  intros i j _ _. rewrite entry_neg. ring.
Qed.

Lemma quad_value_neg (P : sparse) (q : vec) (r : Q) (x : vec) :
  quad_value (sp_neg P) (vneg q) (- r) x == - quad_value P q r x.
Proof.
  unfold quad_value. rewrite quad_form_neg, dot_vneg_r. ring.
Qed.

(** ** The run of [noncvx_admm] *)

Section RunFacts.

Context {E : Externals}.

Lemma extract_maximize (prob : Problem) (co : coefficients)
      (P : sparse) (q : vec) (r : Q) :
  objective_NAME prob = "maximize"%string ->
  getitem (get_coeffs (objective_arg prob)) 0 = Ok (P, q, r) ->
  extract prob = Ok co ->
  P0 co = sp_neg P /\ Q0 co = vneg q /\ R0 co = - r.
Proof.
  unfold extract. intros Hmax Hget H.
  rewrite Hget, Hmax in H. simpl in H. injection H as <-. auto.
Qed.

Lemma admm_run_inv (prob : Problem) (g : rng) (num_samples num_iters : nat)
      (viollim eps : Q) (fuel : nat) (st : admm_state) :
  admm_run prob g num_samples num_iters viollim eps fuel = Ok st ->
  exists co lmb_min rho0,
    check_quadraticity prob = Ok tt /\
    extract prob = Ok co /\
    np_min (fst (eigh (todense (P0 co)))) = Ok lmb_min /\
    initial_rho lmb_min (M co) = Ok rho0 /\
    admm_trials co (snd (get_id_map (variables prob))) num_iters viollim eps
                fuel num_samples (initial_state rho0 g) = Ok st.
Proof.
  unfold admm_run. intros H.
  inv_bind H. destruct a.
  destruct (get_id_map (variables prob)) as [id_map N]. simpl.
  inv_bind H. rename a into co.
  destruct (eigh (todense (P0 co))) as [lmb0 P0Q] eqn:Heig.
  inv_bind H. rename a into lmb_min.
  inv_bind H. rename a into rho0.
  exists co, lmb_min, rho0. rewrite Heig. auto.
Qed.

Lemma admm_run_consistent (prob : Problem) (g : rng) (num_samples num_iters : nat)
      (viollim eps : Q) (fuel : nat) (st : admm_state) :
  admm_run prob g num_samples num_iters viollim eps fuel = Ok st ->
  exists co, extract prob = Ok co /\ best_consistent co st.
Proof.
  intros H. apply admm_run_inv in H as (co & lmb_min & rho0 & _ & Hco & _ & _ & H).
  exists co. split; [exact Hco|].
  apply admm_trials_step in H as [[_ Hc] _]. apply Hc. reflexivity.
Qed.

Lemma assign_vars_None (x : variable) (xs : list variable) :
  assign_vars (x :: xs) None = Raise TypeError.
Proof. reflexivity. Qed.

(** C1 (the code departs from it): on a problem whose sense is
    ["maximize"], [noncvx_admm] negates [P], [Q], [R] of the objective
    and returns the best value of the negated objective as it is: what the
    caller gets is minus the caller's objective at the point assigned to
    the variables. *)
Theorem noncvx_admm_maximize_value (prob : Problem) (g : rng)
        (num_samples num_iters : nat) (viollim eps : Q) (fuel : nat)
        (P : sparse) (q : vec) (r : Q) (vars : list variable) (f : xfloat) :
  objective_NAME prob = "maximize"%string ->
  variables prob <> [] ->
  getitem (get_coeffs (objective_arg prob)) 0 = Ok (P, q, r) ->
  noncvx_admm prob g num_samples num_iters viollim eps fuel = Ok (vars, f) ->
  exists (x : vec) (v : Q),
    assign_vars (variables prob) (Some x) = Ok vars /\
    f = Fin v /\ v == - quad_value P q r x.
Proof.
  intros Hmax Hvars Hget H. unfold noncvx_admm in H.
  inv_bind H. rename a into st, Ha into Hrun.
  inv_bind H. injection H as <- <-.
  apply admm_run_consistent in Hrun as (co & Hco & Hbest).
  destruct (extract_maximize prob co P q r Hmax Hget Hco) as (HP & HQ & HR).
  unfold best_consistent in Hbest. rewrite HP, HQ, HR in Hbest.
  destruct (bestx st) as [x|].
  - exists x, (quad_value (sp_neg P) (vneg q) (- r) x).
    split; [exact Ha|]. split; [exact Hbest | apply quad_value_neg].
  - destruct (variables prob); [congruence|].
    rewrite assign_vars_None in Ha. discriminate.
Qed.

(** C3 (the code departs from it): when the last trial leaves Best-found
    empty, its objective is still [+inf], and [noncvx_admm] ends in the
    TypeError of [assign_vars] subscripting [None]. *)
Theorem noncvx_admm_nothing_found (prob : Problem) (g : rng)
        (num_samples num_iters : nat) (viollim eps : Q) (fuel : nat)
        (st : admm_state) :
  admm_run prob g num_samples num_iters viollim eps fuel = Ok st ->
  bestx st = None ->
  variables prob <> [] ->
  bestf st = PosInf /\
  noncvx_admm prob g num_samples num_iters viollim eps fuel = Raise TypeError.
Proof.
  intros Hrun Hnone Hvars. split.
  - apply admm_run_consistent in Hrun as (co & _ & Hbest).
    unfold best_consistent in Hbest. rewrite Hnone in Hbest. exact Hbest.
  - unfold noncvx_admm. rewrite Hrun. simpl. rewrite Hnone.
    destruct (variables prob); [congruence | reflexivity].
Qed.

End RunFacts.

Lemma noncvx_admm_maximize_value_witness :
  @noncvx_admm Scalar.E0 Scalar.max_problem [1; 1] 1 1 Scalar.viollim Scalar.eps 0 =
    Ok ([mk_variable 0 (1, 1)%nat (Some [[350 # 490]])],
        Fin (-57624000 # 117649000)) /\
  exists (x : vec) (v : Q),
    assign_vars (variables Scalar.max_problem) (Some x) =
      Ok [mk_variable 0 (1, 1)%nat (Some [[350 # 490]])] /\
    Fin (-57624000 # 117649000) = Fin v /\
    v == - quad_value (Scalar.scalar (-1)) [0] 1 x.
Proof.
  assert (H : @noncvx_admm Scalar.E0 Scalar.max_problem [1; 1] 1 1
                Scalar.viollim Scalar.eps 0 =
              Ok ([mk_variable 0 (1, 1)%nat (Some [[350 # 490]])],
                  Fin (-57624000 # 117649000)))
    by (vm_compute; reflexivity).
  split; [exact H|].
  apply (@noncvx_admm_maximize_value Scalar.E0 Scalar.max_problem [1; 1] 1 1
           Scalar.viollim Scalar.eps 0 (Scalar.scalar (-1)) [0] 1).
  - reflexivity.
  - discriminate.
  - reflexivity.
  - exact H.
Defined.

Example extract_contradictory_problem :
  extract Scalar.contradictory_problem = Ok Scalar.contradictory_coefficients.
Proof. reflexivity. Qed.

(** With the constraints [x - 1 == 0] and [x + 1 == 0] every point
    violates one of them by at least [1]. *)
Lemma contradictory_nothing_feasible :
  nothing_feasible Scalar.contradictory_coefficients Scalar.eps.
Proof.
  intros za maxviol H.
  assert (Hq : forall v, quad_value (csr_matrix (1, 1)%nat) [1] v za ==
                         dot za [1] + v).
  { intros v. unfold quad_value. rewrite quad_form_csr_matrix. ring. }
  pose proof (Hq (-1)) as H1. pose proof (Hq 1) as H2. clear Hq.
  assert (Hmax : max_violation Scalar.contradictory_coefficients za
                   (seq 0 (M Scalar.contradictory_coefficients)) 0 =
                 Ok (Qmax (Qmax 0 (Qabs (quad_value (csr_matrix (1, 1)%nat) [1] (-1) za)))
                          (Qabs (quad_value (csr_matrix (1, 1)%nat) [1] 1 za))))
    by reflexivity.
  rewrite Hmax in H. clear Hmax.
  match type of H with
  | Ok ?t = _ => assert (Heq : maxviol = t) by congruence
  end.
  subst maxviol. clear H.
  revert H1 H2.
  generalize (quad_value (csr_matrix (1, 1)%nat) [1] (-1) za).
  generalize (quad_value (csr_matrix (1, 1)%nat) [1] 1 za).
  generalize (dot za [1]).
  intros a r2 r1 H1 H2.
  pose proof (Qle_Qabs (- r1)) as Ha1. rewrite Qabs_opp in Ha1.
  pose proof (Qle_Qabs r2) as Ha2.
  pose proof (Q.le_max_r 0 (Qabs r1)) as Hm1.
  pose proof (Q.le_max_l (Qmax 0 (Qabs r1)) (Qabs r2)) as Hm2.
  pose proof (Q.le_max_r (Qmax 0 (Qabs r1)) (Qabs r2)) as Hm3.
  unfold Scalar.eps.
  destruct (Qlt_le_dec a 0); lra.
Qed.

(** On that problem the call ends in the TypeError whatever the random
    draws, the number of trials and the number of iterations are. *)
Lemma contradictory_problem_raises (g : list Q) (num_samples num_iters : nat)
      (viollim : Q) (fuel : nat) (st : admm_state) :
  @admm_run Scalar.E0 Scalar.contradictory_problem g num_samples num_iters
            viollim Scalar.eps fuel = Ok st ->
  @noncvx_admm Scalar.E0 Scalar.contradictory_problem g num_samples num_iters
               viollim Scalar.eps fuel = Raise TypeError.
Proof.
  intros H. unfold noncvx_admm. rewrite H. simpl.
  apply admm_run_inv in H as (co & lmb_min & rho0 & _ & Hco & _ & _ & H).
  rewrite extract_contradictory_problem in Hco. injection Hco as <-.
  apply admm_trials_stay_empty in H;
    [|apply contradictory_nothing_feasible | reflexivity].
  rewrite H. reflexivity.
Qed.

(** Two trials of two iterations on that problem. *)
Lemma noncvx_admm_nothing_found_witness :
  @admm_run Scalar.E0 Scalar.contradictory_problem [1; 1; 1; 1; 1; 1] 2 2
            Scalar.viollim Scalar.eps 30 =
    Ok (@mk_admm_state Scalar.E0 (5 # 2) None PosInf []) /\
  @noncvx_admm Scalar.E0 Scalar.contradictory_problem [1; 1; 1; 1; 1; 1] 2 2
               Scalar.viollim Scalar.eps 30 =
    Raise TypeError.
Proof.
  assert (H : @admm_run Scalar.E0 Scalar.contradictory_problem [1; 1; 1; 1; 1; 1]
                2 2 Scalar.viollim Scalar.eps 30 =
              Ok (@mk_admm_state Scalar.E0 (5 # 2) None PosInf []))
    by (vm_compute; reflexivity).
  split; [exact H|].
  apply (@noncvx_admm_nothing_found Scalar.E0 Scalar.contradictory_problem
           [1; 1; 1; 1; 1; 1] 2 2 Scalar.viollim Scalar.eps 30 _ H).
  - reflexivity.
  - discriminate.
Defined.

(** ** The iteration of [noncvx_admm] *)

Example extract_max_problem :
  extract Scalar.max_problem = Ok Scalar.max_coefficients.
Proof. reflexivity. Qed.

Example extract_eq_problem :
  extract Scalar.eq_problem = Ok Scalar.eq_coefficients.
Proof. reflexivity. Qed.

Lemma entry_consensus_matrix (co : coefficients) (N : nat) (r : Q) (i j : nat) :
  entry (consensus_matrix co N r) i j ==
  2 * entry (P0 co) i j + (if (i <? N)%nat then r * Qnat (M co) * delta i j else 0).
Proof.
  unfold consensus_matrix.
  rewrite entry_add, !entry_scale, entry_identity.
  destruct (i <? N)%nat; ring.
Qed.

Section IterationFacts.

Context {E : Externals}.
Variables (co : coefficients) (N num_iters : nat) (viollim eps : Q) (fuel : nat).

(** The system built once per trial is the system of every pass: the
    penalty does not change between the passes of a trial. *)
Lemma admm_iterations_by_pass_eq (t : nat) :
  forall (st : admm_state) (z : vec) (xs ys : list vec),
    admm_iterations co N viollim eps fuel t (consensus_matrix co N (rho st))
                    st z xs ys =
    admm_iterations_by_pass co N viollim eps fuel t st z xs ys.
Proof.
  induction t as [|t IH]; intros st z xs ys; simpl; [reflexivity|].
  destruct (admm_iteration co N viollim eps fuel (consensus_matrix co N (rho st))
                           st xs ys) as [ending| | |] eqn:Hit; try reflexivity.
  simpl. apply admm_iteration_step in Hit.
  destruct ending as [st1 z1 xs1 ys1 | st1]; [|reflexivity].
  destruct Hit as [_ Hr]. rewrite <- Hr. apply IH.
Qed.


(** C6: Best-found starts empty with objective [+inf]; a pass of the inner
    loop changes it only to a candidate whose largest violation is below
    [eps] and whose objective is strictly below the best so far; and the
    best objective after each further trial is at most what it was. *)
Theorem best_found_monotone (n : nat) (rho0 : Q) (g : rng) (st' : admm_state) :
  admm_trials co N num_iters viollim eps fuel (S n) (initial_state rho0 g) = Ok st' ->
  (bestx (initial_state rho0 g) = None /\ bestf (initial_state rho0 g) = PosInf) /\
  (exists st : admm_state,
      admm_trials co N num_iters viollim eps fuel n (initial_state rho0 g) = Ok st /\
      admm_trial co N num_iters viollim eps fuel st = Ok st' /\
      xle (bestf st') (bestf st) /\
      xle (bestf st) (bestf (initial_state rho0 g))) /\
  (forall zlhs st xs ys ending,
      admm_iteration co N viollim eps fuel zlhs st xs ys = Ok ending ->
      match ending with
      | Break st1 => bestx st1 = bestx st /\ bestf st1 = bestf st
      | Continue st1 z1 xs1 ys1 =>
          st1 = st \/
          exists maxviol : Q,
            max_violation co (average co N xs1 z1) (seq 0 (M co)) 0 = Ok maxviol /\
            maxviol < eps /\
            xltb (Fin (quad_value (P0 co) (Q0 co) (R0 co) (average co N xs1 z1)))
                 (bestf st) = true /\
            bestx st1 = Some (average co N xs1 z1) /\
            bestf st1 = Fin (quad_value (P0 co) (Q0 co) (R0 co) (average co N xs1 z1))
      end).
Proof.
  intros H. split; [split; reflexivity|]. split.
  - rewrite admm_trials_snoc in H. inv_bind H. rename a into st.
    exists st. split; [exact Ha|]. split; [exact H|].
    apply admm_trial_step in H as [[Hle _] _].
    apply admm_trials_step in Ha as [[Hle' _] _]. auto.
  - clear H. intros zlhs st xs ys ending H.
    apply admm_iteration_inv in H as (z1 & xs1 & ys1 & maxviol & _ & Hviol & ->).
    destruct (viollim <? maxviol); [split; reflexivity|].
    set (za := average co N xs1 z1).
    set (objt := quad_value (P0 co) (Q0 co) (R0 co) za).
    destruct (update_best_cases eps maxviol objt za st) as [Heq | Hne].
    + left. exact Heq.
    + right. exists maxviol. destruct Hne as (H1 & H2 & H3 & H4). auto.
Qed.

Lemma initial_rho_Ok (lmb_min : Q) (m : nat) (rho0 : Q) :
  initial_rho lmb_min m = Ok rho0 ->
  m <> 0%nat /\
  (lmb_min < 0 -> rho0 == 5 * (2 * (1 - lmb_min) / Qnat m)) /\
  (0 <= lmb_min -> rho0 == 5 * (1 / Qnat m)).
Proof.
  unfold initial_rho.
  destruct (Nat.eqb_spec m 0) as [->|Hm], (lmb_min <? 0) eqn:Hl; simpl;
    try discriminate; intros H; injection H as <-; (split; [exact Hm|]).
  - apply Qltb_lt in Hl. split; intros; [ring | lra].
  - apply Qltb_ge in Hl. split; intros; [lra | ring].
Qed.

Lemma admm_iteration_penalty (zlhs : sparse) (s : admm_state) (xs ys : list vec)
      (ending : iteration_end) :
  admm_iteration co N viollim eps fuel zlhs s xs ys = Ok ending ->
  exists z1 xs1 ys1 maxviol,
    admm_update co N fuel zlhs (rho s) xs ys = Ok (z1, xs1, ys1) /\
    max_violation co (average co N xs1 z1) (seq 0 (M co)) 0 = Ok maxviol /\
    (viollim < maxviol ->
     let aborted := mk_admm_state (rho s * 2) (bestx s) (bestf s) (gen s) in
     ending = Break aborted /\
     forall t z,
       admm_iterations co N viollim eps fuel (S t) zlhs s z xs ys = Ok aborted) /\
    (maxviol <= viollim ->
     exists s1, ending = Continue s1 z1 xs1 ys1 /\ rho s1 = rho s).
Proof.
  intros H. pose proof H as Hit.
  apply admm_iteration_inv in H as (z1 & xs1 & ys1 & maxviol & Hup & Hviol & Hend).
  exists z1, xs1, ys1, maxviol.
  split; [exact Hup|]. split; [exact Hviol|]. split.
  - intros Hgt. apply Qltb_lt in Hgt. rewrite Hgt in Hend.
    split; [exact Hend|]. intros t z. simpl. rewrite Hit, Hend. reflexivity.
  - intros Hle. apply Qltb_ge in Hle. rewrite Hle in Hend.
    eexists. split; [exact Hend | apply update_best_rho].
Qed.

Lemma admm_trial_penalty (s s1 : admm_state) :
  admm_trial co N num_iters viollim eps fuel s = Ok s1 ->
  (rho s1 = rho s \/ rho s1 = rho s * 2) /\
  forall k, admm_trials co N num_iters viollim eps fuel (S k) s =
            admm_trials co N num_iters viollim eps fuel k s1.
Proof.
  intros H. split.
  - apply admm_trial_step in H as [_ Hr]. exact Hr.
  - intros k. rewrite admm_trials_S, H. reflexivity.
Qed.

End IterationFacts.

Section PenaltyFacts.

Context {E : Externals}.

(** C9: in a run of [noncvx_admm] the penalty starts at
    [5*(2*(1-lmb_min)/M)] when the minimum eigenvalue [lmb_min] of [P0] is
    negative and at [5*(1/M)] otherwise; a pass of the inner loop whose
    largest violation exceeds [viollim] doubles it and ends the trial
    there, any other pass keeps it; and the trials hand it on, so that
    after the last trial it is the initial penalty doubled once per
    aborted trial. *)
Theorem penalty_schedule (prob : Problem) (g : rng) (num_samples num_iters : nat)
        (viollim eps : Q) (fuel : nat) (st' : admm_state) :
  admm_run prob g num_samples num_iters viollim eps fuel = Ok st' ->
  exists (co : coefficients) (lmb_min rho0 : Q),
    let N := snd (get_id_map (variables prob)) in
    extract prob = Ok co /\
    np_min (fst (eigh (todense (P0 co)))) = Ok lmb_min /\
    (lmb_min < 0 -> rho0 == 5 * (2 * (1 - lmb_min) / Qnat (M co))) /\
    (0 <= lmb_min -> rho0 == 5 * (1 / Qnat (M co))) /\
    admm_trials co N num_iters viollim eps fuel num_samples (initial_state rho0 g)
      = Ok st' /\
    (exists k : nat, (k <= num_samples)%nat /\ rho st' == rho0 * 2 ^ Z.of_nat k) /\
    (forall zlhs s xs ys ending,
        admm_iteration co N viollim eps fuel zlhs s xs ys = Ok ending ->
        exists z1 xs1 ys1 maxviol,
          admm_update co N fuel zlhs (rho s) xs ys = Ok (z1, xs1, ys1) /\
          max_violation co (average co N xs1 z1) (seq 0 (M co)) 0 = Ok maxviol /\
          (viollim < maxviol ->
           let aborted := mk_admm_state (rho s * 2) (bestx s) (bestf s) (gen s) in
           ending = Break aborted /\
           forall t z,
             admm_iterations co N viollim eps fuel (S t) zlhs s z xs ys = Ok aborted) /\
          (maxviol <= viollim ->
           exists s1, ending = Continue s1 z1 xs1 ys1 /\ rho s1 = rho s)) /\
    (forall s s1,
        admm_trial co N num_iters viollim eps fuel s = Ok s1 ->
        (rho s1 = rho s \/ rho s1 = rho s * 2) /\
        forall k, admm_trials co N num_iters viollim eps fuel (S k) s =
                  admm_trials co N num_iters viollim eps fuel k s1).
Proof.
  intros H.
  apply admm_run_inv in H as (co & lmb_min & rho0 & _ & Hco & Hmin & Hrho & H).
  apply initial_rho_Ok in Hrho as (_ & Hneg & Hpos).
  exists co, lmb_min, rho0. cbv zeta.
  split; [exact Hco|]. split; [exact Hmin|]. split; [exact Hneg|].
  split; [exact Hpos|]. split; [exact H|]. split.
  - apply admm_trials_step in H as [_ Hk]. exact Hk.
  - split.
    + intros zlhs s xs ys ending. apply admm_iteration_penalty.
    + intros s s1. apply admm_trial_penalty.
Qed.

End PenaltyFacts.


(** One trial on the same problem: Best-found goes from empty to
    [x = 5/7]. *)
Lemma best_found_monotone_witness :
  @admm_trials Scalar.E0 Scalar.max_coefficients 1 1 Scalar.viollim Scalar.eps 0 1
     (@initial_state Scalar.E0 5 [1; 1]) =
   Ok (@mk_admm_state Scalar.E0 5 (Some [350 # 490])
                      (Fin (-57624000 # 117649000)) []) /\
  exists st : admm_state,
    @admm_trials Scalar.E0 Scalar.max_coefficients 1 1 Scalar.viollim Scalar.eps 0 0
       (@initial_state Scalar.E0 5 [1; 1]) = Ok st /\
    @admm_trial Scalar.E0 Scalar.max_coefficients 1 1 Scalar.viollim Scalar.eps 0 st =
      Ok (@mk_admm_state Scalar.E0 5 (Some [350 # 490])
                         (Fin (-57624000 # 117649000)) []) /\
    xle (Fin (-57624000 # 117649000)) (bestf st) /\
    xle (bestf st) PosInf.
Proof.
  assert (H : @admm_trials Scalar.E0 Scalar.max_coefficients 1 1 Scalar.viollim
                Scalar.eps 0 1 (@initial_state Scalar.E0 5 [1; 1]) =
              Ok (@mk_admm_state Scalar.E0 5 (Some [350 # 490])
                                 (Fin (-57624000 # 117649000)) []))
    by (vm_compute; reflexivity).
  split; [exact H|].
  exact (proj1 (proj2 (@best_found_monotone Scalar.E0 Scalar.max_coefficients 1 1
                         Scalar.viollim Scalar.eps 0 0%nat 5 [1; 1] _ H))).
Defined.

(** Two trials on [minimize (x-3)^2, x^2 - 1 == 0] with the divergence
    limit lowered to [1/10]: both are aborted and the penalty goes from
    [5] to [20]. *)
Lemma penalty_schedule_witness :
  @admm_run Scalar.E0 Scalar.eq_problem [1; 1; 1; 1] 2 1 (1 # 10) Scalar.eps 30 =
    Ok (@mk_admm_state Scalar.E0 20 None PosInf []) /\
  exists (co : coefficients) (lmb_min rho0 : Q),
    extract Scalar.eq_problem = Ok co /\
    np_min (fst (@eigh Scalar.E0 (todense (P0 co)))) = Ok lmb_min /\
    (lmb_min < 0 -> rho0 == 5 * (2 * (1 - lmb_min) / Qnat (M co))) /\
    (0 <= lmb_min -> rho0 == 5 * (1 / Qnat (M co))) /\
    exists k : nat, (k <= 2)%nat /\ 20 == rho0 * 2 ^ Z.of_nat k.
Proof.
  assert (H : @admm_run Scalar.E0 Scalar.eq_problem [1; 1; 1; 1] 2 1 (1 # 10)
                Scalar.eps 30 =
              Ok (@mk_admm_state Scalar.E0 20 None PosInf []))
    by (vm_compute; reflexivity).
  split; [exact H|].
  destruct (@penalty_schedule Scalar.E0 Scalar.eq_problem [1; 1; 1; 1] 2 1
              (1 # 10) Scalar.eps 30 _ H)
    as (co & lmb_min & rho0 & H1 & H2 & H3 & H4 & _ & H6 & _).
  exists co, lmb_min, rho0. auto.
Defined.

(** ** [assign_vars] *)

Lemma get_id_map_from_size (vars : list variable) :
  forall (id_map : gmap nat nat) (N : nat),
    snd (get_id_map_from id_map N vars) = (N + total_size vars)%nat.
Proof.
  induction vars as [|x vars IH]; intros id_map N; simpl.
  - lia.
  - rewrite IH. lia.
Qed.

Lemma get_id_map_size (vars : list variable) :
  snd (get_id_map vars) = total_size vars.
Proof. unfold get_id_map. rewrite get_id_map_from_size. reflexivity. Qed.

(** A run of [r] consecutive entries, read by index. *)
Lemma map_nth_chunk (v : vec) (r : nat) :
  forall k : nat,
    (k + r <= length v)%nat ->
    map (fun i => nth (i + k) v 0) (seq 0 r) = take r (drop k v).
Proof.
  induction r as [|r IH]; intros k Hk.
  - reflexivity.
  - destruct (lookup_lt_is_Some_2 v k) as [a Ha]; [lia|].
    rewrite (drop_S _ _ _ Ha). simpl.
    rewrite (nth_lookup_Some _ _ _ _ Ha). f_equal.
    rewrite <- seq_shift, map_map, <- IH by lia.
    apply map_ext. intros i. f_equal. lia.
Qed.

Lemma flat_map_chunks (v : vec) (r c : nat) :
  forall s : nat,
    (r * (s + c) <= length v)%nat ->
    flat_map (fun j => map (fun i => nth (i + r * j) v 0) (seq 0 r)) (seq s c) =
    take (r * c) (drop (r * s) v).
Proof.
  induction c as [|c IH]; intros s Hs.
  - rewrite Nat.mul_0_r. reflexivity.
  - simpl. rewrite IH by lia. rewrite map_nth_chunk by lia.
    replace (r * S s)%nat with (r * s + r)%nat by lia.
    rewrite <- drop_drop, take_take_drop. f_equal. lia.
Qed.

Lemma flat_map_ext_seq {B : Type} (f g : nat -> list B) (s n : nat) :
  (forall j, (s <= j < s + n)%nat -> f j = g j) ->
  flat_map f (seq s n) = flat_map g (seq s n).
Proof.
  revert s. induction n as [|n IH]; intros s H; simpl; [reflexivity|].
  rewrite H by lia. f_equal. apply IH. intros j Hj. apply H. lia.
Qed.

(** Flattening column by column undoes the reshape in order ['F']. *)
Lemma flatten_reshape (v : vec) (size : nat * nat) (m : matrix) :
  reshape_F v size = Ok m -> flatten_F size m = v.
Proof.
  destruct size as [r c]. unfold reshape_F, flatten_F.
  destruct (Nat.eqb_spec (length v) (r * c)) as [Hlen|]; [|discriminate].
  intros H. injection H as <-.
  transitivity (flat_map (fun j => map (fun i => nth (i + r * j) v 0) (seq 0 r))
                         (seq 0 c)).
  - apply flat_map_ext_seq. intros j Hj.
    apply map_ext_in. intros i Hi. apply in_seq in Hi.
    rewrite (nth_indep _ [] (map (fun j => nth (0 + r * j) v 0) (seq 0 c)))
      by (rewrite length_map, length_seq; lia).
    rewrite (map_nth (fun i => map (fun j => nth (i + r * j) v 0) (seq 0 c))).
    rewrite seq_nth by lia.
    rewrite (nth_indep _ 0 (nth (0 + i + r * 0) v 0))
      by (rewrite length_map, length_seq; lia).
    rewrite (map_nth (fun j => nth (0 + i + r * j) v 0)).
    rewrite seq_nth by lia. reflexivity.
  - rewrite flat_map_chunks by lia.
    rewrite Nat.mul_0_r, drop_0. apply take_ge. lia.
Qed.

(** The loop, read as the result of a call. *)
Lemma assign_vars_from_nil (ind : nat) (vals : option vec) :
  assign_vars_from ind [] vals = Ok [].
Proof. reflexivity. Qed.

Lemma assign_vars_from_cons (ind : nat) (x : variable) (xs : list variable)
      (vals : option vec) :
  assign_vars_from ind (x :: xs) vals =
  let size := (fst (var_size x) * snd (var_size x))%nat in
  let* slice := getslice vals ind (ind + size) in
  let* value := reshape_F slice (var_size x) in
  let* rest := assign_vars_from (ind + size) xs vals in
  Ok (mk_variable (var_id x) (var_size x) (Some value) :: rest).
Proof.
  unfold assign_vars_from. cbn [assign_vars_loop]. cbv zeta.
  destruct (getslice vals ind _) as [slice| | |]; try reflexivity.
  cbn [bind].
  destruct (reshape_F slice (var_size x)) as [value| | |]; try reflexivity.
  cbn [bind].
  destruct (assign_vars_loop _ xs vals) as [rest [[]| | |]]; reflexivity.
Qed.

Lemma assign_vars_from_spec (v : vec) (xs : list variable) :
  forall ind : nat,
    (ind + total_size xs <= length v)%nat ->
    exists vars : list variable,
      assign_vars_from ind xs (Some v) = Ok vars /\
      map var_id vars = map var_id xs /\
      map var_size vars = map var_size xs /\
      Forall (fun x => exists m, var_value x = Some m /\
                                 reshape_F (flat_value x) (var_size x) = Ok m) vars /\
      concat (map flat_value vars) = take (total_size xs) (drop ind v).
Proof.
  induction xs as [|x xs IH]; intros ind Hlen.
  - exists []. simpl. auto.
  - simpl in Hlen. rewrite assign_vars_from_cons. simpl.
    set (size := (fst (var_size x) * snd (var_size x))%nat) in *.
    replace (ind + size - ind)%nat with size by lia.
    assert (Hslice : length (take size (drop ind v)) = size).
    { rewrite length_take, length_drop. lia. }
    destruct (reshape_F (take size (drop ind v)) (var_size x)) as [m| | |] eqn:Hm.
    2-4: exfalso; unfold reshape_F in Hm; destruct (var_size x) as [r c];
         simpl in size; rewrite Hslice, Nat.eqb_refl in Hm; discriminate.
    destruct (IH (ind + size)%nat) as (vars & Hvars & Hid & Hsz & Hall & Hcat); [lia|].
    simpl. rewrite Hvars. simpl.
    pose proof (flatten_reshape _ _ _ Hm) as Hflat.
    eexists. split; [reflexivity|]. simpl.
    split; [f_equal; exact Hid|]. split; [f_equal; exact Hsz|]. split.
    + constructor; [|exact Hall].
      exists m. unfold flat_value. simpl. rewrite Hflat. auto.
    + unfold flat_value at 1. simpl. rewrite Hflat, Hcat.
      rewrite <- drop_drop. apply take_take_drop.
Qed.

(** ** [relax_sdp] *)

Section RelaxFacts.

Context {E : Externals}.

Lemma last_entries_column (N : nat) (X : matrix) :
  Forall (fun row => length row = (N + 1)%nat) X ->
  last_entries X = Ok (column X N).
Proof.
  induction 1 as [|row X Hrow _ IH]; simpl; [reflexivity|].
  rewrite last_lookup, Hrow.
  replace (Nat.pred (N + 1)) with N by lia.
  destruct (lookup_lt_is_Some_2 row N) as [a Ha]; [lia|].
  rewrite Ha, IH. simpl. rewrite (nth_lookup_Some _ _ _ _ Ha). reflexivity.
Qed.

(** C2 (the code departs from it): when the status that the solver
    reports is neither optimal nor inaccurate-optimal,
    [solve_SDP_relaxation] returns the reported value with [None] for the
    point, and [relax_sdp] then ends in the TypeError of subscripting
    [None]. *)
Theorem relax_sdp_not_optimal (prob : Problem) (objective : sparse * vec * Q) :
  check_quadraticity prob = Ok tt ->
  getitem (get_coeffs (objective_arg prob)) 0 = Ok objective ->
  sdp_status (relaxation_answer prob objective) <> OPTIMAL ->
  sdp_status (relaxation_answer prob objective) <> OPTIMAL_INACCURATE ->
  solve_SDP_relaxation prob =
    Ok (None, sdp_value (relaxation_answer prob objective),
        fst (get_id_map (variables prob)), snd (get_id_map (variables prob))) /\
  relax_sdp prob = Raise TypeError.
Proof.
  intros Hq Hobj Hs1 Hs2.
  assert (Hsolve : solve_SDP_relaxation prob =
                   Ok (None, sdp_value (relaxation_answer prob objective),
                       fst (get_id_map (variables prob)),
                       snd (get_id_map (variables prob)))).
  { unfold solve_SDP_relaxation. unfold relaxation_answer in *.
    destruct (get_id_map (variables prob)) as [id_map N]. simpl in *.
    rewrite Hobj. simpl.
    apply String.eqb_neq in Hs1, Hs2. rewrite Hs1, Hs2. reflexivity. }
  split; [exact Hsolve|].
  unfold relax_sdp. rewrite Hq, Hsolve. reflexivity.
Qed.

(** C10: when the solver succeeds with an [(N+1)]x[(N+1)] matrix [X],
    [relax_sdp] assigns to the variables, in their order and each in its
    own shape, consecutive slices of the last column of [X]; read back
    column by column they are the first [N] entries of that column, and
    its last entry goes to no variable. *)
Theorem relax_sdp_assigns_point (prob : Problem) (X : matrix)
        (sdp_bound : option xfloat) (id_map : gmap nat nat) (N : nat) :
  check_quadraticity prob = Ok tt ->
  solve_SDP_relaxation prob = Ok (Some X, sdp_bound, id_map, N) ->
  length X = (N + 1)%nat ->
  Forall (fun row => length row = (N + 1)%nat) X ->
  exists vars : list variable,
    relax_sdp prob = Ok (vars, sdp_bound) /\
    map var_id vars = map var_id (variables prob) /\
    map var_size vars = map var_size (variables prob) /\
    Forall (fun x => exists m, var_value x = Some m /\
                               reshape_F (flat_value x) (var_size x) = Ok m) vars /\
    concat (map flat_value vars) = take N (column X N) /\
    length (column X N) = (N + 1)%nat.
Proof.
  intros Hq Hsolve Hlen Hrows.
  assert (HN : N = total_size (variables prob)).
  { rewrite <- get_id_map_size. unfold solve_SDP_relaxation in Hsolve.
    destruct (get_id_map (variables prob)) as [id_map' N'].
    inv_bind Hsolve. destruct (negb _); injection Hsolve; auto. }
  assert (Hcol : length (column X N) = (N + 1)%nat).
  { unfold column. rewrite length_map. exact Hlen. }
  destruct (assign_vars_from_spec (column X N) (variables prob) 0)
    as (vars & Hvars & Hid & Hsz & Hall & Hcat); [lia|].
  exists vars. split.
  - unfold relax_sdp. rewrite Hq, Hsolve. simpl.
    rewrite (last_entries_column N X Hrows). simpl.
    unfold assign_vars. rewrite Hvars. reflexivity.
  - rewrite drop_0, <- HN in Hcat. auto.
Qed.

End RelaxFacts.

(** The relaxation of [maximize 1 - x^2, x^2 - 4 <= 0] under a solver
    that reports ["infeasible"]. *)
Lemma relax_sdp_not_optimal_witness :
  @solve_SDP_relaxation Scalar.E0 Scalar.max_problem =
    Ok (None, Some PosInf, fst (get_id_map (variables Scalar.max_problem)), 1%nat) /\
  @relax_sdp Scalar.E0 Scalar.max_problem = Raise TypeError.
Proof.
  apply (@relax_sdp_not_optimal Scalar.E0 Scalar.max_problem
           (Scalar.scalar (-1), [0], 1)).
  - reflexivity.
  - reflexivity.
  - discriminate.
  - discriminate.
Defined.

(** The same relaxation under a solver that reports the lifted matrix of
    [x = 2]: the variable gets [2], the first entry of the last column
    [(2, 1)]. *)
Lemma relax_sdp_assigns_point_witness :
  @solve_SDP_relaxation Scalar.E1 Scalar.max_problem =
    Ok (Some [[4; 2]; [2; 1]], Some (Fin 0),
        fst (get_id_map (variables Scalar.max_problem)), 1%nat) /\
  exists vars : list variable,
    @relax_sdp Scalar.E1 Scalar.max_problem = Ok (vars, Some (Fin 0)) /\
    map var_id vars = [0%nat] /\
    map var_size vars = [(1, 1)%nat] /\
    Forall (fun x => exists m, var_value x = Some m /\
                               reshape_F (flat_value x) (var_size x) = Ok m) vars /\
    concat (map flat_value vars) = [2] /\
    length (column [[4; 2]; [2; 1]] 1) = 2%nat.
Proof.
  assert (H : @solve_SDP_relaxation Scalar.E1 Scalar.max_problem =
              Ok (Some [[4; 2]; [2; 1]], Some (Fin 0),
                  fst (get_id_map (variables Scalar.max_problem)), 1%nat))
    by reflexivity.
  split; [exact H|].
  apply (@relax_sdp_assigns_point Scalar.E1 Scalar.max_problem _ _ _ _ eq_refl H).
  - reflexivity.
  - repeat constructor.
Defined.

(** ** [one_qcqp]: the loops *)

Lemma doubled_eq (k : nat) (s : Q) :
  doubled k s == s * inject_Z (2 ^ Z.of_nat k).
Proof.
  induction k as [|k IH].
  - change (s == s * 1). ring.
  - cbn [doubled]. rewrite lowest_eq, IH.
    rewrite Nat2Z.inj_succ, Z.pow_succ_r by lia.
    rewrite inject_Z_mult. ring.
Qed.

(** From [-1] or [1] the doubling overflows in round 1024, not before. *)
Lemma overflows_doubled (k : nat) (s : Q) :
  Qabs s == 1 -> overflows (doubled k s) = (1024 <=? k)%nat.
Proof.
  intros Hs. unfold overflows.
  assert (Habs : Qabs (doubled k s) == inject_Z (2 ^ Z.of_nat k)).
  { rewrite doubled_eq, Qabs_Qmult, Hs.
    rewrite Qabs_pos; [ring|].
    change 0 with (inject_Z 0). rewrite <- Zle_Qle. apply Z.pow_nonneg. lia. }
  rewrite Habs. unfold overflow.
  destruct (Nat.leb_spec 1024 k) as [Hk | Hk].
  - apply Qle_bool_iff. rewrite <- Zle_Qle.
    apply Z.pow_le_mono_r; lia.
  - apply not_true_is_false. intros H. apply Qle_bool_iff in H.
    rewrite <- Zle_Qle in H.
    assert (Hlt : (2 ^ Z.of_nat k < 2 ^ 1024)%Z)
      by (apply Z.pow_lt_mono_r; lia).
    apply (Z.lt_irrefl (2 ^ 1024)). eapply Z.le_lt_trans; eassumption.
Qed.

Lemma double_while_spec (cond : Q -> bool) (spins : bool) (fuel : nat) :
  forall s s' : Q,
    double_while fuel cond spins s = Ok s' -> cond s' = false.
Proof.
  induction fuel as [|fuel IH]; intros s s' H; cbn [double_while] in H;
    destruct (cond s) eqn:Hc; try discriminate.
  - injection H as <-. exact Hc.
  - destruct (overflows _); [destruct spins; discriminate|]. eapply IH, H.
  - injection H as <-. exact Hc.
Qed.

(** With an eigenvalue and 1024 rounds, a doubling loop from [-1] or [1]
    ends: at a finite value, or by overflow. *)
Lemma double_while_ends (cond : Q -> bool) (s0 : Q) :
  Qabs s0 == 1 ->
  forall (fuel j : nat),
    (j < 1024)%nat -> (1024 <= j + fuel)%nat ->
    double_while fuel cond false (doubled j s0) = NonFinite \/
    exists s, double_while fuel cond false (doubled j s0) = Ok s.
Proof.
  intros Hs0. induction fuel as [|fuel IH]; intros j Hj Hfuel; [lia|].
  cbn [double_while]. destruct (cond (doubled j s0)); [|eauto].
  change (lowest (doubled j s0 * 2)) with (doubled (S j) s0).
  rewrite (overflows_doubled (S j) s0 Hs0).
  destruct (Nat.leb_spec 1024 (S j)) as [Hk | Hk]; [auto|].
  apply IH; lia.
Qed.

(** If the condition holds at every double it visits, the loop overflows. *)
Lemma double_while_overflow (cond : Q -> bool) (s0 : Q) :
  Qabs s0 == 1 ->
  forall (fuel j : nat),
    (j < 1024)%nat -> (1024 <= j + fuel)%nat ->
    (forall k, (k < 1024)%nat -> cond (doubled k s0) = true) ->
    double_while fuel cond false (doubled j s0) = NonFinite.
Proof.
  intros Hs0. induction fuel as [|fuel IH]; intros j Hj Hfuel Hcond; [lia|].
  cbn [double_while]. rewrite (Hcond j Hj).
  change (lowest (doubled j s0 * 2)) with (doubled (S j) s0).
  rewrite (overflows_doubled (S j) s0 Hs0).
  destruct (Nat.leb_spec 1024 (S j)) as [Hk | Hk]; [reflexivity|].
  apply IH; [lia | lia | exact Hcond].
Qed.

Section BracketFacts.

Context {E : Externals}.
Variable f : Q -> Q.

(** How the bisection ends: at a midpoint where [f] is neither positive
    nor negative, or with a bracket no wider than [tol]; an end that it
    has moved carries the sign of [f] that moved it. *)
Lemma bisect_spec (tol : Q) (fuel : nat) :
  forall s e s' e' : Q,
    bisect fuel f tol s e = Ok (s', e') ->
    (s' = e' /\ f s' == 0) \/
    (e' - s' <= tol /\ (s' = s \/ 0 < f s') /\ (e' = e \/ f e' < 0)).
Proof.
  induction fuel as [|fuel IH]; intros s e s' e' H; cbn [bisect] in H;
    destruct (tol <? e - s) eqn:Htol; try discriminate.
  - injection H as <- <-. apply Qltb_ge in Htol. right. auto.
  - set (m := fl ((s + e) / 2)) in *.
    destruct (0 <? f m) eqn:Hpos.
    + apply Qltb_lt in Hpos. apply IH in H.
      destruct H as [H | (H1 & H2 & H3)]; [left; exact H|].
      right. split; [exact H1|]. split; [|exact H3].
      destruct H2 as [-> | H2]; auto.
    + destruct (f m <? 0) eqn:Hneg.
      * apply Qltb_lt in Hneg. apply IH in H.
        destruct H as [H | (H1 & H2 & H3)]; [left; exact H|].
        right. split; [exact H1|]. split; [exact H2|].
        destruct H3 as [-> | H3]; auto.
      * injection H as <- <-. apply Qltb_ge in Hpos, Hneg.
        left. split; [reflexivity | lra].
  - injection H as <- <-. apply Qltb_ge in Htol. right. auto.
Qed.

(** Where the midpoint is computed exactly the bisection ends: [fuel]
    rounds are enough once the bracket is no wider than
    [tol * 2^fuel]. *)
Lemma bisect_terminates (tol : Q) (fuel : nat) :
  (forall x, fl x == x) ->
  forall s e : Q,
    e - s <= tol * 2 ^ Z.of_nat fuel ->
    exists r, bisect fuel f tol s e = Ok r.
Proof.
  intros Hfl.
  induction fuel as [|fuel IH]; intros s e Hw; cbn [bisect];
    destruct (tol <? e - s) eqn:Htol; eauto.
  - apply Qltb_lt in Htol. simpl in Hw. lra.
  - assert (Hm : fl ((s + e) / 2) == (s + e) * (1 # 2))
      by (rewrite Hfl; reflexivity).
    set (m := fl ((s + e) / 2)) in *.
    assert (Hpow : 2 ^ Z.of_nat (S fuel) == 2 * 2 ^ Z.of_nat fuel).
    { rewrite Nat2Z.inj_succ, <- Z.add_1_l.
      rewrite Qpower_plus by discriminate. reflexivity. }
    rewrite Hpow in Hw.
    destruct (0 <? f m); [apply IH; rewrite Hm; lra|].
    destruct (f m <? 0); [apply IH; rewrite Hm; lra|].
    eauto.
Qed.

(** Where the doubles next to the bracket are further apart than [tol],
    the rounded midpoint is an end of the bracket; if [f] has there the
    sign that moves this end, the bisection makes no progress and does
    not end. *)
Lemma bisect_stalls (tol s e : Q) :
  tol < e - s ->
  (fl ((s + e) / 2) = s /\ 0 < f s) \/ (fl ((s + e) / 2) = e /\ f e < 0) ->
  forall fuel : nat, bisect fuel f tol s e = OutOfFuel.
Proof.
  intros Htol Hend. apply Qltb_lt in Htol.
  induction fuel as [|fuel IH]; cbn [bisect]; rewrite Htol; [reflexivity|].
  destruct Hend as [[Hm Hs] | [Hm He]]; rewrite Hm.
  - apply Qltb_lt in Hs. rewrite Hs. exact IH.
  - assert (Hpos : (0 <? f e) = false) by (apply Qltb_ge; lra).
    apply Qltb_lt in He. rewrite Hpos, He. exact IH.
Qed.

End BracketFacts.

(** ** [one_qcqp]: the scan of the eigenvalues *)

Lemma xltb_false_xle (a b : xfloat) : xltb a b = false -> xle b a.
Proof.
  destruct a, b; simpl; auto; try discriminate.
  intros H. apply Qltb_ge in H. exact H.
Qed.

Lemma xmax_spec (a b : xfloat) :
  xle a (xmax a b) /\ xle b (xmax a b) /\ (xmax a b = a \/ xmax a b = b).
Proof.
  unfold xmax. destruct (xltb a b) eqn:H.
  - split; [apply xltb_xle; exact H|]. split; [apply xle_refl | auto].
  - split; [apply xle_refl|]. split; [apply xltb_false_xle; exact H | auto].
Qed.

Lemma xmin_spec (a b : xfloat) :
  xle (xmin a b) a /\ xle (xmin a b) b /\ (xmin a b = a \/ xmin a b = b).
Proof.
  unfold xmin. destruct (xltb b a) eqn:H.
  - split; [apply xltb_xle; exact H|]. split; [apply xle_refl | auto].
  - split; [apply xle_refl|]. split; [apply xltb_false_xle; exact H | auto].
Qed.

Lemma pole_negative (l : Q) : 0 < l -> -1 / l < 0.
Proof.
  intros Hl. assert (H : 0 < / l) by (apply Qinv_lt_0_compat; exact Hl).
  unfold Qdiv. nra.
Qed.

Lemma pole_positive (l : Q) : l < 0 -> 0 < -1 / l.
Proof.
  intros Hl.
  assert (H : 0 < / - l) by (apply Qinv_lt_0_compat; lra).
  assert (Hi : / - l == - / l) by (field; lra).
  unfold Qdiv. rewrite Hi in H. nra.
Qed.

Lemma pole_times (l : Q) : ~ l == 0 -> -1 / l * l == -1.
Proof. intros Hl. field. exact Hl. Qed.

Lemma bracket_step_scanned (done : list Q) (s e : xfloat) (l : Q) :
  scanned done s e ->
  scanned (l :: done) (fst (bracket_step (s, e) l)) (snd (bracket_step (s, e) l)).
Proof.
  intros (Hs & He & Hlow & Hup). unfold bracket_step.
  destruct (xmax_spec s (Fin (-1 / l))) as (Hm1 & Hm2 & Hm3).
  destruct (xmin_spec e (Fin (-1 / l))) as (Hn1 & Hn2 & Hn3).
  destruct (0 <? l) eqn:Hpos, (l <? 0) eqn:Hneg; simpl;
    try apply Qltb_lt in Hpos; try apply Qltb_lt in Hneg;
    try apply Qltb_ge in Hpos; try apply Qltb_ge in Hneg; try lra.
  - split; [|split; [exact He|split]].
    + destruct Hm3 as [-> | ->]; [exact Hs | apply pole_negative; exact Hpos].
    + intros l' [<- | Hin] Hl'; [exact Hm2|].
      eapply xle_trans; [apply Hlow; assumption | exact Hm1].
    + intros l' [<- | Hin] Hl'; [lra | apply Hup; assumption].
  - split; [exact Hs|split; [|split]].
    + destruct Hn3 as [-> | ->]; [exact He | apply pole_positive; exact Hneg].
    + intros l' [<- | Hin] Hl'; [lra | apply Hlow; assumption].
    + intros l' [<- | Hin] Hl'; [exact Hn2|].
      eapply xle_trans; [exact Hn1 | apply Hup; assumption].
  - split; [exact Hs|split; [exact He|split]].
    + intros l' [<- | Hin] Hl'; [lra | apply Hlow; assumption].
    + intros l' [<- | Hin] Hl'; [lra | apply Hup; assumption].
Qed.

Lemma fold_bracket_step_scanned (lmb : list Q) :
  forall (done : list Q) (s e : xfloat),
    scanned done s e ->
    let se := fold_left bracket_step lmb (s, e) in
    scanned (rev lmb ++ done) (fst se) (snd se).
Proof.
  induction lmb as [|l lmb IH]; intros done s e H.
  - exact H.
  - cbn [fold_left rev]. rewrite <- app_assoc. cbn [app].
    pose proof (bracket_step_scanned done s e l H) as Hstep.
    destruct (bracket_step (s, e) l) as [s1 e1].
    apply IH. exact Hstep.
Qed.

Lemma bracket_scan_scanned (lmb : list Q) :
  scanned lmb (fst (bracket_scan lmb)) (snd (bracket_scan lmb)).
Proof.
  assert (H0 : scanned [] NegInf PosInf)
    by (repeat split; simpl; auto; intros l []).
  pose proof (fold_bracket_step_scanned lmb [] NegInf PosInf H0) as H.
  cbv zeta in H. rewrite app_nil_r in H.
  unfold bracket_scan.
  destruct H as (H1 & H2 & H3 & H4).
  repeat split; auto; intros l Hl; [apply H3 | apply H4];
    rewrite <- in_rev; exact Hl.
Qed.

(** Strictly inside the scanned bounds no denominator [2*(1+nu*l)] of
    [xhat] vanishes: every [1+nu*l] is positive. *)
Lemma scanned_denominators (lmb : list Q) (s e : xfloat) (nu : Q) :
  scanned lmb s e ->
  xlt s (Fin nu) -> xlt (Fin nu) e ->
  Forall (fun l => 0 < 1 + nu * l) lmb.
Proof.
  intros (_ & _ & Hlow & Hup) Hs He.
  apply Forall_forall. intros l Hl. apply list_elem_of_In in Hl.
  destruct (Q_dec 0 l) as [[Hpos | Hneg] | Hz].
  - specialize (Hlow l Hl Hpos).
    pose proof (pole_times l ltac:(lra)) as Hp.
    destruct s as [|q|]; simpl in *; try contradiction.
    set (d := -1 / l) in *. nra.
  - specialize (Hup l Hl Hneg).
    pose proof (pole_times l ltac:(lra)) as Hp.
    destruct e as [|q|]; simpl in *; try contradiction.
    set (d := -1 / l) in *. nra.
  - rewrite <- Hz. lra.
Qed.

Lemma xle_lt_Fin (s : xfloat) (a b : Q) : xle s (Fin a) -> a < b -> xlt s (Fin b).
Proof. destruct s; simpl; auto. intros. lra. Qed.

Lemma xle_gt_Fin (e : xfloat) (a b : Q) : xle (Fin a) e -> b < a -> xlt (Fin b) e.
Proof. destruct e; simpl; auto. intros. lra. Qed.

(** The ends that the bisection starts from: an end that a doubling loop
    has set carries the sign of [f] that ended the loop; the other ends
    are the poles that the scan has found. *)
Lemma initial_bracket_spec (f : Q -> Q) (fuel : nat) (lmb : list Q) (s0 e0 : Q) :
  initial_bracket fuel f lmb = Ok (s0, e0) ->
  (0 < f s0 \/ fst (bracket_scan lmb) = Fin s0) /\
  (f e0 < 0 \/ snd (bracket_scan lmb) = Fin e0).
Proof.
  unfold initial_bracket.
  destruct (bracket_scan lmb) as [s e]. cbn [fst snd]. cbv zeta.
  intros H. inv_bind H. rename a into s1, Ha into Hs1.
  inv_bind H. rename a into e1, Ha into He1. injection H as <- <-.
  split.
  - destruct s as [|q|]; [|injection Hs1 as <-; auto|discriminate].
    apply double_while_spec in Hs1. apply Qleb_gt in Hs1. auto.
  - destruct e as [|q|]; [discriminate|injection He1 as <-; auto|].
    apply double_while_spec in He1. apply Qleb_gt in He1. auto.
Qed.

(** ** [qcqp_dccp]: the sign of the result *)

(** When [qcqp_dccp] returns, [X.value] was a column that [assign_vars]
    could slice: the problem does not have just one scalar entry. *)
Lemma dccp_assign_Ok (xs : list variable) (X_value : option vec)
      (vars : list variable) :
  match X_value with
  | Some v =>
      if Nat.eqb (total_size xs) 1 then assign_vars_scalar xs
      else assign_vars xs (Some v)
  | None => assign_vars xs None
  end = Ok vars ->
  total_size xs <> 1%nat /\ assign_vars xs X_value = Ok vars.
Proof.
  destruct X_value as [v|].
  - destruct (Nat.eqb_spec (total_size xs) 1) as [H1 | H1]; [|auto].
    destruct xs; [discriminate H1 | discriminate].
  - destruct xs; [|discriminate]. intros H. split; [discriminate | exact H].
Qed.

(** On a problem whose sense is ["maximize"], [qcqp_dccp] hands the
    solver the negated objective and returns the solver's result negated
    back. *)
Lemma qcqp_dccp_maximize_value (E : Externals) (prob : Problem)
      (P : sparse) (q : vec) (r : Q) (vars : list variable) (f : xfloat) :
  objective_NAME prob = "maximize"%string ->
  getitem (get_coeffs (objective_arg prob)) 0 = Ok (P, q, r) ->
  qcqp_dccp prob = Ok (vars, f) ->
  exists (P0p P0m : sparse) (rest : list dccp_constraint),
    split_quadratic (sp_neg P) = Ok (P0p, P0m) /\
    let answer :=
      dccp_solve (snd (get_id_map (variables prob)))
                 (mk_dccp_constraint P0p (vneg q) (- r) P0m true :: rest) in
    f = xneg (fst answer) /\
    assign_vars (variables prob) (snd answer) = Ok vars.
Proof.
  intros Hmax Hget H. unfold qcqp_dccp in H.
  inv_bind H. destruct (negb dccp_installed); [discriminate|].
  pose proof (get_id_map_size (variables prob)) as HN.
  destruct (get_id_map (variables prob)) as [id_map N]. simpl in HN. subst N.
  simpl.
  inv_bind H. rename a0 into co, Ha0 into Hco.
  destruct (extract_maximize prob co P q r Hmax Hget Hco) as (HP & HQ & HR).
  inv_bind H. destruct a0 as [P0p P0m]. rename Ha0 into Hsplit.
  inv_bind H. rename a0 into rest, Ha0 into Hrest.
  rewrite HP in Hsplit. rewrite HQ, HR in H.
  exists P0p, P0m, rest. split; [exact Hsplit|]. cbv zeta.
  destruct (dccp_solve _ _) as [result X_value]. cbn [fst snd].
  rewrite Hmax in H. cbn [String.eqb] in H.
  inv_bind H. injection H as <- <-.
  apply dccp_assign_Ok in Ha0 as [_ Ha0]. auto.
Qed.

(** ** [one_qcqp]: the secular function and the boundary equation *)

Lemma dot_comm (u v : vec) : dot u v == dot v u.
Proof.
  revert v. induction u as [|a u IH]; intros [|b v]; simpl; try reflexivity.
  rewrite IH. ring.
Qed.

(** [(Q*xhat).T*b = (Q.T*b).T*xhat] for a matrix [Q] of [n] columns. *)
Lemma dot_mat_vec_transpose (n : nat) (Qm : matrix) :
  Forall (fun row => length row = n) Qm ->
  forall b xhat : vec,
    length b = length Qm ->
    dot (mat_vec Qm xhat) b ==
    dot (map (fun j => dot (column Qm j) b) (seq 0 n)) xhat.
Proof.
  unfold mat_vec.
  induction 1 as [|row Qm Hrow _ IH]; intros b xhat Hb.
  - destruct b; [|discriminate]. simpl.
    rewrite (dot_map_l_scale 0 _ (fun _ => 0)); [ring|].
    intros j _. reflexivity.
  - destruct b as [|b0 b]; [discriminate|]. injection Hb as Hb.
    simpl. rewrite (IH b xhat Hb).
    rewrite (dot_map_l_add
               (fun j => dot (column (row :: Qm) j) (b0 :: b))
               (fun j => b0 * nth (j - 0) row 0)
               (fun j => dot (column Qm j) b)).
    + rewrite (dot_map_l_scale b0 (fun j => b0 * nth (j - 0) row 0)
                                 (fun j => nth (j - 0) row 0))
        by (intros; reflexivity).
      rewrite <- Hrow, map_nth_seq. ring.
    + intros j _. unfold column. simpl. rewrite Nat.sub_0_r. ring.
Qed.

(** Where [eigh] diagonalises [A], the value of the boundary equation at
    the point built from [nu] is the secular function at [nu]. *)
Lemma residual_is_secular (E : Externals) (z : vec) (A : sparse) (b : vec)
      (c nu : Q) :
  let lmb := fst (eigh (todense A)) in
  let Qm := snd (eigh (todense A)) in
  Forall (fun row => length row = length lmb) Qm ->
  length b = length Qm ->
  (forall xhat : vec,
      quad_form A (mat_vec Qm xhat) == dot lmb (map (fun x => x * x) xhat)) ->
  quad_value A b c (dual_point z A b nu) == secular z A b c nu.
Proof.
  unfold dual_point, secular. destruct (eigh (todense A)) as [lmb Qm]. simpl.
  intros Hrows Hb Hdiag. unfold quad_value, phi.
  rewrite Hdiag, (dot_mat_vec_transpose _ _ Hrows) by exact Hb.
  unfold mat_vec, transpose. rewrite map_map. reflexivity.
Qed.

(** If the bisection moved both ends and the secular function is
    [L]-Lipschitz between them, it is within [L*tol/2] of zero at the
    midpoint. *)
Lemma secular_midpoint_bound (f : Q -> Q) (L tol s e : Q) :
  0 <= L -> s <= e -> e - s <= tol ->
  0 < f s -> f e < 0 ->
  (forall u v, s <= u -> u <= v -> v <= e ->
               f u - f v <= L * (v - u) /\ f v - f u <= L * (v - u)) ->
  Qabs (f ((s + e) / 2)) <= L * tol / 2.
Proof.
  intros HL Hse Htol Hs He Hlip.
  change ((s + e) / 2) with ((s + e) * (1 # 2)).
  change (L * tol / 2) with (L * tol * (1 # 2)).
  destruct (Hlip s ((s + e) * (1 # 2))) as [H1 _]; try lra.
  destruct (Hlip ((s + e) * (1 # 2)) e) as [H2 _]; try lra.
  assert (Hw : L * (e - s) <= L * tol) by nra.
  apply Qabs_Qle_condition. split; lra.
Qed.

(** In one variable [eigh] diagonalises exactly. *)
Example residual_is_secular_scalar (a b c z nu : Q) :
  quad_value (Scalar.scalar a) [b] c
             (@dual_point Scalar.E0 [z] (Scalar.scalar a) [b] nu) ==
  @secular Scalar.E0 [z] (Scalar.scalar a) [b] c nu.
Proof.
  apply (residual_is_secular Scalar.E0).
  - repeat constructor.
  - reflexivity.
  - intros [|x0 xhat]; unfold quad_form; simpl; unfold entry; simpl; ring.
Qed.

(** The residual of the boundary equation at the point built from [nu]
    is the secular function at [nu] plus the defect of [eigh]. *)
Lemma residual_defect (E : Externals) (z : vec) (A : sparse) (b : vec)
      (c nu : Q) :
  let lmb := fst (eigh (todense A)) in
  let Qm := snd (eigh (todense A)) in
  Forall (fun row => length row = length lmb) Qm ->
  length b = length Qm ->
  quad_value A b c (dual_point z A b nu) ==
  secular z A b c nu + eigh_defect A (dual_coordinates z A b nu).
Proof.
  unfold dual_point, secular, eigh_defect, dual_coordinates.
  destruct (eigh (todense A)) as [lmb Qm]. simpl.
  intros Hrows Hb. unfold quad_value, phi.
  rewrite (dot_mat_vec_transpose _ _ Hrows) by exact Hb.
  unfold mat_vec, transpose. rewrite map_map. ring.
Qed.

(** Equal numbers give equal values of the secular function. *)
Lemma Forall2_Qeq_refl (u : vec) : Forall2 Qeq u u.
Proof. induction u; constructor; [reflexivity | assumption]. Qed.

Lemma map_Qeq {A : Type} (f g : A -> Q) (l : list A) :
  (forall a, f a == g a) -> Forall2 Qeq (map f l) (map g l).
Proof. intros H. induction l; simpl; constructor; auto. Qed.

Lemma map_ext_Qeq (f : Q -> Q) (u u' : vec) :
  (forall a a', a == a' -> f a == f a') ->
  Forall2 Qeq u u' -> Forall2 Qeq (map f u) (map f u').
Proof. intros Hf H. induction H; simpl; constructor; auto. Qed.

Lemma vzip_ext (f : Q -> Q -> Q) :
  (forall a a' b b', a == a' -> b == b' -> f a b == f a' b') ->
  forall u u' : vec,
    Forall2 Qeq u u' ->
    forall v v' : vec,
      Forall2 Qeq v v' -> Forall2 Qeq (vzip f u v) (vzip f u' v').
Proof.
  intros Hf u u' Hu. induction Hu as [|a a' u u' Ha Hu IH]; intros v v' Hv.
  - constructor.
  - destruct Hv as [|b b' v v' Hb Hv]; simpl; constructor; auto.
Qed.

Lemma dot_ext (u u' : vec) :
  Forall2 Qeq u u' ->
  forall v v' : vec, Forall2 Qeq v v' -> dot u v == dot u' v'.
Proof.
  intros Hu. induction Hu as [|a a' u u' Ha Hu IH]; intros v v' Hv.
  - reflexivity.
  - destruct Hv as [|b b' v v' Hb Hv]; simpl; [reflexivity|].
    rewrite Ha, Hb, (IH v v' Hv). reflexivity.
Qed.

Lemma xhat_of_ext (lmb bhat zhat : vec) (nu nu' : Q) :
  nu == nu' ->
  Forall2 Qeq (xhat_of lmb bhat zhat nu) (xhat_of lmb bhat zhat nu').
Proof.
  intros Hnu. unfold xhat_of, vneg, vdiv, vsub, vscale.
  apply map_ext_Qeq; [intros a a' Ha; rewrite Ha; reflexivity|].
  apply vzip_ext; [intros a a' d d' Ha Hd; rewrite Ha, Hd; reflexivity| |].
  - apply vzip_ext;
      [intros a a' d d' Ha Hd; rewrite Ha, Hd; reflexivity| |
       apply Forall2_Qeq_refl].
    apply map_Qeq. intros a. rewrite Hnu. reflexivity.
  - apply map_Qeq. intros l. rewrite Hnu. reflexivity.
Qed.

Lemma phi_ext (lmb bhat zhat : vec) (c nu nu' : Q) :
  nu == nu' -> phi lmb bhat zhat c nu == phi lmb bhat zhat c nu'.
Proof.
  intros Hnu. unfold phi.
  pose proof (xhat_of_ext lmb bhat zhat nu nu' Hnu) as Hx.
  rewrite (dot_ext lmb lmb (Forall2_Qeq_refl lmb)
                   (map (fun x => x * x) (xhat_of lmb bhat zhat nu))
                   (map (fun x => x * x) (xhat_of lmb bhat zhat nu'))).
  - rewrite (dot_ext bhat bhat (Forall2_Qeq_refl bhat) _ _ Hx). reflexivity.
  - apply map_ext_Qeq; [intros a a' Ha; rewrite Ha; reflexivity | exact Hx].
Qed.

Lemma secular_ext (E : Externals) (z : vec) (A : sparse) (b : vec)
      (c nu nu' : Q) :
  nu == nu' -> secular z A b c nu == secular z A b c nu'.
Proof.
  unfold secular. destruct (eigh (todense A)) as [lmb Qm]. apply phi_ext.
Qed.



Lemma double_while_stop (fuel : nat) (cond : Q -> bool) (spins : bool) (s : Q) :
  cond s = false -> double_while fuel cond spins s = Ok s.
Proof. intros H. destruct fuel; cbn [double_while]; rewrite H; reflexivity. Qed.

(** With doubles that are 1 apart, the bisection for [z = 5/2] and
    [x^2 - 1 = 0] reaches the bracket [[1, 2]], whose rounded midpoint is
    its upper end: the call does not return, whatever the number of
    rounds it is given. *)
Example one_qcqp_stalls (fuel : nat) :
  @one_qcqp Scalar.coarse fuel [5 # 2] (Scalar.scalar 1) [0] (-1) true default_tol
    = OutOfFuel.
Proof.
  destruct fuel as [|fuel]; [vm_compute; reflexivity|].
  unfold one_qcqp.
  change (negb true && _)%bool with false. cbv iota.
  change (@eigh Scalar.coarse (todense (Scalar.scalar 1))) with ([1 + 0], [[1]]).
  cbv iota beta zeta.
  set (f := phi _ _ _ _).
  assert (Hc1 : (0 <=? f 1) = true) by (vm_compute; reflexivity).
  assert (Hc2 : (0 <=? f (lowest (1 * 2))) = false) by (vm_compute; reflexivity).
  assert (Hov : overflows (lowest (1 * 2)) = false) by (vm_compute; reflexivity).
  assert (Hinit : initial_bracket (S fuel) f [1 + 0] = Ok (-1, lowest (1 * 2))).
  { unfold initial_bracket.
    change (bracket_scan [1 + 0]) with (Fin (-1), PosInf).
    cbv iota beta zeta. cbn [bind double_while Nat.eqb length].
    rewrite Hc1, Hov. rewrite (double_while_stop fuel (fun e => 0 <=? f e) false (lowest (1 * 2)) Hc2).
    reflexivity. }
  rewrite Hinit. cbn [bind].
  assert (Hb : @bisect Scalar.coarse fuel f default_tol 1 (lowest (1 * 2)) = OutOfFuel).
  { apply bisect_stalls; [vm_compute; reflexivity|].
    right. split; vm_compute; reflexivity. }
  cbn [bisect].
  assert (Htol : (default_tol <? lowest (1 * 2) - -1) = true) by (vm_compute; reflexivity).
  rewrite Htol.
  replace (fl ((-1 + lowest (1 * 2)) / 2)) with 1 by (vm_compute; reflexivity).
  assert (Hpos : (0 <? f 1) = true) by (vm_compute; reflexivity).
  rewrite Hpos, Hb. reflexivity.
Qed.


(** * Further properties *)

(** ** [get_id_map] and [assign_vars]: the layout of the flat vector *)

Lemma total_size_app (xs ys : list variable) :
  total_size (xs ++ ys) = (total_size xs + total_size ys)%nat.
Proof.
  induction xs as [|x xs IH]; simpl; [reflexivity|]. rewrite IH. lia.
Qed.

Lemma get_id_map_from_lookup (xs : list variable) :
  forall (id_map : gmap nat nat) (N : nat),
    NoDup (map var_id xs) ->
    (forall k x, xs !! k = Some x ->
                 fst (get_id_map_from id_map N xs) !! var_id x =
                 Some (N + total_size (take k xs))%nat) /\
    (forall id, id ∉ map var_id xs ->
                fst (get_id_map_from id_map N xs) !! id = id_map !! id).
Proof.
  induction xs as [|x xs IH]; intros id_map N Hnd.
  - split; [intros k x H; rewrite lookup_nil in H; discriminate | reflexivity].
  - simpl in Hnd. apply NoDup_cons in Hnd as [Hx Hnd].
    destruct (IH (<[var_id x := N]> id_map)
                 (N + fst (var_size x) * snd (var_size x))%nat Hnd)
      as [Hin Hout].
    split.
    + intros [|k] y Hy; simpl in *.
      * injection Hy as <-. rewrite Hout by exact Hx.
        rewrite lookup_insert_eq. f_equal. lia.
      * rewrite (Hin k y Hy). f_equal. lia.
    + intros id Hid. simpl in Hid. apply not_elem_of_cons in Hid as [Hne Hid].
      simpl. rewrite Hout by exact Hid.
      apply lookup_insert_ne. congruence.
Qed.

(** X1: when the variables have pairwise distinct ids, [get_id_map] maps
    the id of each variable to the number of scalar entries of the
    variables before it, maps no other id, and returns the total number of
    entries as [N]. *)
Theorem get_id_map_offsets (xs : list variable) :
  NoDup (map var_id xs) ->
  (forall k x, xs !! k = Some x ->
               fst (get_id_map xs) !! var_id x = Some (total_size (take k xs))) /\
  (forall id, id ∉ map var_id xs -> fst (get_id_map xs) !! id = None) /\
  snd (get_id_map xs) = total_size xs.
Proof.
  intros Hnd. unfold get_id_map.
  destruct (get_id_map_from_lookup xs ∅ 0 Hnd) as [Hin Hout].
  split; [exact Hin|]. split.
  - intros id Hid. rewrite Hout by exact Hid. apply lookup_empty.
  - apply get_id_map_size.
Qed.

Lemma get_id_map_offsets_witness :
  fst (get_id_map Scalar.two_variables) !! 5%nat = Some 0%nat /\
  fst (get_id_map Scalar.two_variables) !! 9%nat = Some 6%nat /\
  fst (get_id_map Scalar.two_variables) !! 7%nat = None /\
  snd (get_id_map Scalar.two_variables) = 7%nat.
Proof.
  assert (Hnd : NoDup (map var_id Scalar.two_variables))
    by (apply (bool_decide_unpack _); exact I).
  destruct (get_id_map_offsets Scalar.two_variables Hnd) as (Hin & Hout & HN).
  split; [exact (Hin 0%nat _ eq_refl)|].
  split; [exact (Hin 1%nat _ eq_refl)|].
  split; [apply Hout; apply (bool_decide_unpack _); exact I | exact HN].
Defined.

Lemma reshape_F_Ok (v : vec) (size : nat * nat) (m : matrix) :
  reshape_F v size = Ok m -> length v = (fst size * snd size)%nat.
Proof.
  destruct size as [r c]. unfold reshape_F.
  destruct (Nat.eqb_spec (length v) (r * c)); [auto | discriminate].
Qed.

Lemma assign_vars_from_lookup (v : vec) (xs : list variable) :
  forall (ind : nat) (vars : list variable),
    assign_vars_from ind xs (Some v) = Ok vars ->
    length vars = length xs /\
    forall k x', vars !! k = Some x' ->
      exists x, xs !! k = Some x /\
                var_id x' = var_id x /\ var_size x' = var_size x /\
                flat_value x' =
                  take (entries_of x) (drop (ind + total_size (take k xs)) v) /\
                length (flat_value x') = entries_of x.
Proof.
  induction xs as [|x xs IH]; intros ind vars H.
  - rewrite assign_vars_from_nil in H.
    assert (vars = []) by congruence. subst vars.
    split; [reflexivity|]. intros k x' Hk. rewrite lookup_nil in Hk. discriminate.
  - rewrite assign_vars_from_cons in H. simpl in H.
    replace (ind + fst (var_size x) * snd (var_size x) - ind)%nat
      with (entries_of x) in H by (unfold entries_of; lia).
    inv_bind H. rename a into m, Ha into Hm.
    inv_bind H. rename a into rest, Ha into Hrest.
    assert (vars = mk_variable (var_id x) (var_size x) (Some m) :: rest)
      by congruence.
    subst vars. clear H.
    apply IH in Hrest as [Hlen Hrest].
    split; [simpl; rewrite Hlen; reflexivity|].
    intros [|k] x' Hk; simpl in Hk.
    + assert (x' = mk_variable (var_id x) (var_size x) (Some m)) by congruence.
      subst x'. exists x. split; [reflexivity|].
      unfold flat_value. simpl.
      rewrite (flatten_reshape _ _ _ Hm), Nat.add_0_r.
      repeat split; auto. apply (reshape_F_Ok _ _ _ Hm).
    + destruct (Hrest k x' Hk) as (y & Hy & Hid & Hsz & Hflat & Hl).
      exists y. split; [exact Hy|]. repeat split; auto.
      rewrite Hflat. simpl. do 2 f_equal. unfold entries_of. lia.
Qed.

(** X2: when [assign_vars] returns, it leaves the ids and sizes of the
    variables as they were, and the value it gives a variable, read back
    column by column, is the slice of the flat vector that starts at the
    offset [get_id_map] records for that variable and has as many entries
    as the variable; what the variables held before plays no part. *)
Theorem assign_vars_layout (xs : list variable) (v : vec) (vars : list variable) :
  NoDup (map var_id xs) ->
  assign_vars xs (Some v) = Ok vars ->
  length vars = length xs /\
  forall k x', vars !! k = Some x' ->
    exists x off,
      xs !! k = Some x /\
      var_id x' = var_id x /\ var_size x' = var_size x /\
      fst (get_id_map xs) !! var_id x' = Some off /\
      flat_value x' = take (entries_of x') (drop off v) /\
      length (flat_value x') = entries_of x'.
Proof.
  intros Hnd H. unfold assign_vars in H.
  apply assign_vars_from_lookup in H as [Hlen H].
  split; [exact Hlen|]. intros k x' Hk.
  destruct (H k x' Hk) as (x & Hx & Hid & Hsz & Hflat & Hl).
  destruct (get_id_map_from_lookup xs ∅ 0 Hnd) as [Hin _].
  exists x, (total_size (take k xs)).
  split; [exact Hx|]. split; [exact Hid|]. split; [exact Hsz|].
  assert (He : entries_of x' = entries_of x) by (unfold entries_of; rewrite Hsz; reflexivity).
  split; [rewrite Hid; apply (Hin k x Hx)|].
  rewrite He. split; [exact Hflat | exact Hl].
Qed.

Lemma assign_vars_layout_witness :
  assign_vars Scalar.two_variables (Some Scalar.seven) =
    Ok [mk_variable 5 (2, 3)%nat (Some [[1; 3; 5]; [2; 4; 6]]);
        mk_variable 9 (1, 1)%nat (Some [[7]])] /\
  exists x off,
    Scalar.two_variables !! 1%nat = Some x /\
    fst (get_id_map Scalar.two_variables) !! 9%nat = Some off /\
    [7] = take 1 (drop off Scalar.seven).
Proof.
  assert (H : assign_vars Scalar.two_variables (Some Scalar.seven) =
              Ok [mk_variable 5 (2, 3)%nat (Some [[1; 3; 5]; [2; 4; 6]]);
                  mk_variable 9 (1, 1)%nat (Some [[7]])])
    by reflexivity.
  split; [exact H|].
  assert (Hnd : NoDup (map var_id Scalar.two_variables))
    by (apply (bool_decide_unpack _); exact I).
  destruct (assign_vars_layout _ _ _ Hnd H) as [_ Hk].
  destruct (Hk 1%nat _ eq_refl) as (x & off & H1 & _ & _ & H4 & H5 & _).
  exists x, off. auto.
Defined.

Lemma assign_vars_loop_short (v : vec) (xs : list variable) :
  forall ind : nat,
    (ind <= length v)%nat ->
    (length v < ind + total_size xs)%nat ->
    exists (k : nat) (vars : list variable),
      (k < length xs)%nat /\
      (ind + total_size (take k xs) <= length v)%nat /\
      (length v < ind + total_size (take (S k) xs))%nat /\
      assign_vars_from ind (take k xs) (Some v) = Ok vars /\
      assign_vars_loop ind xs (Some v) = (vars ++ drop k xs, Raise ValueError).
Proof.
  induction xs as [|x xs IH]; intros ind Hind Hlen; simpl in Hlen; [lia|].
  set (size := (fst (var_size x) * snd (var_size x))%nat) in *.
  assert (Hslice : length (take (ind + size - ind) (drop ind v)) =
                   (size `min` (length v - ind))%nat).
  { rewrite length_take, length_drop. f_equal. lia. }
  destruct (le_lt_dec size (length v - ind)) as [Hfit | Hcut].
  - destruct (reshape_F (take (ind + size - ind) (drop ind v)) (var_size x))
      as [m| | |] eqn:Hm.
    2-4: exfalso; unfold reshape_F in Hm; destruct (var_size x) as [r c];
         simpl in size; rewrite Hslice in Hm;
         replace (size `min` (length v - ind))%nat with (r * c)%nat in Hm
           by (subst size; lia);
         rewrite Nat.eqb_refl in Hm; discriminate.
    destruct (IH (ind + size)%nat) as (k & vars & Hk & Hlow & Hup & Hvars & Hloop);
      [lia | lia |].
    exists (S k), (mk_variable (var_id x) (var_size x) (Some m) :: vars).
    split; [simpl; lia|].
    split; [cbn [take total_size foldr]; fold (total_size (take k xs));
            fold size; lia|].
    split; [cbn [take total_size foldr]; fold (total_size (take (S k) xs));
            fold size; lia|].
    split.
    + cbn [take]. rewrite assign_vars_from_cons. cbv zeta. fold size.
      cbn [getslice bind]. rewrite Hm. cbn [bind]. rewrite Hvars. reflexivity.
    + cbn [assign_vars_loop]. cbv zeta. fold size.
      cbn [getslice bind]. rewrite Hm, Hloop. reflexivity.
  - exists 0%nat, []. split; [simpl; lia|].
    split; [simpl; lia|].
    split; [cbn [take total_size foldr]; fold size; lia|].
    split; [reflexivity|].
    cbn [assign_vars_loop]. cbv zeta. fold size. cbn [getslice bind].
    unfold reshape_F. destruct (var_size x) as [r c]. simpl in size.
    rewrite Hslice.
    destruct (Nat.eqb_spec (size `min` (length v - ind)) (r * c)) as [Heq | Hne];
      [subst size; lia | reflexivity].
Qed.

(** X3: when the flat vector has fewer entries than the variables need,
    [assign_vars] ends in the ValueError of [np.reshape], at the first
    variable whose slice comes out short.  The variables before that one
    have received their values by then, each its whole slice of the
    vector; that variable and the ones after it hold what they held. *)
Theorem assign_vars_short (xs : list variable) (v : vec) :
  (length v < total_size xs)%nat ->
  assign_vars xs (Some v) = Raise ValueError /\
  exists (k : nat) (vars : list variable),
    (k < length xs)%nat /\
    (total_size (take k xs) <= length v)%nat /\
    (length v < total_size (take (S k) xs))%nat /\
    assign_vars_state xs (Some v) = vars ++ drop k xs /\
    length vars = k /\
    forall i x', vars !! i = Some x' ->
      exists x, xs !! i = Some x /\
                var_id x' = var_id x /\ var_size x' = var_size x /\
                flat_value x' =
                  take (entries_of x) (drop (total_size (take i xs)) v) /\
                length (flat_value x') = entries_of x.
Proof.
  intros Hlen.
  destruct (assign_vars_loop_short v xs 0)
    as (k & vars & Hk & Hlow & Hup & Hvars & Hloop); [lia | lia |].
  split.
  - unfold assign_vars, assign_vars_from. rewrite Hloop. reflexivity.
  - exists k, vars. split; [exact Hk|]. split; [exact Hlow|]. split; [exact Hup|].
    split; [unfold assign_vars_state; rewrite Hloop; reflexivity|].
    apply assign_vars_from_lookup in Hvars as [Hl Hvars].
    split; [rewrite Hl, length_take; lia|].
    intros i x' Hi.
    destruct (Hvars i x' Hi) as (x & Hx & Hid & Hsz & Hflat & Hfl).
    assert (Hik : (i < k)%nat).
    { apply lookup_lt_Some in Hx. rewrite length_take in Hx. lia. }
    exists x. rewrite lookup_take_lt in Hx by exact Hik.
    rewrite take_take in Hflat.
    replace (i `min` k)%nat with i in Hflat by lia.
    auto.
Qed.

Lemma assign_vars_short_witness :
  (length ([1%Q; 2%Q; 3%Q; 4%Q; 5%Q; 6%Q] : vec) <
   total_size Scalar.two_variables)%nat /\
  assign_vars Scalar.two_variables (Some [1%Q; 2%Q; 3%Q; 4%Q; 5%Q; 6%Q]) =
    Raise ValueError /\
  assign_vars_state Scalar.two_variables (Some [1%Q; 2%Q; 3%Q; 4%Q; 5%Q; 6%Q]) =
    [mk_variable 5 (2, 3)%nat (Some [[1; 3; 5]; [2; 4; 6]]);
     mk_variable 9 (1, 1)%nat None].
Proof.
  assert (H : (length ([1%Q; 2%Q; 3%Q; 4%Q; 5%Q; 6%Q] : vec) <
               total_size Scalar.two_variables)%nat)
    by (vm_compute; lia).
  split; [exact H|].
  split; [exact (proj1 (assign_vars_short _ _ H)) | reflexivity].
Defined.

(** ** The three strategies on a problem that is not quadratic *)

Lemma forallb_false {A : Type} (f : A -> bool) (l : list A) (a : A) :
  a ∈ l -> f a = false -> forallb f l = false.
Proof.
  induction 1 as [a l | a b l Hin IH]; intros Hf; simpl.
  - rewrite Hf. reflexivity.
  - rewrite IH by exact Hf. apply andb_false_r.
Qed.

(** X4: a problem whose objective is not quadratic, or one of whose
    constraints is not, is rejected by [relax_sdp], [noncvx_admm] and
    [qcqp_dccp] alike with the exception of [check_quadraticity], whatever
    the solvers are and whether or not dccp is installed; the objective
    is looked at first. *)
Theorem not_quadratic_rejected (E : Externals) (prob : Problem) (g : rng)
        (num_samples num_iters : nat) (viollim eps : Q) (fuel : nat) :
  is_quadratic (objective_arg prob) = false \/
  (exists constr, constr ∈ constraints prob /\
                  is_quadratic (constr_expr constr) = false) ->
  let e := Exception (if is_quadratic (objective_arg prob)
                      then "Not all constraints are quadratic."
                      else "Objective is not quadratic.") in
  relax_sdp prob = Raise e /\
  noncvx_admm prob g num_samples num_iters viollim eps fuel = Raise e /\
  qcqp_dccp prob = Raise e.
Proof.
  intros H e.
  assert (Hc : check_quadraticity prob = Raise e).
  { unfold check_quadraticity, e.
    destruct (is_quadratic (objective_arg prob)) eqn:Hobj; [|reflexivity].
    destruct H as [H | (constr & Hin & Hq)]; [discriminate|].
    simpl.
    rewrite (forallb_false (fun c => is_quadratic (constr_expr c)) _ _ Hin Hq).
    reflexivity. }
  unfold relax_sdp, noncvx_admm, admm_run, qcqp_dccp. rewrite Hc. auto.
Qed.

Lemma not_quadratic_rejected_witness :
  let e := Exception "Not all constraints are quadratic." in
  @relax_sdp Scalar.E0 Scalar.cubic_problem = Raise e /\
  @noncvx_admm Scalar.E0 Scalar.cubic_problem [] 1 1 Scalar.viollim Scalar.eps 0 = Raise e /\
  @qcqp_dccp Scalar.E0 Scalar.cubic_problem = Raise e.
Proof.
  apply (not_quadratic_rejected Scalar.E0 Scalar.cubic_problem).
  right. exists (mk_constraint (mk_expression false []) "<=").
  split; [apply list_elem_of_here | reflexivity].
Defined.

(** ** [qcqp_dccp] and the relation of a constraint *)

Lemma check_quadraticity_with_OP_NAME (op : string) (prob : Problem) :
  check_quadraticity (with_OP_NAME op prob) = check_quadraticity prob.
Proof.
  unfold check_quadraticity, with_OP_NAME. simpl.
  replace (forallb _ (map _ (constraints prob)))
    with (forallb (fun constr => is_quadratic (constr_expr constr))
                  (constraints prob)); [reflexivity|].
  induction (constraints prob) as [|c l IH]; simpl; [reflexivity|].
  rewrite IH. reflexivity.
Qed.

Lemma constraint_entries_with_OP_NAME (op : string) (prob : Problem) :
  constraint_entries (with_OP_NAME op prob) =
  map (fun t => (t.1, String.eqb op "==")) (constraint_entries prob).
Proof.
  unfold constraint_entries, with_OP_NAME. simpl.
  induction (constraints prob) as [|c l IH]; simpl; [reflexivity|].
  rewrite IH, map_app, map_map. reflexivity.
Qed.

Lemma extract_with_OP_NAME (op : string) (prob : Problem) :
  extract (with_OP_NAME op prob) =
  let* co := extract prob in
  Ok (mk_coefficients (P0 co) (Q0 co) (R0 co) (PP co) (QQ co) (RR co)
                      (map (fun _ => String.eqb op "==") (rel co))).
Proof.
  unfold extract. rewrite constraint_entries_with_OP_NAME.
  change (objective_arg (with_OP_NAME op prob)) with (objective_arg prob).
  change (objective_NAME (with_OP_NAME op prob)) with (objective_NAME prob).
  destruct (getitem (get_coeffs (objective_arg prob)) 0) as [[[P q] r]| | |];
    try reflexivity.
  simpl. destruct (String.eqb (objective_NAME prob) "maximize"); simpl;
    rewrite !map_map; reflexivity.
Qed.

Lemma dccp_constraints_ext (E : Externals) (co co' : coefficients) :
  PP co = PP co' -> QQ co = QQ co' -> RR co = RR co' ->
  forall range, dccp_constraints co range = dccp_constraints co' range.
Proof.
  intros HP HQ HR range. induction range as [|i range IH]; simpl; [reflexivity|].
  rewrite HP, HQ, HR, IH. reflexivity.
Qed.

(** X5: [qcqp_dccp] does not look at the relation of a constraint: it
    fills [rel] and never reads it, and every entry goes to the solver
    as [<=].  Replacing the relation of every constraint by any other
    one gives the same outcome. *)
Theorem qcqp_dccp_ignores_relation (E : Externals) (op : string) (prob : Problem) :
  qcqp_dccp (with_OP_NAME op prob) = qcqp_dccp prob.
Proof.
  unfold qcqp_dccp.
  rewrite check_quadraticity_with_OP_NAME, extract_with_OP_NAME.
  change (variables (with_OP_NAME op prob)) with (variables prob).
  change (objective_NAME (with_OP_NAME op prob)) with (objective_NAME prob).
  destruct (check_quadraticity prob); try reflexivity. simpl.
  destruct (negb dccp_installed); [reflexivity|].
  destruct (get_id_map (variables prob)) as [id_map N].
  destruct (extract prob) as [co| | |]; try reflexivity. simpl.
  set (co' := mk_coefficients _ _ _ _ _ _ _).
  rewrite (dccp_constraints_ext E co' co eq_refl eq_refl eq_refl).
  reflexivity.
Qed.

(** ** [split_quadratic] without an assumption on [eigh] *)

Lemma split_quadratic_forms (E : Externals) (P Pc Pm : sparse) (n : nat) :
  shape P = (n, n) ->
  split_quadratic P = Ok (Pc, Pm) ->
  shape Pc = (n, n) /\ shape Pm = (n, n) /\ PSD Pm /\
  forall x : vec, length x = n -> quad_form Pc x - quad_form Pm x == quad_form P x.
Proof.
  intros Hsh H. unfold split_quadratic in H. rewrite Hsh in H. simpl in H.
  destruct (Nat.eqb_spec (nnz P) 0) as [Hz | Hz].
  - injection H as <- <-. repeat split; try reflexivity.
    + intros x _. rewrite quad_form_csr_matrix. apply Qle_refl.
    + intros x _. rewrite (nnz_zero P Hz), !quad_form_csr_matrix. reflexivity.
  - inv_bind H. rename a into lam.
    destruct (lam <? 0) eqn:Hlam; injection H as <- <-.
    + apply Qltb_lt in Hlam. repeat split; try assumption; try reflexivity.
      * intros x Hx. simpl in Hx. subst n.
        rewrite quad_form_scaled_identity.
        pose proof (dot_nonneg x). nra.
      * intros x Hx. subst n.
        rewrite quad_form_shift by exact Hsh.
        rewrite quad_form_scaled_identity. ring.
    + repeat split; try assumption; try reflexivity.
      * intros x _. rewrite quad_form_csr_matrix. apply Qle_refl.
      * intros x _. rewrite quad_form_csr_matrix. ring.
Qed.

Lemma split_quadratic_cases (E : Externals) (P : sparse) :
  (exists Pc Pm, split_quadratic P = Ok (Pc, Pm)) \/
  split_quadratic P = Raise ValueError.
Proof.
  unfold split_quadratic. destruct (Nat.eqb (nnz P) 0); [eauto|].
  destruct (fst (eigh (todense P))) as [|a l]; simpl; [auto|].
  destruct (_ <? 0); eauto.
Qed.

(** X6: whatever [eigh] answers, [split_quadratic] on a square [P]
    either ends in the ValueError of [np.min] (no eigenvalue came back)
    or returns two matrices of the shape of [P], the second positive
    semidefinite, whose quadratic forms differ by the one of [P]. *)
Theorem split_quadratic_difference (E : Externals) (P : sparse) (n : nat) :
  shape P = (n, n) ->
  split_quadratic P = Raise ValueError \/
  exists Pc Pm : sparse,
    split_quadratic P = Ok (Pc, Pm) /\
    shape Pc = (n, n) /\ shape Pm = (n, n) /\ PSD Pm /\
    forall x : vec, length x = n ->
                    quad_form Pc x - quad_form Pm x == quad_form P x.
Proof.
  intros Hsh.
  destruct (split_quadratic_cases E P) as [(Pc & Pm & H) | H]; [right | left].
  - exists Pc, Pm. split; [exact H|].
    apply (split_quadratic_forms E P Pc Pm n Hsh H).
  - exact H.
Qed.

Lemma split_quadratic_difference_witness :
  shape (Scalar.scalar (-1)) = (1, 1)%nat /\
  (@split_quadratic Scalar.E0 (Scalar.scalar (-1)) = Raise ValueError \/
   exists Pc Pm : sparse,
     @split_quadratic Scalar.E0 (Scalar.scalar (-1)) = Ok (Pc, Pm) /\
     shape Pc = (1, 1)%nat /\ shape Pm = (1, 1)%nat /\ PSD Pm /\
     forall x : vec, length x = 1%nat ->
                     quad_form Pc x - quad_form Pm x ==
                     quad_form (Scalar.scalar (-1)) x).
Proof.
  split; [reflexivity|].
  exact (split_quadratic_difference Scalar.E0 (Scalar.scalar (-1)) 1 eq_refl).
Defined.

(** ** [qcqp_dccp]: the program handed to the solver *)

Lemma dccp_constraints_lookup (E : Externals) (co : coefficients) (N : nat) :
  Forall (fun P => shape P = (N, N)) (PP co) ->
  forall (range : list nat) (cons : list dccp_constraint),
    dccp_constraints co range = Ok cons ->
    length cons = length range /\
    forall k i c,
      range !! k = Some i -> cons !! k = Some c ->
      exists Pi qi ri,
        PP co !! i = Some Pi /\ QQ co !! i = Some qi /\ RR co !! i = Some ri /\
        forall (x : vec) (T : Q),
          length x = N -> (dc_holds c x T <-> quad_value Pi qi ri x <= 0).
Proof.
  intros Hshape. induction range as [|i range IH]; intros cons H; simpl in H.
  - injection H as <-. split; [reflexivity|]. intros k i c Hk. discriminate.
  - inv_bind H. rename a into Pi, Ha into HPi.
    inv_bind H. destruct a as [Pp Pm]. rename Ha into Hsplit.
    inv_bind H. rename a into qi, Ha into Hqi.
    inv_bind H. rename a into ri, Ha into Hri.
    inv_bind H. rename a into rest, Ha into Hrest.
    injection H as <-. apply IH in Hrest as [Hlen Hrest].
    split; [simpl; congruence|].
    intros [|k] j c Hk Hc; simpl in Hk, Hc.
    + injection Hk as <-. injection Hc as <-.
      apply getitem_Ok in HPi, Hqi, Hri.
      exists Pi, qi, ri. repeat split; try assumption.
      * intros Hh. unfold dc_holds in Hh. simpl in Hh.
        assert (HP : shape Pi = (N, N)).
        { rewrite Forall_lookup in Hshape. eapply Hshape. exact HPi. }
        destruct (split_quadratic_forms E Pi Pp Pm N HP Hsplit)
          as (_ & _ & _ & Hd).
        specialize (Hd x H). unfold quad_value. lra.
      * intros Hh. unfold dc_holds. simpl.
        assert (HP : shape Pi = (N, N)).
        { rewrite Forall_lookup in Hshape. eapply Hshape. exact HPi. }
        destruct (split_quadratic_forms E Pi Pp Pm N HP Hsplit)
          as (_ & _ & _ & Hd).
        specialize (Hd x H). unfold quad_value in Hh. lra.
    + eapply Hrest; eassumption.
Qed.

Lemma extract_entries (prob : Problem) (co : coefficients) :
  extract prob = Ok co ->
  PP co = map (fun t => t.1.1.1) (constraint_entries prob) /\
  QQ co = map (fun t => t.1.1.2) (constraint_entries prob) /\
  RR co = map (fun t => t.1.2) (constraint_entries prob) /\
  rel co = map (fun t => t.2) (constraint_entries prob).
Proof.
  unfold extract. intros H. inv_bind H. destruct a as [[P q] r].
  destruct (String.eqb (objective_NAME prob) "maximize");
    injection H as <-; simpl; auto.
Qed.

Lemma extract_minimize (prob : Problem) (co : coefficients)
      (P : sparse) (q : vec) (r : Q) :
  objective_NAME prob <> "maximize"%string ->
  getitem (get_coeffs (objective_arg prob)) 0 = Ok (P, q, r) ->
  extract prob = Ok co ->
  P0 co = P /\ Q0 co = q /\ R0 co = r.
Proof.
  intros Hmin Hget H. unfold extract in H. rewrite Hget in H. simpl in H.
  apply String.eqb_neq in Hmin. rewrite Hmin in H.
  injection H as <-. auto.
Qed.


Lemma dccp_constraints_entries (E : Externals) (co : coefficients)
      (entries : list (sparse * vec * Q * bool)) (N : nat)
      (rest : list dccp_constraint) :
  PP co = map (fun t => t.1.1.1) entries ->
  QQ co = map (fun t => t.1.1.2) entries ->
  RR co = map (fun t => t.1.2) entries ->
  Forall (fun t => term_shaped N t.1) entries ->
  dccp_constraints co (seq 0 (M co)) = Ok rest ->
  forall (x : vec) (T : Q),
    length x = N ->
    (Forall (fun c => dc_holds c x T) rest <->
     Forall (fun t => quad_value t.1.1.1 t.1.1.2 t.1.2 x <= 0) entries).
Proof.
  intros HPP HQQ HRR Hshaped H x T Hx.
  assert (Hshape : Forall (fun P => shape P = (N, N)) (PP co)).
  { rewrite HPP. apply Forall_fmap. eapply Forall_impl; [exact Hshaped|].
    intros t [Ht _]. exact Ht. }
  destruct (dccp_constraints_lookup E co N Hshape _ _ H) as [Hlen Hc].
  rewrite length_seq in Hlen.
  assert (HM : M co = length entries) by (unfold M; rewrite HPP; apply length_map).
  assert (Hseq : forall i, (i < M co)%nat -> seq 0 (M co) !! i = Some i).
  { intros i Hi. apply lookup_seq. split; [reflexivity | exact Hi]. }
  assert (Hboth : forall i c t,
             rest !! i = Some c -> entries !! i = Some t ->
             (dc_holds c x T <-> quad_value t.1.1.1 t.1.1.2 t.1.2 x <= 0)).
  { intros i c t Hi Ht.
    destruct (Hc i i c) as (Pi & qi & ri & HPi & Hqi & Hri & Heq);
      [apply Hseq; apply lookup_lt_Some in Hi; lia | exact Hi |].
    rewrite HPP, list_lookup_fmap, Ht in HPi.
    rewrite HQQ, list_lookup_fmap, Ht in Hqi.
    rewrite HRR, list_lookup_fmap, Ht in Hri.
    simpl in HPi, Hqi, Hri.
    injection HPi as <-. injection Hqi as <-. injection Hri as <-.
    apply Heq. exact Hx. }
  split; intros Hall; apply Forall_lookup.
  - intros i t Ht.
    destruct (lookup_lt_is_Some_2 rest i) as [c Hi].
    { apply lookup_lt_Some in Ht. lia. }
    apply (Hboth i c t Hi Ht). rewrite Forall_lookup in Hall. eapply Hall, Hi.
  - intros i c Hi.
    destruct (lookup_lt_is_Some_2 entries i) as [t Ht].
    { apply lookup_lt_Some in Hi. lia. }
    apply (Hboth i c t Hi Ht). rewrite Forall_lookup in Hall.
    apply (Hall i t Ht).
Qed.

(** X7: when [qcqp_dccp] returns, the number [N = total_size] of
    unknowns is not 1, and it has called the solver on [N] unknowns with
    constraints that say, at every [x] and [T]: the objective (negated
    for ["maximize"]) is at most [T], and every entry of every
    constraint is at most zero; it returns the solver's result (negated
    back for ["maximize"]) and assigns the solver's point. *)
Theorem qcqp_dccp_program (E : Externals) (prob : Problem)
        (P : sparse) (q : vec) (r : Q) (vars : list variable) (f : xfloat) :
  let N := total_size (variables prob) in
  getitem (get_coeffs (objective_arg prob)) 0 = Ok (P, q, r) ->
  term_shaped N (P, q, r) ->
  Forall (fun t => term_shaped N t.1) (constraint_entries prob) ->
  qcqp_dccp prob = Ok (vars, f) ->
  exists (cons : list dccp_constraint) (result : xfloat) (X_value : option vec),
    N <> 1%nat /\
    dccp_solve N cons = (result, X_value) /\
    f = (if String.eqb (objective_NAME prob) "maximize"
         then xneg result else result) /\
    assign_vars (variables prob) X_value = Ok vars /\
    forall (x : vec) (T : Q),
      length x = N ->
      (Forall (fun c => dc_holds c x T) cons <->
       (if String.eqb (objective_NAME prob) "maximize"
        then - quad_value P q r x else quad_value P q r x) <= T /\
       Forall (fun t => quad_value t.1.1.1 t.1.1.2 t.1.2 x <= 0)
              (constraint_entries prob)).
Proof.
  intros N Hget [HP Hq] Hshaped H. simpl in HP, Hq. unfold qcqp_dccp in H.
  inv_bind H. destruct (negb dccp_installed); [discriminate|].
  pose proof (get_id_map_size (variables prob)) as HN.
  destruct (get_id_map (variables prob)) as [id_map N']. simpl in HN. subst N'.
  fold N in H.
  inv_bind H. rename a0 into co, Ha0 into Hco.
  inv_bind H. destruct a0 as [P0p P0m]. rename Ha0 into Hsplit.
  inv_bind H. rename a0 into rest, Ha0 into Hrest.
  destruct (dccp_solve N _) as [result X_value] eqn:Hsolve.
  inv_bind H. injection H as <- <-.
  apply dccp_assign_Ok in Ha0 as [HN1 Ha0].
  exists (mk_dccp_constraint P0p (Q0 co) (R0 co) P0m true :: rest), result, X_value.
  split; [exact HN1|].
  split; [exact Hsolve|]. split; [reflexivity|]. split; [exact Ha0|].
  intros x T Hx.
  pose proof (extract_entries prob co Hco) as (HPP & HQQ & HRR & _).
  rewrite Forall_cons.
  rewrite (dccp_constraints_entries E co _ N rest HPP HQQ HRR Hshaped Hrest x T Hx).
  apply and_iff_compat_r.
  unfold dc_holds. simpl.
  assert (Hobj : shape (P0 co) = (N, N) /\
                 quad_value (P0 co) (Q0 co) (R0 co) x ==
                 if String.eqb (objective_NAME prob) "maximize"
                 then - quad_value P q r x else quad_value P q r x).
  { destruct (String.eqb (objective_NAME prob) "maximize") eqn:Hsense.
    - apply String.eqb_eq in Hsense.
      destruct (extract_maximize prob co P q r Hsense Hget Hco) as (-> & -> & ->).
      split; [exact HP | apply quad_value_neg].
    - apply String.eqb_neq in Hsense.
      destruct (extract_minimize prob co P q r Hsense Hget Hco) as (-> & -> & ->).
      split; [exact HP | reflexivity]. }
  destruct Hobj as [Hshape Hobj].
  destruct (split_quadratic_forms E (P0 co) P0p P0m N Hshape Hsplit)
    as (_ & _ & _ & Hd).
  specialize (Hd x Hx). rewrite <- Hobj. unfold quad_value. split; intros; lra.
Qed.

Lemma qcqp_dccp_program_witness :
  @qcqp_dccp Plane.externals Plane.problem =
    Ok ([mk_variable 0 (2, 1)%nat (Some [[0]; [0]])], Fin 0) /\
  exists (cons : list dccp_constraint) (result : xfloat) (X_value : option vec),
    total_size (variables Plane.problem) <> 1%nat /\
    @dccp_solve Plane.externals (total_size (variables Plane.problem)) cons
      = (result, X_value) /\
    Fin 0 = (if String.eqb (objective_NAME Plane.problem) "maximize"
             then xneg result else result) /\
    assign_vars (variables Plane.problem) X_value =
      Ok [mk_variable 0 (2, 1)%nat (Some [[0]; [0]])] /\
    forall (x : vec) (T : Q),
      length x = total_size (variables Plane.problem) ->
      (Forall (fun c => dc_holds c x T) cons <->
       (if String.eqb (objective_NAME Plane.problem) "maximize"
        then - quad_value Plane.A [0; 0] 0 x
        else quad_value Plane.A [0; 0] 0 x) <= T /\
       Forall (fun t => quad_value t.1.1.1 t.1.1.2 t.1.2 x <= 0)
              (constraint_entries Plane.problem)).
Proof.
  assert (H : @qcqp_dccp Plane.externals Plane.problem =
              Ok ([mk_variable 0 (2, 1)%nat (Some [[0]; [0]])], Fin 0))
    by (vm_compute; reflexivity).
  split; [exact H|].
  apply (qcqp_dccp_program Plane.externals Plane.problem Plane.A [0; 0] 0).
  - reflexivity.
  - split; reflexivity.
  - repeat constructor.
  - exact H.
Defined.

(** ** [qcqp_dccp]: a solver that leaves no point *)

Lemma getitem_cases {A : Type} (l : list A) (i : nat) :
  (exists a, getitem l i = Ok a) \/ getitem l i = Raise IndexError.
Proof. unfold getitem. destruct (l !! i); eauto. Qed.

Lemma dccp_constraints_cases (E : Externals) (co : coefficients) (range : list nat) :
  (exists cons, dccp_constraints co range = Ok cons) \/
  (exists e, dccp_constraints co range = Raise e).
Proof.
  induction range as [|i range IH]; simpl; [eauto|].
  destruct (getitem_cases (PP co) i) as [[Pi ->] | ->]; simpl; [|eauto].
  destruct (split_quadratic_cases E Pi) as [(Pc & Pm & ->) | ->]; simpl; [|eauto].
  destruct (getitem_cases (QQ co) i) as [[qi ->] | ->]; simpl; [|eauto].
  destruct (getitem_cases (RR co) i) as [[ri ->] | ->]; simpl; [|eauto].
  destruct IH as [[cons ->] | [e ->]]; simpl; eauto.
Qed.

(** X8: with a solver that leaves no point ([X.value] is [None]),
    [qcqp_dccp] ends in an exception on every problem that has a
    variable. *)
Theorem qcqp_dccp_no_point (E : Externals) (prob : Problem) :
  (forall n cons, snd (dccp_solve n cons) = None) ->
  variables prob <> [] ->
  exists e, qcqp_dccp prob = Raise e.
Proof.
  intros Hnone Hvars. unfold qcqp_dccp.
  unfold check_quadraticity.
  destruct (negb (is_quadratic _)); simpl; [eauto|].
  destruct (negb (forallb _ _)); simpl; [eauto|].
  destruct (negb dccp_installed); [eauto|].
  destruct (get_id_map (variables prob)) as [id_map N].
  assert (Hex : (exists co, extract prob = Ok co) \/ exists e, extract prob = Raise e).
  { unfold extract.
    destruct (getitem_cases (get_coeffs (objective_arg prob)) 0)
      as [[[[P q] r] ->] | ->]; simpl; [|eauto].
    destruct (String.eqb _ _); eauto. }
  destruct Hex as [[co ->] | [e ->]]; simpl; [|eauto].
  destruct (split_quadratic_cases E (P0 co)) as [(Pc & Pm & ->) | ->]; simpl; [|eauto].
  destruct (dccp_constraints_cases E co (seq 0 (M co))) as [[cons ->] | [e ->]];
    simpl; [|eauto].
  specialize (Hnone N (mk_dccp_constraint Pc (Q0 co) (R0 co) Pm true :: cons)).
  destruct (dccp_solve N _) as [result X_value]. simpl in Hnone. subst X_value.
  destruct (variables prob); [congruence|]. simpl. eauto.
Qed.

Lemma qcqp_dccp_no_point_witness :
  exists e, @qcqp_dccp Scalar.E0 Scalar.min_problem = Raise e.
Proof.
  apply (qcqp_dccp_no_point Scalar.E0 Scalar.min_problem).
  - intros n cons. reflexivity.
  - discriminate.
Defined.

(** ** [qcqp_dccp]: a problem with one scalar unknown *)

(** X15: on a problem whose variables have one scalar entry in all,
    [qcqp_dccp] ends in an exception.  Where nothing has failed before,
    [X.value] is a numpy scalar, which [assign_vars] cannot slice
    (IndexError), or it is [None] (TypeError). *)
Theorem qcqp_dccp_one_unknown (E : Externals) (prob : Problem) :
  total_size (variables prob) = 1%nat ->
  exists e, qcqp_dccp prob = Raise e.
Proof.
  intros Hone. unfold qcqp_dccp.
  unfold check_quadraticity.
  destruct (negb (is_quadratic _)); simpl; [eauto|].
  destruct (negb (forallb _ _)); simpl; [eauto|].
  destruct (negb dccp_installed); [eauto|].
  pose proof (get_id_map_size (variables prob)) as HN.
  destruct (get_id_map (variables prob)) as [id_map N]. simpl in HN.
  rewrite Hone in HN. subst N.
  assert (Hex : (exists co, extract prob = Ok co) \/ exists e, extract prob = Raise e).
  { unfold extract.
    destruct (getitem_cases (get_coeffs (objective_arg prob)) 0)
      as [[[[P q] r] ->] | ->]; simpl; [|eauto].
    destruct (String.eqb _ _); eauto. }
  destruct Hex as [[co ->] | [e ->]]; simpl; [|eauto].
  destruct (split_quadratic_cases E (P0 co)) as [(Pc & Pm & ->) | ->]; simpl; [|eauto].
  destruct (dccp_constraints_cases E co (seq 0 (M co))) as [[cons ->] | [e ->]];
    simpl; [|eauto].
  destruct (dccp_solve 1 _) as [result X_value].
  destruct (variables prob) as [|x xs]; [discriminate Hone|].
  destruct X_value as [v|]; simpl; eauto.
Qed.

Lemma qcqp_dccp_one_unknown_witness :
  total_size (variables Scalar.min_problem) = 1%nat /\
  @qcqp_dccp Scalar.E2 Scalar.min_problem = Raise IndexError /\
  exists e, @qcqp_dccp Scalar.E2 Scalar.min_problem = Raise e.
Proof.
  split; [reflexivity|]. split; [vm_compute; reflexivity|].
  exact (qcqp_dccp_one_unknown Scalar.E2 Scalar.min_problem eq_refl).
Defined.

(** ** [noncvx_admm]: the violation of the constraints *)

Lemma violation_nonneg (t : sparse * vec * Q * bool) (x : vec) : 0 <= violation t x.
Proof.
  destruct t as [[[P q] r] [|]]; unfold violation.
  - apply Qabs_nonneg.
  - apply Q.le_max_l.
Qed.

Lemma violation_zero (t : sparse * vec * Q * bool) (x : vec) :
  violation t x == 0 <-> entry_holds t x.
Proof.
  destruct t as [[[P q] r] [|]]; unfold violation, entry_holds.
  - generalize (quad_value P q r x). intros v.
    apply Qabs_case; intros; split; intros; lra.
  - generalize (quad_value P q r x). intros v.
    destruct (Q.max_spec 0 v) as [[H1 H2] | [H1 H2]]; split; intros; lra.
Qed.

Section ViolationFacts.

Variables (co : coefficients) (entries : list (sparse * vec * Q * bool)).
Hypothesis HPP : PP co = map (fun t => t.1.1.1) entries.
Hypothesis HQQ : QQ co = map (fun t => t.1.1.2) entries.
Hypothesis HRR : RR co = map (fun t => t.1.2) entries.
Hypothesis Hrel : rel co = map (fun t => t.2) entries.

Lemma max_violation_entries (za : vec) :
  forall (range : list nat) (acc : Q),
    (forall i, i ∈ range -> (i < length entries)%nat) ->
    exists mv,
      max_violation co za range acc = Ok mv /\
      acc <= mv /\
      (forall i t, i ∈ range -> entries !! i = Some t -> violation t za <= mv) /\
      (mv == acc \/
       exists i t, i ∈ range /\ entries !! i = Some t /\ mv == violation t za).
Proof.
  induction range as [|i range IH]; intros acc Hrange.
  - exists acc. simpl. split; [reflexivity|]. split; [apply Qle_refl|].
    split; [|left; reflexivity].
    intros i t Hi. inversion Hi.
  - destruct (lookup_lt_is_Some_2 entries i) as [t Ht].
    { apply Hrange. left. }
    destruct (IH (Qmax acc (violation t za))) as (mv & Hmv & Hacc & Hall & Hatt).
    { intros j Hj. apply Hrange. right. exact Hj. }
    exists mv. split.
    { simpl. unfold getitem. rewrite HPP, HQQ, HRR, Hrel.
      rewrite !list_lookup_fmap, Ht. simpl.
      destruct t as [[[P q] r] b]. exact Hmv. }
    pose proof (Q.le_max_l acc (violation t za)) as Hl.
    pose proof (Q.le_max_r acc (violation t za)) as Hr.
    split; [lra|]. split.
    + intros j t' Hj Ht'. apply elem_of_cons in Hj as [-> | Hj].
      * assert (t' = t) by congruence. subst t'. lra.
      * eapply Hall; eassumption.
    + destruct Hatt as [Hatt | (j & t' & Hj & Ht' & Hatt)].
      * destruct (Q.max_spec acc (violation t za)) as [[_ Hm] | [_ Hm]].
        -- right. exists i, t. split; [left|]. split; [exact Ht|]. lra.
        -- left. lra.
      * right. exists j, t'. split; [right; exact Hj|]. auto.
Qed.

Lemma max_violation_total (za : vec) :
  exists mv,
    max_violation co za (seq 0 (M co)) 0 = Ok mv /\
    0 <= mv /\
    (forall eps, mv < eps -> Forall (fun t => violation t za < eps) entries) /\
    (forall eps, 0 < eps -> Forall (fun t => violation t za < eps) entries ->
                 mv < eps) /\
    (mv == 0 <-> Forall (fun t => entry_holds t za) entries).
Proof.
  assert (HM : M co = length entries).
  { unfold M. rewrite HPP. apply length_map. }
  destruct (max_violation_entries za (seq 0 (M co)) 0)
    as (mv & Hmv & Hacc & Hall & Hatt).
  { intros i Hi. apply elem_of_seq in Hi. lia. }
  assert (Hin : forall i t, entries !! i = Some t -> i ∈ seq 0 (M co)).
  { intros i t Ht. apply elem_of_seq. apply lookup_lt_Some in Ht. lia. }
  exists mv. split; [exact Hmv|]. split; [exact Hacc|].
  split; [|split; [|split]].
  - intros eps Heps. apply Forall_lookup. intros i t Ht.
    specialize (Hall i t (Hin i t Ht) Ht). lra.
  - intros eps Heps Hf. destruct Hatt as [Hatt | (i & t & _ & Ht & Hatt)].
    + lra.
    + rewrite Forall_lookup in Hf. specialize (Hf i t Ht). simpl in Hf. lra.
  - intros Hz. apply Forall_lookup. intros i t Ht.
    apply violation_zero.
    specialize (Hall i t (Hin i t Ht) Ht).
    pose proof (violation_nonneg t za). lra.
  - intros Hf. destruct Hatt as [Hatt | (i & t & _ & Ht & Hatt)]; [exact Hatt|].
    rewrite Forall_lookup in Hf. specialize (Hf i t Ht). simpl in Hf.
    apply violation_zero in Hf. lra.
Qed.

End ViolationFacts.

(** X9: on the coefficients of a problem the violation loop of
    [noncvx_admm] raises nothing; [maxviol] is not negative, it is zero
    exactly at the points that satisfy every constraint, and it is below
    a positive [eps] exactly at the points that satisfy every constraint
    within [eps]. *)
Theorem max_violation_sound (prob : Problem) (co : coefficients) (za : vec) :
  extract prob = Ok co ->
  exists mv,
    max_violation co za (seq 0 (M co)) 0 = Ok mv /\
    0 <= mv /\
    (mv == 0 <-> satisfies prob za) /\
    forall eps, 0 < eps -> (mv < eps <-> satisfies_within eps prob za).
Proof.
  intros H. apply extract_entries in H as (HPP & HQQ & HRR & Hrel).
  destruct (max_violation_total co _ HPP HQQ HRR Hrel za)
    as (mv & Hmv & Hpos & Hlt & Hlt' & Hz).
  exists mv. split; [exact Hmv|]. split; [exact Hpos|]. split; [exact Hz|].
  intros eps Heps. split; [apply Hlt | apply Hlt'; exact Heps].
Qed.

Lemma max_violation_sound_witness :
  extract Scalar.eq_problem = Ok Scalar.eq_coefficients /\
  exists mv,
    max_violation Scalar.eq_coefficients [1] (seq 0 (M Scalar.eq_coefficients)) 0
      = Ok mv /\
    0 <= mv /\
    (mv == 0 <-> satisfies Scalar.eq_problem [1]) /\
    forall eps, 0 < eps -> (mv < eps <-> satisfies_within eps Scalar.eq_problem [1]).
Proof.
  split; [reflexivity|].
  exact (max_violation_sound Scalar.eq_problem Scalar.eq_coefficients [1] eq_refl).
Defined.

(** ** [noncvx_admm]: the point that is assigned *)

Section FeasibleFacts.

Context {E : Externals}.
Variables (co : coefficients) (N num_iters : nat) (viollim eps : Q) (fuel : nat).

Lemma admm_iterations_feasible (t : nat) (zlhs : sparse) :
  forall (st : admm_state) (z : vec) (xs ys : list vec) (st' : admm_state),
    best_feasible co eps st ->
    admm_iterations co N viollim eps fuel t zlhs st z xs ys = Ok st' ->
    best_feasible co eps st'.
Proof.
  induction t as [|t IH]; intros st z xs ys st' Hf H; simpl in H.
  - injection H as <-. exact Hf.
  - inv_bind H.
    apply admm_iteration_inv in Ha as (z1 & xs1 & ys1 & maxviol & _ & Hviol & ->).
    destruct (viollim <? maxviol).
    + injection H as <-. exact Hf.
    + apply IH in H; [exact H|].
      destruct (update_best_cases eps maxviol
                  (quad_value (P0 co) (Q0 co) (R0 co) (average co N xs1 z1))
                  (average co N xs1 z1) st) as [-> | (Hlt & _ & Hx & _)];
        [exact Hf|].
      unfold best_feasible. rewrite Hx. eauto.
Qed.

Lemma admm_trials_feasible (n : nat) :
  forall st st' : admm_state,
    best_feasible co eps st ->
    admm_trials co N num_iters viollim eps fuel n st = Ok st' ->
    best_feasible co eps st'.
Proof.
  induction n as [|n IH]; intros st st' Hf H; simpl in H.
  - injection H as <-. exact Hf.
  - inv_bind H. apply IH in H; [exact H|].
    unfold admm_trial in Ha.
    destruct (randn (gen st) N 1) as [zm g].
    destruct (randn g N (M co)) as [xm g'].
    apply admm_iterations_feasible in Ha; [exact Ha | exact Hf].
Qed.

End FeasibleFacts.

(** X10: the point that [noncvx_admm] assigns satisfies every
    constraint within [eps], and on a problem that is not a maximisation
    the returned value is the objective at that point. *)
Theorem noncvx_admm_point_feasible (E : Externals) (prob : Problem) (g : rng)
        (num_samples num_iters : nat) (viollim eps : Q) (fuel : nat)
        (vars : list variable) (f : xfloat) :
  variables prob <> [] ->
  noncvx_admm prob g num_samples num_iters viollim eps fuel = Ok (vars, f) ->
  exists x : vec,
    assign_vars (variables prob) (Some x) = Ok vars /\
    satisfies_within eps prob x /\
    forall P q r,
      objective_NAME prob <> "maximize"%string ->
      getitem (get_coeffs (objective_arg prob)) 0 = Ok (P, q, r) ->
      f = Fin (quad_value P q r x).
Proof.
  intros Hvars H. unfold noncvx_admm in H.
  inv_bind H. rename a into st, Ha into Hrun.
  inv_bind H. injection H as <- <-.
  apply admm_run_inv in Hrun as (co & lmb_min & rho0 & _ & Hco & _ & _ & Hrun).
  assert (Hf : best_feasible co eps st).
  { eapply admm_trials_feasible; [|exact Hrun]. exact I. }
  apply admm_trials_step in Hrun as [[_ Hc] _].
  specialize (Hc eq_refl).
  unfold best_feasible in Hf. unfold best_consistent in Hc.
  destruct (bestx st) as [x|].
  - exists x. split; [exact Ha|]. split.
    + destruct Hf as (mv & Hmv & Hlt).
      pose proof (extract_entries prob co Hco) as (HPP & HQQ & HRR & Hrel).
      destruct (max_violation_total co _ HPP HQQ HRR Hrel x)
        as (mv' & Hmv' & _ & Hall & _).
      apply Hall. congruence.
    + intros P q r Hmin Hget.
      destruct (extract_minimize prob co P q r Hmin Hget Hco) as (<- & <- & <-).
      exact Hc.
  - destruct (variables prob); [congruence | discriminate].
Qed.

Lemma noncvx_admm_point_feasible_witness :
  variables Scalar.min_problem <> [] /\
  exists vars f,
    @noncvx_admm Scalar.E0 Scalar.min_problem [1; 1] 1 1 Scalar.viollim Scalar.eps 0
      = Ok (vars, f) /\
    exists x : vec,
      assign_vars (variables Scalar.min_problem) (Some x) = Ok vars /\
      satisfies_within Scalar.eps Scalar.min_problem x /\
      forall P q r,
        objective_NAME Scalar.min_problem <> "maximize"%string ->
        getitem (get_coeffs (objective_arg Scalar.min_problem)) 0 = Ok (P, q, r) ->
        f = Fin (quad_value P q r x).
Proof.
  assert (Hv : variables Scalar.min_problem <> []) by discriminate.
  split; [exact Hv|].
  eexists _, _. split; [vm_compute; reflexivity|].
  exact (noncvx_admm_point_feasible Scalar.E0 Scalar.min_problem [1; 1] 1 1
           Scalar.viollim Scalar.eps 0 _ _ Hv eq_refl).
Defined.

(** ** [noncvx_admm]: runs that try nothing *)

Lemma admm_trials_no_pass (E : Externals) (co : coefficients) (N : nat)
      (viollim eps : Q) (fuel : nat) (n : nat) :
  forall st st' : admm_state,
    admm_trials co N 0 viollim eps fuel n st = Ok st' ->
    bestx st' = bestx st /\ bestf st' = bestf st /\ rho st' = rho st.
Proof.
  induction n as [|n IH]; intros st st' H; simpl in H.
  - injection H as <-. auto.
  - inv_bind H. unfold admm_trial in Ha.
    destruct (randn (gen st) N 1) as [zm g].
    destruct (randn g N (M co)) as [xm g'].
    simpl in Ha. injection Ha as <-.
    apply IH in H. exact H.
Qed.

(** X11: with [num_samples = 0] or [num_iters = 0] no candidate is
    looked at: Best-found is still empty after the loops, and on a
    problem with a variable [noncvx_admm] ends in TypeError. *)
Theorem noncvx_admm_no_pass (E : Externals) (prob : Problem) (g : rng)
        (num_samples num_iters : nat) (viollim eps : Q) (fuel : nat)
        (st : admm_state) :
  num_samples = 0%nat \/ num_iters = 0%nat ->
  admm_run prob g num_samples num_iters viollim eps fuel = Ok st ->
  bestx st = None /\ bestf st = PosInf /\
  (variables prob <> [] ->
   noncvx_admm prob g num_samples num_iters viollim eps fuel = Raise TypeError).
Proof.
  intros Hzero Hrun.
  assert (Hx : bestx st = None /\ bestf st = PosInf).
  { apply admm_run_inv in Hrun as (co & lmb_min & rho0 & _ & _ & _ & _ & H).
    destruct Hzero as [-> | ->].
    - simpl in H. injection H as <-. auto.
    - apply admm_trials_no_pass in H as (Hx & Hf & _). auto. }
  destruct Hx as [Hx Hf]. split; [exact Hx|]. split; [exact Hf|].
  intros Hvars. unfold noncvx_admm. rewrite Hrun. simpl. rewrite Hx.
  destruct (variables prob); [congruence | reflexivity].
Qed.

Lemma noncvx_admm_no_pass_witness :
  (5%nat = 0%nat \/ 0%nat = 0%nat) /\
  bestx (@mk_admm_state Scalar.E0 5 None PosInf []) = None /\
  bestf (@mk_admm_state Scalar.E0 5 None PosInf []) = PosInf /\
  (variables Scalar.min_problem <> [] ->
   @noncvx_admm Scalar.E0 Scalar.min_problem [] 5 0 Scalar.viollim Scalar.eps 0
     = Raise TypeError).
Proof.
  assert (H : (5%nat = 0%nat \/ 0%nat = 0%nat)) by (right; reflexivity).
  split; [exact H|].
  apply (noncvx_admm_no_pass Scalar.E0 Scalar.min_problem [] 5 0 Scalar.viollim
           Scalar.eps 0 _ H).
  vm_compute. reflexivity.
Defined.

(** X12: on a problem without constraint entries ([M = 0]) whose
    [lmb_min] is not negative, [noncvx_admm] ends in ZeroDivisionError
    at [rho = 1./M]. *)
Theorem noncvx_admm_unconstrained (E : Externals) (prob : Problem) (g : rng)
        (num_samples num_iters : nat) (viollim eps : Q) (fuel : nat)
        (co : coefficients) (lmb_min : Q) :
  check_quadraticity prob = Ok tt ->
  constraint_entries prob = [] ->
  extract prob = Ok co ->
  np_min (fst (eigh (todense (P0 co)))) = Ok lmb_min ->
  0 <= lmb_min ->
  noncvx_admm prob g num_samples num_iters viollim eps fuel = Raise ZeroDivisionError.
Proof.
  intros Hc Hnil Hco Hmin Hpos.
  unfold noncvx_admm, admm_run. rewrite Hc. simpl.
  destruct (get_id_map (variables prob)) as [id_map N].
  rewrite Hco. simpl.
  destruct (eigh (todense (P0 co))) as [lmb0 P0Q]. simpl in Hmin.
  rewrite Hmin. simpl.
  apply extract_entries in Hco as (HPP & _).
  unfold M. rewrite HPP, Hnil. simpl.
  unfold initial_rho. apply Qltb_ge in Hpos. rewrite Hpos. reflexivity.
Qed.

Lemma noncvx_admm_unconstrained_witness :
  @noncvx_admm Scalar.E0 Scalar.free_problem [1; 1] 1 1 Scalar.viollim Scalar.eps 0
    = Raise ZeroDivisionError.
Proof.
  apply (noncvx_admm_unconstrained Scalar.E0 Scalar.free_problem [1; 1] 1 1
           Scalar.viollim Scalar.eps 0
           (mk_coefficients (Scalar.scalar 1) [0] 0 [] [] [] []) 1);
    try reflexivity.
  vm_compute. discriminate.
Defined.

(** ** [noncvx_admm]: the penalty is positive *)

Lemma Qnat_pos (m : nat) : m <> 0%nat -> 0 < Qnat m.
Proof.
  intros Hm. unfold Qnat. change 0 with (inject_Z 0).
  rewrite <- Zlt_Qlt. lia.
Qed.

Lemma initial_rho_pos (lmb_min : Q) (m : nat) (rho0 : Q) :
  initial_rho lmb_min m = Ok rho0 -> 0 < rho0.
Proof.
  intros H. apply initial_rho_Ok in H as (Hm & Hneg & Hpos).
  apply Qnat_pos in Hm.
  assert (Hinv : 0 < / Qnat m) by (apply Qinv_lt_0_compat; exact Hm).
  destruct (Qlt_le_dec lmb_min 0) as [Hl | Hl].
  - rewrite (Hneg Hl). unfold Qdiv. nra.
  - rewrite (Hpos Hl). unfold Qdiv. nra.
Qed.

(** X13: on a problem with at least one constraint entry ([M > 0]) the
    penalty that [noncvx_admm] starts from is a positive number, whatever
    [eigh] reports, and the penalty is still positive when the loops have
    ended.  This holds for every number of trials, hence for the penalty
    that each trial starts from: the [1/rho] of the inner loop divides
    by no zero. *)
Theorem penalty_positive (E : Externals) (prob : Problem) (co : coefficients) :
  constraint_entries prob <> [] ->
  extract prob = Ok co ->
  (forall lmb_min : Q,
      exists rho0 : Q, initial_rho lmb_min (M co) = Ok rho0 /\ 0 < rho0) /\
  (forall (g : rng) (num_samples num_iters : nat) (viollim eps : Q) (fuel : nat)
          (st : admm_state),
      admm_run prob g num_samples num_iters viollim eps fuel = Ok st ->
      0 < rho st).
Proof.
  intros Hne Hco. split.
  - intros lmb_min.
    assert (HM : M co <> 0%nat).
    { apply extract_entries in Hco as (HPP & _). unfold M. rewrite HPP.
      rewrite length_map. destruct (constraint_entries prob); [congruence|].
      discriminate. }
    assert (Hex : exists rho0, initial_rho lmb_min (M co) = Ok rho0).
    { unfold initial_rho. apply Nat.eqb_neq in HM. rewrite HM.
      destruct (lmb_min <? 0); eexists; reflexivity. }
    destruct Hex as [rho0 Hrho]. exists rho0. split; [exact Hrho|].
    apply initial_rho_pos in Hrho. exact Hrho.
  - intros g num_samples num_iters viollim eps fuel st H.
    apply admm_run_inv in H as (co' & lmb_min & rho0 & _ & _ & _ & Hrho & H).
    apply initial_rho_pos in Hrho.
    apply admm_trials_step in H as [_ (k & _ & Hk)]. simpl in Hk.
    rewrite Hk.
    assert (0 < 2 ^ Z.of_nat k) by (apply Qpower_0_lt; reflexivity).
    nra.
Qed.

Lemma penalty_positive_witness :
  constraint_entries Scalar.min_problem <> [] /\
  (exists rho0 : Q, initial_rho (-3) 1 = Ok rho0 /\ 0 < rho0) /\
  exists st,
    @admm_run Scalar.E0 Scalar.min_problem [1; 1] 1 1 Scalar.viollim Scalar.eps 0
      = Ok st /\
    0 < rho st.
Proof.
  assert (Hne : constraint_entries Scalar.min_problem <> []) by discriminate.
  destruct (penalty_positive Scalar.E0 Scalar.min_problem
              (mk_coefficients (Scalar.scalar 1) [0] 0
                               [Scalar.scalar 1] [[0]] [-4] [false])
              Hne eq_refl) as [Hinit Hrun].
  split; [exact Hne|]. split; [exact (Hinit (-3))|].
  eexists. split; [vm_compute; reflexivity|].
  apply (Hrun [1; 1] 1%nat 1%nat Scalar.viollim Scalar.eps 0%nat).
  vm_compute. reflexivity.
Defined.

(** ** [solve_SDP_relaxation]: the relaxation at a lifted point *)

Lemma dot_row (a c b : Q) :
  forall row x : vec,
    length row = length x ->
    dot (row ++ [c]) (map (Qmult a) (x ++ [b])) == a * dot row x + c * (a * b).
Proof.
  induction row as [|p row IH]; intros [|y x] Hlen; simpl in *; try discriminate.
  - ring.
  - rewrite IH by congruence. ring.
Qed.

Lemma sum_snoc (l : list Q) (a : Q) :
  foldr Qplus 0 (l ++ [a]) == foldr Qplus 0 l + a.
Proof.
  induction l as [|b l IH]; simpl; [ring|]. rewrite IH. ring.
Qed.

Lemma lifted_rows (x : vec) :
  forall (A : matrix) (q xo : vec),
    length q = length A -> length xo = length A ->
    Forall (fun row => length row = length x) A ->
    foldr Qplus 0
          (zip_with dot (zip_with (fun row qi => row ++ [qi / 2]) A q)
                    (map (fun a => map (Qmult a) (x ++ [1])) xo)) ==
    dot (mat_vec A x) xo + dot q xo * (1 # 2).
Proof.
  induction A as [|row A IH]; intros [|qi q] [|a xo] Hq Hx Hrows;
    simpl in *; try discriminate.
  - ring.
  - inversion Hrows as [|? ? Hrow Hrows']; subst.
    rewrite IH by (auto; congruence).
    rewrite dot_row by exact Hrow. field.
Qed.

Lemma dot_half (q x : vec) :
  dot (map (fun qi => qi / 2) q) x == dot q x * (1 # 2).
Proof.
  revert x. induction q as [|a q IH]; intros [|b x]; simpl; try ring.
  rewrite IH. field.
Qed.

Lemma quad_form_rows (P : sparse) (x : vec) :
  shape P = (length x, length x) ->
  quad_form P x == dot (mat_vec (todense P) x) x.
Proof.
  intros Hsh. unfold quad_form, vec_mat. rewrite Hsh. simpl.
  rewrite (dot_mat_vec_transpose (length x)).
  - rewrite (dot_map_l_scale 1 (fun j => dot x (column (todense P) j))
                             (fun j => dot (column (todense P) j) x)).
    + ring.
    + intros j _. rewrite dot_comm. ring.
  - unfold todense. rewrite Hsh. simpl. apply Forall_forall.
    intros row Hin. apply list_elem_of_fmap in Hin as (i & -> & _).
    rewrite length_map, length_seq. reflexivity.
  - unfold todense. rewrite Hsh. simpl. rewrite length_map, length_seq.
    reflexivity.
Qed.

Lemma sum_entries_mul_lifted (P : sparse) (q : vec) (r : Q) (x : vec) :
  term_shaped (length x) (P, q, r) ->
  sum_entries_mul (bmat P q r) (lifted x) == quad_value P q r x.
Proof.
  intros [Hsh Hq]. simpl in Hsh, Hq.
  assert (Hrows : length (todense P) = length x).
  { unfold todense. rewrite Hsh. simpl. rewrite length_map, length_seq.
    reflexivity. }
  unfold sum_entries_mul, bmat, lifted. rewrite map_app. simpl.
  rewrite zip_with_app.
  2:{ rewrite length_zip_with, length_map. lia. }
  simpl. rewrite sum_snoc, lifted_rows.
  - rewrite dot_row by (rewrite length_map; exact Hq).
    rewrite dot_half. unfold quad_value.
    rewrite (quad_form_rows P x Hsh), (dot_comm x q). ring.
  - congruence.
  - congruence.
  - unfold todense. rewrite Hsh. simpl. apply Forall_forall.
    intros row Hin. apply list_elem_of_fmap in Hin as (i & -> & _).
    rewrite length_map, length_seq. reflexivity.
Qed.

Lemma lifted_corner (x : vec) :
  nth (length x) (nth (length x) (lifted x) []) 0 == 1.
Proof.
  unfold lifted. rewrite map_app. simpl.
  rewrite app_nth2 by (rewrite length_map; lia).
  rewrite length_map, Nat.sub_diag. simpl.
  rewrite map_app. simpl.
  rewrite app_nth2 by (rewrite length_map; lia).
  rewrite length_map, Nat.sub_diag. simpl. ring.
Qed.

Lemma lifted_PSD (x v : vec) : 0 <= dot (mat_vec (lifted x) v) v.
Proof.
  unfold mat_vec, lifted. rewrite map_map.
  set (w := x ++ [1]).
  rewrite (dot_map_l_scale (dot w v) (fun a => dot (map (Qmult a) w) v)
                           (fun a : Q => a)).
  - rewrite map_id. nra.
  - intros a _.
    rewrite (dot_map_l_scale a (Qmult a) (fun b : Q => b)) by (intros; ring).
    rewrite map_id. ring.
Qed.

Lemma relaxation_constraints (prob : Problem) (N : nat)
      (objective : sparse * vec * Q) :
  sdp_constraints (relaxation prob N objective) =
  entry_eq_one N N ::
  map (fun t : sparse * vec * Q * bool =>
         if t.2 then linear_eq_zero (bmat t.1.1.1 t.1.1.2 t.1.2)
                else linear_le_zero (bmat t.1.1.1 t.1.1.2 t.1.2))
      (constraint_entries prob).
Proof.
  destruct objective as [[P q] r]. unfold relaxation, constraint_entries. simpl.
  f_equal. induction (constraints prob) as [|c l IH]; simpl; [reflexivity|].
  rewrite map_app, IH. f_equal. rewrite map_map. apply map_ext.
  intros [[Pi qi] ri]. simpl. destruct (String.eqb (OP_NAME c) "=="); reflexivity.
Qed.

(** X14: the problem that [solve_SDP_relaxation] builds is a
    relaxation.  At a point [x] that satisfies every constraint, the
    lifted matrix [[x; 1] * [x; 1].T] has the dimension of the
    relaxation, is positive semidefinite, satisfies every relaxed
    constraint, and gives the relaxed objective the value of the
    objective at [x]. *)
Theorem relaxation_at_lifted_point (prob : Problem) (N : nat)
        (P : sparse) (q : vec) (r : Q) (x : vec) :
  length x = N ->
  term_shaped N (P, q, r) ->
  Forall (fun t => term_shaped N t.1) (constraint_entries prob) ->
  satisfies prob x ->
  let rel_prob := relaxation prob N (P, q, r) in
  length (lifted x) = sdp_dim rel_prob /\
  (forall v : vec, 0 <= dot (mat_vec (lifted x) v) v) /\
  Forall (fun c => rel_holds c (lifted x)) (sdp_constraints rel_prob) /\
  sum_entries_mul (sdp_objective rel_prob) (lifted x) == quad_value P q r x.
Proof.
  intros Hx Hobj Hshaped Hsat rel_prob. subst N.
  split; [|split; [|split]].
  - unfold lifted. simpl. rewrite length_map, length_app. reflexivity.
  - intros v. apply lifted_PSD.
  - unfold rel_prob. rewrite relaxation_constraints.
    constructor; [apply lifted_corner|].
    apply Forall_map. unfold satisfies in Hsat.
    rewrite Forall_forall in Hshaped, Hsat. apply Forall_forall.
    intros [[[Pi qi] ri] b] Hin.
    specialize (Hshaped _ Hin). specialize (Hsat _ Hin). simpl in Hshaped, Hsat.
    simpl. destruct b; simpl; rewrite sum_entries_mul_lifted by exact Hshaped;
      exact Hsat.
  - simpl. apply sum_entries_mul_lifted. exact Hobj.
Qed.

Lemma relaxation_at_lifted_point_witness :
  let rel_prob :=
    relaxation Scalar.eq_problem 1 (Scalar.scalar 1, [-6], 9) in
  length (lifted [1]) = sdp_dim rel_prob /\
  (forall v : vec, 0 <= dot (mat_vec (lifted [1]) v) v) /\
  Forall (fun c => rel_holds c (lifted [1])) (sdp_constraints rel_prob) /\
  sum_entries_mul (sdp_objective rel_prob) (lifted [1]) ==
    quad_value (Scalar.scalar 1) [-6] 9 [1].
Proof.
  apply (relaxation_at_lifted_point Scalar.eq_problem 1 (Scalar.scalar 1) [-6] 9 [1]).
  - reflexivity.
  - split; reflexivity.
  - repeat constructor.
  - repeat constructor.
Defined.
